(** * A storage-engine core: replacer, extendible hash, lock table, B+Tree, log redo

    Shallow embedding of the C++ sources (namespace [cmudb]) and the
    properties established about them.  Each module embeds one source
    file; definitions keep the names of the C++ members they embed. *)

From Stdlib Require Import ZArith Lia.
From Equations Require Import Equations.
From stdpp Require Import gmap list fin_maps sorting.

Local Open Scope Z_scope.

(* ===================================================================== *)
(** ** buffer/lru_replacer.cpp *)
(* ===================================================================== *)

Module LRU.
Section Replacer.
Context {T : Type} `{Countable T}.

(** [std::list<T> lst_] with [std::unordered_map<T, list::iterator> map_].
    A list iterator designates a list node; a node is identified here by
    the serial number it received when it was allocated by [push_front]
    ([next_node_] is that allocation counter, the front of the list is the
    head of [lst_]). *)
Record LRUReplacer := mkLRU {
  lst_ : list (nat * T);
  map_ : gmap T nat;
  next_node_ : nat
}.

Definition empty_replacer : LRUReplacer :=
  {| lst_ := []; map_ := ∅; next_node_ := 0%nat |}.

(** [lst_.erase(it)] *)
Definition list_erase (it : nat) (l : list (nat * T)) : list (nat * T) :=
  filter (λ n, n.1 ≠ it) l.

(** [lst_.pop_back()] *)
Definition pop_back (l : list (nat * T)) : list (nat * T) :=
  take (length l - 1)%nat l.

(** [void Insert(const T &value)] *)
Definition Insert (value : T) (s : LRUReplacer) : LRUReplacer :=
  let l1 := match map_ s !! value with
            | Some it => list_erase it (lst_ s)
            | None => lst_ s
            end in
  {| lst_ := (next_node_ s, value) :: l1;
     map_ := <[value := next_node_ s]> (map_ s);
     next_node_ := S (next_node_ s) |}.

(** [bool Victim(T &value)]: the second component is the content of the
    out-parameter after the call. *)
Definition Victim (s : LRUReplacer) (value : T) : bool * T * LRUReplacer :=
  match last (lst_ s) with
  | None => (false, value, s)
  | Some back =>
      (true, back.2,
       {| lst_ := pop_back (lst_ s);
          map_ := delete back.2 (map_ s);
          next_node_ := next_node_ s |})
  end.

(** [bool Erase(const T &value)] *)
Definition Erase (value : T) (s : LRUReplacer) : bool * LRUReplacer :=
  match map_ s !! value with
  | None => (false, s)
  | Some it =>
      (true,
       {| lst_ := list_erase it (lst_ s);
          map_ := delete value (map_ s);
          next_node_ := next_node_ s |})
  end.

(** [size_t Size()] *)
Definition Size (s : LRUReplacer) : nat := size (map_ s).

(** Histories of calls on one replacer, most recent call first. *)
Inductive call :=
| CallInsert (value : T)
| CallVictim (value : T)
| CallErase (value : T).

Definition step (c : call) (s : LRUReplacer) : LRUReplacer :=
  match c with
  | CallInsert v => Insert v s
  | CallVictim v => (Victim s v).2
  | CallErase v => (Erase v s).2
  end.

Fixpoint replay (h : list call) : LRUReplacer :=
  match h with
  | [] => empty_replacer
  | c :: h' => step c (replay h')
  end.

(** Position in the history (counted from 1 at the oldest call) of the
    most recent [Insert] of [x]; 0 when [x] was never inserted. *)
Fixpoint last_insert (x : T) (h : list call) : nat :=
  match h with
  | [] => 0%nat
  | CallInsert v :: h' =>
      if decide (v = x) then S (length h') else last_insert x h'
  | _ :: h' => last_insert x h'
  end.

(** The item [x] is held by the replacer. *)
Definition held (s : LRUReplacer) (x : T) : Prop := is_Some (map_ s !! x).

(** The items of the replacer from the most recently inserted to the least
    recently inserted one. *)
Definition items (s : LRUReplacer) : list T := (lst_ s).*2.

(** Representation invariant of the list/index pair relative to a history. *)
Record lru_inv (h : list call) (s : LRUReplacer) : Prop := {
  inv_nodup : NoDup (lst_ s).*1;
  inv_index : ∀ v it, map_ s !! v = Some it ↔ (it, v) ∈ lst_ s;
  inv_fresh : ∀ it v, (it, v) ∈ lst_ s → (it < next_node_ s)%nat;
  inv_order : StronglySorted
                (λ a b, (last_insert b.2 h < last_insert a.2 h)%nat) (lst_ s)
}.

Lemma last_insert_le x h : (last_insert x h ≤ length h)%nat.
Proof.
  induction h as [|c h IH]; simpl; [lia|].
  destruct c; try lia. case_decide; lia.
Qed.

Lemma list_erase_elem it l n : n ∈ list_erase it l ↔ n.1 ≠ it ∧ n ∈ l.
Proof. unfold list_erase. by rewrite list_elem_of_filter. Qed.

Lemma list_erase_sorted (R : relation (nat * T)) it l :
  StronglySorted R l → StronglySorted R (list_erase it l).
Proof.
  unfold list_erase. induction 1 as [|a l Hs IH Hall]; [constructor|].
  rewrite filter_cons. case_decide; [|exact IH].
  constructor; [exact IH|].
  rewrite Forall_forall in Hall |- *.
  intros y Hy. rewrite list_elem_of_filter in Hy. apply Hall, Hy.
Qed.

Lemma list_erase_nodup it l : NoDup l.*1 → NoDup (list_erase it l).*1.
Proof.
  unfold list_erase. induction l as [|a l IH]; simpl; [done|].
  rewrite NoDup_cons. intros [Hn Hd]. rewrite filter_cons.
  case_decide; [|by apply IH].
  rewrite fmap_cons, NoDup_cons. split; [|by apply IH].
  intros Hin. apply Hn. apply list_elem_of_fmap in Hin as [y [-> Hy]].
  rewrite list_elem_of_filter in Hy. destruct Hy as [_ Hy].
  apply list_elem_of_fmap. by exists y.
Qed.

Lemma nodup_fst_inj (l : list (nat * T)) it v w :
  NoDup l.*1 → (it, v) ∈ l → (it, w) ∈ l → v = w.
Proof.
  induction l as [|a l IH]; simpl; [by rewrite elem_of_nil|].
  rewrite NoDup_cons, !elem_of_cons. intros [Hn Hd] [Hv|Hv] [Hw|Hw].
  - congruence.
  - subst a. exfalso. apply Hn. apply list_elem_of_fmap. by exists (it, w).
  - subst a. exfalso. apply Hn. apply list_elem_of_fmap. by exists (it, v).
  - by apply IH.
Qed.

Lemma pop_back_snoc (l : list (nat * T)) x : pop_back (l ++ [x]) = l.
Proof.
  unfold pop_back. rewrite length_app. simpl.
  replace (length l + 1 - 1)%nat with (length l) by lia.
  by rewrite take_app_length.
Qed.

Lemma lru_inv_empty : lru_inv [] empty_replacer.
Proof.
  split; simpl.
  - constructor.
  - intros v it. rewrite lookup_empty, elem_of_nil. split; [done|tauto].
  - intros it v. by rewrite elem_of_nil.
  - constructor.
Qed.

Lemma sorted_change_rel (R R' : relation (nat * T)) l :
  (∀ a b, a ∈ l → b ∈ l → R a b → R' a b) →
  StronglySorted R l → StronglySorted R' l.
Proof.
  intros Himp Hs. induction Hs as [|a l Hs IH Hall]; [constructor|].
  constructor.
  - apply IH. intros x y Hx Hy. apply Himp; by apply list_elem_of_further.
  - rewrite Forall_forall in Hall |- *. intros y Hy.
    apply Himp; [apply list_elem_of_here | by apply list_elem_of_further | by apply Hall].
Qed.

(** Erasing the node the index holds for [v] removes exactly the entries
    that carry [v]. *)
Lemma erase_indexed h s v it i w :
  lru_inv h s → map_ s !! v = Some it →
  (i, w) ∈ list_erase it (lst_ s) ↔ (i, w) ∈ lst_ s ∧ w ≠ v.
Proof.
  intros [Hnd Hidx _ _] Hv. rewrite list_erase_elem. simpl.
  apply Hidx in Hv. split.
  - intros [Hne Hin]. split; [done|]. intros ->.
    apply Hidx in Hin. apply Hidx in Hv. congruence.
  - intros [Hin Hne]. split; [|done]. intros ->.
    apply Hne. eapply nodup_fst_inj; eauto.
Qed.

Lemma Insert_inv h s v : lru_inv h s → lru_inv (CallInsert v :: h) (Insert v s).
Proof.
  intros Hinv. pose proof Hinv as [Hnd Hidx Hfr Hord].
  set (l1 := match map_ s !! v with
             | Some it => list_erase it (lst_ s) | None => lst_ s end).
  assert (Hl1 : ∀ i w, (i, w) ∈ l1 ↔ (i, w) ∈ lst_ s ∧ w ≠ v).
  { intros i w. unfold l1. destruct (map_ s !! v) as [it|] eqn:Hv.
    - by eapply erase_indexed.
    - split; [|tauto]. intros Hin. split; [done|]. intros ->.
      apply Hidx in Hin. congruence. }
  assert (Hnd1 : NoDup l1.*1).
  { unfold l1. destruct (map_ s !! v); [by apply list_erase_nodup|done]. }
  assert (Hord1 : StronglySorted
            (λ a b, (last_insert b.2 h < last_insert a.2 h)%nat) l1).
  { unfold l1. destruct (map_ s !! v); [by apply list_erase_sorted|done]. }
  split; simpl; fold l1.
  - rewrite NoDup_cons. split; [|done].
    intros Hin. apply list_elem_of_fmap in Hin as [[i w] [Heq Hin]].
    simpl in Heq. subst i. apply Hl1 in Hin as [Hin _].
    apply Hfr in Hin. lia.
  - intros w i. rewrite elem_of_cons, Hl1.
    destruct (decide (v = w)) as [->|Hne].
    + rewrite lookup_insert_eq. split.
      * intros [= <-]. by left.
      * intros [[= -> ]|[_ ?]]; done.
    + rewrite lookup_insert_ne by done. rewrite Hidx. split.
      * intros Hin. right. split; [done|congruence].
      * intros [[= _ ->]|[Hin _]]; done.
  - intros it w. rewrite elem_of_cons, Hl1.
    intros [[= -> _]|[Hin _]]; [lia|]. apply Hfr in Hin. lia.
  - constructor.
    + eapply sorted_change_rel; [|exact Hord1]. simpl.
      intros [i a] [j b] Ha Hb. simpl.
      apply Hl1 in Ha as [_ Ha]. apply Hl1 in Hb as [_ Hb].
      destruct (decide (v = a)) as [->|_]; [done|].
      destruct (decide (v = b)) as [->|_]; done.
    + rewrite Forall_forall. intros [j b] Hb. simpl.
      apply Hl1 in Hb as [_ Hb].
      destruct (decide (v = b)) as [->|_]; [done|].
      rewrite decide_True by done.
      pose proof (last_insert_le b h). lia.
Qed.

Lemma Erase_inv h s v : lru_inv h s → lru_inv (CallErase v :: h) (Erase v s).2.
Proof.
  intros Hinv. pose proof Hinv as [Hnd Hidx Hfr Hord].
  unfold Erase. destruct (map_ s !! v) as [it|] eqn:Hv; simpl.
  2:{ by split. }
  split; simpl.
  - by apply list_erase_nodup.
  - intros w i. rewrite (erase_indexed h s v it) by done.
    destruct (decide (v = w)) as [->|Hne].
    + rewrite lookup_delete_eq. split; [done|tauto].
    + rewrite lookup_delete_ne by done. rewrite Hidx. split; [|tauto].
      intros ?. split; [done|congruence].
  - intros i w Hin. eapply erase_indexed in Hin as [Hin _]; eauto.
  - by apply list_erase_sorted.
Qed.

Lemma Victim_inv h s out :
  lru_inv h s → lru_inv (CallVictim out :: h) (Victim s out).2.
Proof.
  intros Hinv. pose proof Hinv as [Hnd Hidx Hfr Hord].
  unfold Victim. destruct (last (lst_ s)) as [[ib vb]|] eqn:Hlast; simpl.
  2:{ by split. }
  apply last_Some in Hlast as [l' Hl'].
  rewrite Hl' in Hnd, Hidx, Hfr, Hord |- *. rewrite pop_back_snoc.
  rewrite fmap_app in Hnd. apply NoDup_app in Hnd as (Hnd' & Hdisj & _).
  split; simpl.
  - done.
  - intros w i. destruct (decide (vb = w)) as [->|Hne].
    + rewrite lookup_delete_eq. split; [done|]. intros Hin. exfalso.
      assert (Hi : map_ s !! w = Some i).
      { apply Hidx. apply elem_of_app. by left. }
      assert (Hb : map_ s !! w = Some ib).
      { apply Hidx. apply elem_of_app. right. apply list_elem_of_singleton. done. }
      assert (i = ib) by congruence. subst i.
      apply (Hdisj ib).
      * apply list_elem_of_fmap. by exists (ib, w).
      * simpl. apply list_elem_of_singleton. done.
    + rewrite lookup_delete_ne by done. rewrite Hidx, elem_of_app.
      rewrite list_elem_of_singleton. split; [|tauto].
      intros [?|[= _ ->]]; done.
  - intros i w Hin. apply (Hfr i w). apply elem_of_app. by left.
  - by apply StronglySorted_app_1_l in Hord.
Qed.

Lemma replay_inv h : lru_inv h (replay h).
Proof.
  induction h as [|c h IH]; simpl; [apply lru_inv_empty|].
  destruct c; simpl.
  - by apply Insert_inv.
  - by apply Victim_inv.
  - by apply Erase_inv.
Qed.

Lemma Size_zero_iff h s : lru_inv h s → Size s = 0%nat ↔ lst_ s = [].
Proof.
  intros [_ Hidx _ _]. unfold Size. rewrite map_size_empty_iff. split.
  - intros Hm. destruct (lst_ s) as [|[i w] l]; [done|].
    assert (map_ s !! w = Some i) as Hw by (apply Hidx; apply list_elem_of_here).
    rewrite Hm, lookup_empty in Hw. done.
  - intros Hl. apply map_eq. intros w. rewrite lookup_empty.
    destruct (map_ s !! w) as [i|] eqn:Hw; [|done].
    apply Hidx in Hw. rewrite Hl in Hw. by apply elem_of_nil in Hw.
Qed.

(** C10.  [Victim] on an empty replacer returns false and changes neither
    the replacer nor the out-parameter.  On a non-empty replacer (in any
    state reached by a history of [Insert], [Victim] and [Erase] calls) it
    returns true and outputs a held item [y] whose most recent [Insert] is
    older than the most recent [Insert] of every other held item; [y] is
    no longer held afterwards, every other item is held exactly as before,
    and [Size] has decreased by exactly one. *)
Theorem Victim_least_recent (h : list call) (out : T) :
  (Size (replay h) = 0%nat → Victim (replay h) out = (false, out, replay h)) ∧
  (Size (replay h) ≠ 0%nat →
     ∃ y s', Victim (replay h) out = (true, y, s') ∧
       held (replay h) y ∧
       (0 < last_insert y h)%nat ∧
       (∀ x, held (replay h) x → x ≠ y →
             (last_insert y h < last_insert x h)%nat) ∧
       ¬ held s' y ∧
       (∀ x, x ≠ y → (held s' x ↔ held (replay h) x)) ∧
       S (Size s') = Size (replay h)).
Proof.
  pose proof (replay_inv h) as Hinv. set (s := replay h) in *.
  pose proof Hinv as [Hnd Hidx Hfr Hord].
  split.
  - intros Hz. apply (Size_zero_iff h) in Hz; [|done].
    unfold Victim. by rewrite Hz.
  - intros Hnz. rewrite (Size_zero_iff h) in Hnz by done.
    unfold Victim. destruct (last (lst_ s)) as [[ib vb]|] eqn:Hlast.
    2:{ apply last_None in Hlast. done. }
    eexists _, _. split; [reflexivity|]. simpl.
    apply last_Some in Hlast as [l' Hl'].
    assert (Hvb : map_ s !! vb = Some ib).
    { apply Hidx. rewrite Hl'. apply elem_of_app. right.
      by apply list_elem_of_singleton. }
    split; [by exists ib|].
    assert (Hothers : ∀ x, held s x → x ≠ vb →
              (last_insert vb h < last_insert x h)%nat).
    { intros x [ix Hx] Hne. apply Hidx in Hx. rewrite Hl' in Hx, Hord.
      apply elem_of_app in Hx as [Hx|Hx].
      - eapply (StronglySorted_app_1_elem_of _ l' [(ib, vb)] (ix, x) (ib, vb)) in Hord;
          [exact Hord|done|by apply list_elem_of_singleton].
      - apply list_elem_of_singleton in Hx. congruence. }
    split; [|split; [exact Hothers|split; [|split]]].
    + clear -Hinv Hvb. subst s.
      induction h as [|c h IH]; simpl in *; [by rewrite lookup_empty in Hvb|].
      destruct c as [v|v|v]; simpl in *.
      * case_decide; [lia|]. apply IH; [apply replay_inv|].
        by rewrite lookup_insert_ne in Hvb.
      * apply IH; [apply replay_inv|]. unfold Victim in Hvb.
        destruct (last (lst_ (replay h))); simpl in Hvb; [|done].
        apply lookup_delete_Some in Hvb. tauto.
      * apply IH; [apply replay_inv|]. unfold Erase in Hvb.
        destruct (map_ (replay h) !! v); simpl in Hvb; [|done].
        apply lookup_delete_Some in Hvb. tauto.
    + unfold held. simpl. rewrite lookup_delete_eq. by intros [? ?].
    + intros x Hne. unfold held. simpl. by rewrite lookup_delete_ne.
    + unfold Size. simpl. rewrite map_size_delete_Some by eauto.
      assert (size (map_ s) ≠ 0%nat); [|lia].
      rewrite map_size_empty_iff. intros Hm.
      rewrite Hm, lookup_empty in Hvb. done.
Qed.

(** *** The replacer as a move-to-front list *)

Lemma erase_items (l : list (nat * T)) it v :
  (∀ i w, (i, w) ∈ l → (i = it ↔ w = v)) →
  (list_erase it l).*2 = filter (λ y, y ≠ v) l.*2.
Proof.
  unfold list_erase. induction l as [|[i w] l IH]; intros Hl; [done|].
  rewrite fmap_cons, !filter_cons. simpl.
  assert (Hhead : i = it ↔ w = v) by (apply Hl; apply list_elem_of_here).
  assert (Htail : (filter (λ n, n.1 ≠ it) l).*2 = filter (λ y, y ≠ v) l.*2).
  { apply IH. intros j u Hin. apply Hl. by apply list_elem_of_further. }
  destruct (decide (i ≠ it)) as [Hi|Hi], (decide (w ≠ v)) as [Hw|Hw].
  - by rewrite fmap_cons, Htail.
  - exfalso. apply Hi, Hhead. by destruct (decide (w = v)).
  - exfalso. apply Hw, Hhead. by destruct (decide (i = it)).
  - done.
Qed.

Lemma filter_all_kept (P : T → Prop) `{∀ y, Decision (P y)} (l : list T) :
  (∀ y, y ∈ l → P y) → filter P l = l.
Proof.
  induction l as [|y l IH]; intros Hl; [done|].
  rewrite filter_cons, decide_True by (apply Hl, list_elem_of_here).
  f_equal. apply IH. intros z Hz. by apply Hl, list_elem_of_further.
Qed.

Lemma indexed_node h s v it :
  lru_inv h s → map_ s !! v = Some it →
  ∀ i w, (i, w) ∈ lst_ s → (i = it ↔ w = v).
Proof.
  intros [Hnd Hidx _ _] Hv i w Hin. split.
  - intros ->. apply Hidx in Hv. eapply nodup_fst_inj; eauto.
  - intros ->. apply Hidx in Hin. congruence.
Qed.

Lemma held_items h s x : lru_inv h s → held s x ↔ x ∈ items s.
Proof.
  intros [_ Hidx _ _]. unfold held, items. rewrite list_elem_of_fmap. split.
  - intros [it Hit]. exists (it, x). split; [done|]. by apply Hidx.
  - intros [[it w] [-> Hin]]. exists it. by apply Hidx.
Qed.

Lemma items_nodup h s : lru_inv h s → NoDup (items s).
Proof.
  intros [Hnd Hidx _ _]. unfold items.
  apply NoDup_fmap_2_strong; [|by apply NoDup_fmap_1 in Hnd].
  intros [i v] [j w] Hi Hj Heq. simpl in Heq. subst w.
  apply Hidx in Hi, Hj. congruence.
Qed.

(** [Insert] puts the item at the front and keeps the order of all other
    items: in every reachable state, the items after [Insert x] are [x]
    followed by the former items without [x]. *)
Theorem Insert_moves_to_front (h : list call) (x : T) :
  items (Insert x (replay h)) = x :: filter (λ y, y ≠ x) (items (replay h)).
Proof.
  pose proof (replay_inv h) as Hinv. set (s := replay h) in *.
  unfold items, Insert. simpl. f_equal.
  destruct (map_ s !! x) as [it|] eqn:Hx.
  - apply erase_items. by eapply indexed_node.
  - symmetry. apply filter_all_kept. intros y Hy ->.
    apply (held_items h s x Hinv) in Hy as [it Hit]. congruence.
Qed.

(** [Erase] returns true exactly when the item is held, and removes that
    item only, keeping the order of the others. *)
Theorem Erase_drops_item (h : list call) (x : T) :
  ((Erase x (replay h)).1 = true ↔ x ∈ items (replay h)) ∧
  items (Erase x (replay h)).2 = filter (λ y, y ≠ x) (items (replay h)).
Proof.
  pose proof (replay_inv h) as Hinv. set (s := replay h) in *.
  rewrite <- (held_items h s x Hinv). unfold Erase, held.
  destruct (map_ s !! x) as [it|] eqn:Hx; simpl.
  - split; [split; eauto|]. apply erase_items. by eapply indexed_node.
  - split; [split; [done|by intros [? ?]]|].
    symmetry. apply filter_all_kept. intros y Hy ->.
    apply (held_items h s x Hinv) in Hy as [it Hit]. congruence.
Qed.

(** In every reachable state the list holds no item twice, [Size] is the
    number of items in the list, and the index holds exactly the items of
    the list. *)
Theorem Size_counts_items (h : list call) :
  NoDup (items (replay h)) ∧
  Size (replay h) = length (items (replay h)) ∧
  ∀ x, held (replay h) x ↔ x ∈ items (replay h).
Proof.
  pose proof (replay_inv h) as Hinv. set (s := replay h) in *.
  split; [by eapply items_nodup|]. split; [|intros x; by eapply held_items].
  pose proof Hinv as [Hnd Hidx _ _].
  unfold Size, items. rewrite length_fmap, <- length_map_to_list.
  rewrite <- (length_fmap prod_swap (lst_ s)).
  apply Permutation_length, NoDup_Permutation.
  - apply NoDup_map_to_list.
  - apply NoDup_fmap_2; [apply _|]. by apply NoDup_fmap_1 in Hnd.
  - intros [v it]. rewrite elem_of_map_to_list, list_elem_of_fmap, Hidx. split.
    + intros Hin. by exists (it, v).
    + intros [[i w] [[= -> ->] Hin]]. done.
Qed.

End Replacer.

(** Insert 1, 2, 3; Erase 2; Insert 4; three Victims yield 1, 3, 4 and
    leave the replacer empty. *)
Example victims_in_insertion_order :
  let s0 := (Erase 2 (Insert 3 (Insert 2 (Insert 1 (empty_replacer (T := Z)))))).2 in
  let '(r1, v1, s1) := Victim (Insert 4 s0) 0 in
  let '(r2, v2, s2) := Victim s1 0 in
  let '(r3, v3, s3) := Victim s2 0 in
  (r1, v1) = (true, 1) ∧ (r2, v2) = (true, 3) ∧ (r3, v3) = (true, 4) ∧
  Size s3 = 0%nat ∧ Victim s3 9 = (false, 9, s3).
Proof. vm_compute. repeat split; reflexivity. Qed.

End LRU.

(* ===================================================================== *)
(** ** hash/extendible_hash.cpp *)
(* ===================================================================== *)

Module ExtendibleHash.
Section Table.
Context {K V : Type} `{Countable K}.

(** [std::hash<K>], the value of [HashKey]. *)
Variable HashKey : K → Z.

(** [struct Bucket { int local_depth_; std::map<K, V> map_; }] *)
Record Bucket := mkBucket {
  local_depth_ : Z;
  bmap_ : gmap K V
}.

(** The directory holds [std::shared_ptr<Bucket>]: several slots may point
    to one bucket.  Buckets live in [heap_]; a pointer is the position of
    the bucket in it, [std::make_shared] appends a bucket. *)
Record ExtendibleHash := mkTable {
  global_depth_ : Z;
  size_limit_ : nat;
  bucket_directory_ : list nat;
  heap_ : list Bucket
}.

(** [ExtendibleHash(size_t size)] *)
Definition new_table (size : nat) : ExtendibleHash :=
  {| global_depth_ := 0;
     size_limit_ := size;
     bucket_directory_ := [0%nat];
     heap_ := [mkBucket 0 ∅] |}.

Definition GetGlobalDepth (t : ExtendibleHash) : Z := global_depth_ t.

Definition GetLocalDepth (bucket_index : nat) (t : ExtendibleHash) : option Z :=
  a ← bucket_directory_ t !! bucket_index;
  b ← heap_ t !! a;
  Some (local_depth_ b).

Definition GetNumBuckets (t : ExtendibleHash) : Z :=
  Z.of_nat (length (bucket_directory_ t)).

(** [hash_value & ((1 << global_depth_) - 1)] *)
Definition GetBucketIndex (hash_value : Z) (t : ExtendibleHash) : Z :=
  Z.land hash_value (Z.shiftl 1 (global_depth_ t) - 1).

(** [bucket_directory_.at(...)]: [None] when [at] throws. *)
Definition GetBucket (key : K) (t : ExtendibleHash) : option nat :=
  bucket_directory_ t !! Z.to_nat (GetBucketIndex (HashKey key) t).

(** [bool Find(const K &key, V &value)]: [Some (Some v)] is the result
    true with [value = v], [Some None] the result false. *)
Definition Find (key : K) (t : ExtendibleHash) : option (option V) :=
  a ← GetBucket key t;
  b ← heap_ t !! a;
  Some (bmap_ b !! key).

(** [bool Remove(const K &key)] *)
Definition Remove (key : K) (t : ExtendibleHash) : option (bool * ExtendibleHash) :=
  a ← GetBucket key t;
  b ← heap_ t !! a;
  match bmap_ b !! key with
  | None => Some (false, t)
  | Some _ =>
      Some (true,
            {| global_depth_ := global_depth_ t;
               size_limit_ := size_limit_ t;
               bucket_directory_ := bucket_directory_ t;
               heap_ := <[a := mkBucket (local_depth_ b) (delete key (bmap_ b))]>
                          (heap_ t) |})
  end.

(** The directory doubling at the head of the loop body. *)
Definition grow_directory (b : Bucket) (t : ExtendibleHash) : ExtendibleHash :=
  if decide (local_depth_ b = global_depth_ t) then
    {| global_depth_ := global_depth_ t + 1;
       size_limit_ := size_limit_ t;
       bucket_directory_ := bucket_directory_ t ++ bucket_directory_ t;
       heap_ := heap_ t |}
  else t.

(** The rest of the loop body: the bucket at address [a] is split in two
    fresh buckets and every slot that pointed to it is retargeted. *)
Definition split_bucket (a : nat) (b : Bucket) (t : ExtendibleHash) : ExtendibleHash :=
  let mask := Z.shiftl 1 (local_depth_ b) in
  let left_bucket :=
    mkBucket (local_depth_ b + 1)
             (filter (λ item, Z.land mask (HashKey item.1) = 0) (bmap_ b)) in
  let right_bucket :=
    mkBucket (local_depth_ b + 1)
             (filter (λ item, Z.land mask (HashKey item.1) ≠ 0) (bmap_ b)) in
  let left_ptr := length (heap_ t) in
  let right_ptr := S (length (heap_ t)) in
  {| global_depth_ := global_depth_ t;
     size_limit_ := size_limit_ t;
     bucket_directory_ :=
       imap (λ i p, if decide (p = a)
                    then (if decide (Z.land mask (Z.of_nat i) ≠ 0)
                          then right_ptr else left_ptr)
                    else p)
            (bucket_directory_ t);
     heap_ := heap_ t ++ [left_bucket; right_bucket] |}.

(** [void Insert(const K &key, const V &value)].  [fuel] bounds the number
    of times the loop condition is evaluated; [None] when it is exhausted
    (or when [at] throws). *)
Fixpoint Insert (fuel : nat) (key : K) (value : V) (t : ExtendibleHash)
  : option ExtendibleHash :=
  match fuel with
  | O => None
  | S fuel' =>
      a ← GetBucket key t;
      b ← heap_ t !! a;
      if decide (size (bmap_ b) = size_limit_ t) then
        Insert fuel' key value (split_bucket a b (grow_directory b t))
      else
        Some {| global_depth_ := global_depth_ t;
                size_limit_ := size_limit_ t;
                bucket_directory_ := bucket_directory_ t;
                heap_ := <[a := mkBucket (local_depth_ b)
                                         (<[key := value]> (bmap_ b))]>
                           (heap_ t) |}
  end.

(** Shape invariant of the directory: it has [2^global_depth_] slots, and
    every slot points to a live bucket whose local depth is within
    [0 .. global_depth_]. *)
Record table_wf (t : ExtendibleHash) : Prop := {
  wf_depth : 0 ≤ global_depth_ t;
  wf_length : Z.of_nat (length (bucket_directory_ t)) = 2 ^ global_depth_ t;
  wf_slots : ∀ i a, bucket_directory_ t !! i = Some a →
               ∃ b, heap_ t !! a = Some b ∧ 0 ≤ local_depth_ b ≤ global_depth_ t
}.

(** *** Bit-level facts about masks and directory indices *)

Lemma low_mask_ones (d : Z) : Z.shiftl 1 d - 1 = Z.ones d.
Proof. unfold Z.ones. lia. Qed.

Lemma land_single_bit (n x : Z) :
  0 ≤ n → (Z.land (Z.shiftl 1 n) x ≠ 0 ↔ Z.testbit x n = true).
Proof.
  intros Hn. rewrite Z.shiftl_1_l.
  destruct (Z.testbit x n) eqn:Hb.
  - split; [done|]. intros _ Hz.
    assert (Z.testbit (Z.land (2 ^ n) x) n = true) as Ht.
    { rewrite Z.land_spec, Z.pow2_bits_true by lia. done. }
    rewrite Hz, Z.bits_0 in Ht. done.
  - split; [|done]. intros Hne. exfalso. apply Hne.
    apply Z.bits_inj'. intros m Hm.
    rewrite Z.land_spec, Z.bits_0, Z.pow2_bits_eqb by lia.
    destruct (Z.eqb_spec n m) as [->|]; [by rewrite Hb|done].
Qed.

Lemma GetBucketIndex_mod (h : Z) (t : ExtendibleHash) :
  0 ≤ global_depth_ t →
  GetBucketIndex h t = h mod 2 ^ global_depth_ t.
Proof.
  intros Hd. unfold GetBucketIndex.
  by rewrite low_mask_ones, Z.land_ones.
Qed.

Lemma GetBucketIndex_range (h : Z) (t : ExtendibleHash) :
  0 ≤ global_depth_ t →
  0 ≤ GetBucketIndex h t < 2 ^ global_depth_ t.
Proof.
  intros Hd. rewrite GetBucketIndex_mod by done.
  apply Z.mod_pos_bound. by apply Z.pow_pos_nonneg.
Qed.

Lemma GetBucketIndex_bit (h d : Z) (t : ExtendibleHash) :
  0 ≤ d < global_depth_ t →
  Z.testbit (GetBucketIndex h t) d = Z.testbit h d.
Proof.
  intros Hd. unfold GetBucketIndex.
  rewrite low_mask_ones, Z.land_spec, Z.ones_spec_low by lia.
  by rewrite andb_true_r.
Qed.

Lemma mod_pow2_succ (h d : Z) :
  0 ≤ d →
  h mod 2 ^ (d + 1) = h mod 2 ^ d ∨ h mod 2 ^ (d + 1) = h mod 2 ^ d + 2 ^ d.
Proof.
  intros Hd. assert (0 < 2 ^ d) by (by apply Z.pow_pos_nonneg).
  rewrite Z.pow_add_r, Z.pow_1_r by lia.
  rewrite Z.rem_mul_r by lia.
  assert (0 ≤ (h / 2 ^ d) mod 2 < 2) by (apply Z.mod_pos_bound; lia).
  destruct (decide ((h / 2 ^ d) mod 2 = 0)) as [->|]; [left; lia|].
  right. replace ((h / 2 ^ d) mod 2) with 1 by lia. lia.
Qed.

(** *** The directory after doubling *)

Lemma grow_directory_wf b t :
  table_wf t → 0 ≤ local_depth_ b ≤ global_depth_ t →
  table_wf (grow_directory b t) ∧
  local_depth_ b < global_depth_ (grow_directory b t) ∧
  heap_ (grow_directory b t) = heap_ t ∧
  size_limit_ (grow_directory b t) = size_limit_ t.
Proof.
  intros [Hd Hlen Hsl] Hb. unfold grow_directory.
  case_decide as Heq; simpl.
  - split; [|split; [lia|done]]. split; simpl.
    + lia.
    + rewrite length_app, Nat2Z.inj_add, Hlen.
      rewrite Z.pow_add_r, Z.pow_1_r by lia. lia.
    + intros i a Hi. apply lookup_app_Some in Hi.
      destruct Hi as [Hi|[_ Hi]]; apply Hsl in Hi as (b' & ? & ?);
        exists b'; split; (done || lia).
  - split; [by split|]. split; [lia|done].
Qed.

Lemma grow_directory_GetBucket b t key :
  table_wf t →
  GetBucket key (grow_directory b t) = GetBucket key t.
Proof.
  intros [Hd Hlen Hsl]. unfold grow_directory.
  case_decide as Heq; [|done].
  unfold GetBucket. rewrite !GetBucketIndex_mod by (simpl; lia). simpl.
  pose proof (Z.mod_pos_bound (HashKey key) (2 ^ global_depth_ t)
                ltac:(by apply Z.pow_pos_nonneg)) as Hr.
  destruct (mod_pow2_succ (HashKey key) (global_depth_ t) Hd) as [->| ->].
  - apply lookup_app_l. lia.
  - rewrite lookup_app_r by lia. f_equal. lia.
Qed.

(** *** One split of a full bucket *)

Lemma split_bucket_wf a b t :
  table_wf t → 0 ≤ local_depth_ b < global_depth_ t →
  table_wf (split_bucket a b t).
Proof.
  intros [Hd Hlen Hsl] Hb. split; simpl.
  - done.
  - by rewrite length_imap.
  - intros i p. rewrite list_lookup_imap.
    destruct (bucket_directory_ t !! i) as [q|] eqn:Hq; simpl; [|done].
    intros [= <-]. case_decide as Hqa.
    + case_decide.
      * eexists. split.
        { rewrite lookup_app_r by lia.
          replace (S (length (heap_ t)) - length (heap_ t))%nat with 1%nat by lia.
          reflexivity. }
        simpl. lia.
      * eexists. split.
        { rewrite lookup_app_r by lia. rewrite Nat.sub_diag. reflexivity. }
        simpl. lia.
    + apply Hsl in Hq as (b' & Hb' & ?). exists b'. split; [|done].
      by apply lookup_app_l_Some.
Qed.

Lemma split_bucket_Find a b t key :
  table_wf t → heap_ t !! a = Some b →
  0 ≤ local_depth_ b < global_depth_ t →
  Find key (split_bucket a b t) = Find key t.
Proof.
  intros Hwf Ha Hb. pose proof Hwf as [Hd Hlen Hsl].
  unfold Find, GetBucket.
  change (GetBucketIndex (HashKey key) (split_bucket a b t))
    with (GetBucketIndex (HashKey key) t).
  pose proof (GetBucketIndex_range (HashKey key) t Hd) as Hr.
  set (idx := GetBucketIndex (HashKey key) t) in *.
  simpl. rewrite list_lookup_imap.
  destruct (bucket_directory_ t !! Z.to_nat idx) as [q|] eqn:Hq; simpl; [|done].
  rewrite Z2Nat.id by lia.
  case_decide as Hqa.
  - subst q. rewrite Ha. simpl.
    assert (Hbit : Z.land (Z.shiftl 1 (local_depth_ b)) idx ≠ 0 ↔
                   Z.land (Z.shiftl 1 (local_depth_ b)) (HashKey key) ≠ 0).
    { rewrite !land_single_bit by lia. unfold idx.
      by rewrite GetBucketIndex_bit by lia. }
    case_decide as Hbi.
    + rewrite lookup_app_r by lia.
      replace (S (length (heap_ t)) - length (heap_ t))%nat with 1%nat by lia.
      simpl. f_equal.
      rewrite map_lookup_filter.
      destruct (bmap_ b !! key); simpl; [|done].
      rewrite option_guard_True; [done|]. simpl. by apply Hbit.
    + rewrite lookup_app_r by lia. rewrite Nat.sub_diag.
      simpl. f_equal.
      rewrite map_lookup_filter.
      destruct (bmap_ b !! key); simpl; [|done].
      rewrite option_guard_True; [done|]. simpl.
      destruct (decide (Z.land (Z.shiftl 1 (local_depth_ b)) (HashKey key) = 0))
        as [|Hk]; [done|]. apply Hbit in Hk. done.
  - apply Hsl in Hq as (b' & Hb' & _).
    rewrite (lookup_app_l_Some _ _ _ _ Hb'). by rewrite Hb'.
Qed.

(** The whole loop body preserves the invariant and every lookup. *)
Lemma loop_body_preserves a b t key :
  table_wf t → bucket_directory_ t !! Z.to_nat (GetBucketIndex (HashKey key) t) = Some a →
  heap_ t !! a = Some b →
  table_wf (split_bucket a b (grow_directory b t)) ∧
  size_limit_ (split_bucket a b (grow_directory b t)) = size_limit_ t ∧
  ∀ key', Find key' (split_bucket a b (grow_directory b t)) = Find key' t.
Proof.
  intros Hwf Hslot Ha.
  assert (Hb : 0 ≤ local_depth_ b ≤ global_depth_ t).
  { destruct Hwf as [_ _ Hsl]. apply Hsl in Hslot as (b' & Hb' & ?).
    congruence. }
  destruct (grow_directory_wf b t Hwf Hb) as (Hwf1 & Hlt & Hheap & Hlim).
  split; [apply split_bucket_wf; [done|lia]|].
  split; [done|].
  intros key'. rewrite split_bucket_Find; [|done|by rewrite Hheap|lia].
  unfold Find. by rewrite grow_directory_GetBucket, Hheap.
Qed.

(** The final store [bucket->map_[key] = value]. *)
Lemma store_wf a b' t :
  table_wf t → (∀ b, heap_ t !! a = Some b → local_depth_ b' = local_depth_ b) →
  table_wf {| global_depth_ := global_depth_ t;
              size_limit_ := size_limit_ t;
              bucket_directory_ := bucket_directory_ t;
              heap_ := <[a := b']> (heap_ t) |}.
Proof.
  intros [Hd Hlen Hsl] Hsame. split; simpl; [done|done|].
  intros i p Hp. apply Hsl in Hp as (b & Hb & ?).
  destruct (decide (a = p)) as [->|Hne].
  - exists b'. split.
    + apply list_lookup_insert_eq. by eapply lookup_lt_Some.
    + rewrite (Hsame b Hb). done.
  - exists b. by rewrite list_lookup_insert_ne.
Qed.

(** *** Insert, Find and Remove *)

Lemma new_table_wf (size : nat) : table_wf (new_table size).
Proof.
  split; simpl; [lia|done|].
  intros [|i] a; simpl; [|done]. intros [= <-].
  eexists. split; [reflexivity|]. simpl. lia.
Qed.

Lemma Insert_spec fuel key value t t' :
  table_wf t → Insert fuel key value t = Some t' →
  table_wf t' ∧
  size_limit_ t' = size_limit_ t ∧
  Find key t' = Some (Some value) ∧
  ∀ key', key' ≠ key → Find key' t' = Find key' t.
Proof.
  revert t. induction fuel as [|fuel IH]; intros t Hwf; simpl; [done|].
  unfold GetBucket at 1.
  destruct (bucket_directory_ t !! Z.to_nat (GetBucketIndex (HashKey key) t))
    as [a|] eqn:Hslot; simpl; [|done].
  destruct (heap_ t !! a) as [b|] eqn:Ha; simpl; [|done].
  case_decide as Hfull.
  - intros Hrec.
    destruct (loop_body_preserves a b t key Hwf Hslot Ha) as (Hwf1 & Hlim1 & Hfind1).
    destruct (IH _ Hwf1 Hrec) as (Hwf' & Hlim' & Hk & Hothers).
    split; [done|]. split; [congruence|]. split; [done|].
    intros key' Hne. rewrite Hothers by done. apply Hfind1.
  - intros [= <-]. split.
    { apply store_wf; [done|]. intros b0 Hb0. simpl. congruence. }
    split; [done|].
    assert (Hlt : (a < length (heap_ t))%nat) by (by eapply lookup_lt_Some).
    split.
    + unfold Find, GetBucket. simpl.
      change (GetBucketIndex (HashKey key) _) with (GetBucketIndex (HashKey key) t).
      rewrite Hslot. simpl. rewrite list_lookup_insert_eq by done. simpl.
      by rewrite lookup_insert_eq.
    + intros key' Hne. unfold Find, GetBucket. simpl.
      change (GetBucketIndex (HashKey key') _) with (GetBucketIndex (HashKey key') t).
      destruct (bucket_directory_ t !! Z.to_nat (GetBucketIndex (HashKey key') t))
        as [a'|]; simpl; [|done].
      destruct (decide (a = a')) as [<-|Hna].
      * rewrite list_lookup_insert_eq by done. rewrite Ha. simpl.
        by rewrite lookup_insert_ne.
      * by rewrite list_lookup_insert_ne.
Qed.

(** With room in the target bucket the loop body is never entered. *)
Lemma Insert_returns_without_split key value t :
  table_wf t →
  (∀ a b, GetBucket key t = Some a → heap_ t !! a = Some b →
          size (bmap_ b) ≠ size_limit_ t) →
  is_Some (Insert 1 key value t).
Proof.
  intros [Hd Hlen Hsl] Hroom. simpl.
  pose proof (GetBucketIndex_range (HashKey key) t Hd) as Hr.
  destruct (lookup_lt_is_Some_2 (bucket_directory_ t)
              (Z.to_nat (GetBucketIndex (HashKey key) t))) as [a Ha]; [lia|].
  unfold GetBucket at 1. rewrite Ha. simpl.
  destruct (Hsl _ _ Ha) as (b & Hb & _). rewrite Hb. simpl.
  rewrite decide_False; [done|]. by eapply Hroom.
Qed.

Lemma Remove_spec key t :
  table_wf t →
  ∃ r t', Remove key t = Some (r, t') ∧
    table_wf t' ∧
    (r = true ↔ ∃ v, Find key t = Some (Some v)) ∧
    Find key t' = Some None ∧
    (∀ key', key' ≠ key → Find key' t' = Find key' t) ∧
    global_depth_ t' = global_depth_ t ∧
    bucket_directory_ t' = bucket_directory_ t ∧
    length (heap_ t') = length (heap_ t) ∧
    (∀ a, local_depth_ <$> heap_ t' !! a = local_depth_ <$> heap_ t !! a).
Proof.
  intros Hwf. pose proof Hwf as [Hd Hlen Hsl].
  pose proof (GetBucketIndex_range (HashKey key) t Hd) as Hr.
  destruct (lookup_lt_is_Some_2 (bucket_directory_ t)
              (Z.to_nat (GetBucketIndex (HashKey key) t))) as [a Ha]; [lia|].
  destruct (Hsl _ _ Ha) as (b & Hb & _).
  assert (Hlt : (a < length (heap_ t))%nat) by (by eapply lookup_lt_Some).
  unfold Remove, Find, GetBucket. rewrite Ha. simpl. rewrite Hb. simpl.
  destruct (bmap_ b !! key) as [v|] eqn:Hv.
  - eexists _, _. split; [reflexivity|].
    split. { apply store_wf; [done|]. intros b0 Hb0. simpl. congruence. }
    split. { split; [by exists v|done]. }
    simpl.
    change (GetBucketIndex (HashKey key) _) with (GetBucketIndex (HashKey key) t).
    rewrite Ha. simpl. rewrite list_lookup_insert_eq by done. simpl.
    rewrite lookup_delete_eq. split; [done|].
    split.
    { intros key' Hne.
      change (GetBucketIndex (HashKey key') _) with (GetBucketIndex (HashKey key') t).
      destruct (bucket_directory_ t !! Z.to_nat (GetBucketIndex (HashKey key') t))
        as [a'|]; simpl; [|done].
      destruct (decide (a = a')) as [<-|Hna].
      - rewrite list_lookup_insert_eq by done. rewrite Hb. simpl.
        by rewrite lookup_delete_ne.
      - by rewrite list_lookup_insert_ne. }
    split; [done|]. split; [done|]. split; [by rewrite length_insert|].
    intros a'. destruct (decide (a = a')) as [<-|Hna].
    + rewrite list_lookup_insert_eq by done. by rewrite Hb.
    + by rewrite list_lookup_insert_ne.
  - eexists _, _. split; [reflexivity|]. split; [done|].
    split. { split; [done|]. intros [v [= ]]. }
    rewrite Ha. simpl. rewrite Hb. simpl. rewrite Hv. done.
Qed.

(** After a split the slot of [key] points to one of the two halves of the
    bucket it pointed to. *)
Lemma split_bucket_target a b t key :
  table_wf t → GetBucket key t = Some a → heap_ t !! a = Some b →
  ∃ a' b', GetBucket key (split_bucket a b t) = Some a' ∧
           heap_ (split_bucket a b t) !! a' = Some b' ∧
           ∃ keep : K * V → bool,
             bmap_ b' = filter (λ item, keep item = true) (bmap_ b).
Proof.
  intros [Hd Hlen Hsl] Hslot Ha. unfold GetBucket in *.
  change (GetBucketIndex (HashKey key) (split_bucket a b t))
    with (GetBucketIndex (HashKey key) t).
  simpl. rewrite list_lookup_imap, Hslot. simpl.
  rewrite decide_True by done. case_decide.
  - eexists _, _. split; [reflexivity|]. split.
    { rewrite lookup_app_r by lia.
      replace (S (length (heap_ t)) - length (heap_ t))%nat with 1%nat by lia.
      reflexivity. }
    exists (λ item, bool_decide
              (Z.land (Z.shiftl 1 (local_depth_ b)) (HashKey item.1) ≠ 0)).
    simpl. apply map_filter_ext. intros i x _. by rewrite bool_decide_eq_true.
  - eexists _, _. split; [reflexivity|]. split.
    { rewrite lookup_app_r by lia. rewrite Nat.sub_diag. reflexivity. }
    exists (λ item, bool_decide
              (Z.land (Z.shiftl 1 (local_depth_ b)) (HashKey item.1) = 0)).
    simpl. apply map_filter_ext. intros i x _. by rewrite bool_decide_eq_true.
Qed.

(** [Insert] need not return: with buckets of capacity 1, overwriting the
    value of a key that sits in its bucket splits that bucket for ever,
    since the half that receives the key is full again. *)
Lemma Insert_overwrite_capacity_one fuel key value t :
  table_wf t → size_limit_ t = 1%nat →
  (∃ a b v, GetBucket key t = Some a ∧ heap_ t !! a = Some b ∧
            bmap_ b = {[ key := v ]}) →
  Insert fuel key value t = None.
Proof.
  revert t. induction fuel as [|fuel IH]; intros t Hwf Hlim; [done|].
  intros (a & b & v & Hslot & Ha & Hb). simpl.
  rewrite Hslot. simpl. rewrite Ha. simpl.
  rewrite decide_True by (by rewrite Hb, map_size_singleton).
  pose proof Hslot as Hslot'. unfold GetBucket in Hslot'.
  destruct (loop_body_preserves a b t key Hwf Hslot' Ha) as (Hwf1 & Hlim1 & Hfind1).
  apply IH; [done|congruence|].
  assert (Hb0 : 0 ≤ local_depth_ b ≤ global_depth_ t).
  { destruct Hwf as [_ _ Hsl]. apply Hsl in Hslot' as (b' & Hb' & ?). congruence. }
  destruct (grow_directory_wf b t Hwf Hb0) as (Hwfg & _ & Hheap & _).
  destruct (split_bucket_target a b (grow_directory b t) key Hwfg)
    as (a' & b' & Hslot1 & Ha1 & keep & Hkeep).
  { by rewrite grow_directory_GetBucket. }
  { by rewrite Hheap. }
  exists a', b', v. split; [done|]. split; [done|].
  specialize (Hfind1 key). unfold Find in Hfind1.
  rewrite Hslot1, Hslot in Hfind1. simpl in Hfind1, Ha1.
  rewrite Ha1, Ha in Hfind1. simpl in Hfind1.
  injection Hfind1 as Hk. rewrite Hb, lookup_singleton_eq in Hk.
  rewrite Hkeep, Hb in Hk |- *.
  rewrite map_filter_singleton in Hk |- *.
  case_decide; [done|]. by rewrite lookup_empty in Hk.
Qed.

(** C8.  In every well-formed table, once [Insert key value] has returned,
    [Find key] yields [value] (whatever was stored under [key] before), and
    [Find] of every other key yields what it yielded before the call,
    however many bucket splits and directory doublings the call went
    through. *)
Theorem Insert_then_Find fuel key value t t' :
  table_wf t → Insert fuel key value t = Some t' →
  Find key t' = Some (Some value) ∧
  ∀ key', key' ≠ key → Find key' t' = Find key' t.
Proof.
  intros Hwf Hins.
  destruct (Insert_spec fuel key value t t' Hwf Hins) as (_ & _ & Hk & Ho).
  by split.
Qed.

(** C9.  In every well-formed table [Remove key] returns, and it returns
    true exactly when [key] is present; afterwards [Find key] fails and
    [Find] of every other key is unchanged; the global depth, the
    directory, the number of buckets and every local depth are as before. *)
Theorem Remove_then_Find key t :
  table_wf t →
  ∃ r t', Remove key t = Some (r, t') ∧
    (r = true ↔ ∃ v, Find key t = Some (Some v)) ∧
    Find key t' = Some None ∧
    (∀ key', key' ≠ key → Find key' t' = Find key' t) ∧
    global_depth_ t' = global_depth_ t ∧
    bucket_directory_ t' = bucket_directory_ t ∧
    length (heap_ t') = length (heap_ t) ∧
    (∀ a, local_depth_ <$> heap_ t' !! a = local_depth_ <$> heap_ t !! a).
Proof.
  intros Hwf.
  destruct (Remove_spec key t Hwf) as (r & t' & Hr & _ & Hrest).
  by exists r, t'.
Qed.

(** *** Depths and bucket sizes *)

(** The two halves a bucket is split into. *)
Definition lower_half (b : Bucket) : Bucket :=
  mkBucket (local_depth_ b + 1)
    (filter (λ item, Z.land (Z.shiftl 1 (local_depth_ b)) (HashKey item.1) = 0)
            (bmap_ b)).
Definition upper_half (b : Bucket) : Bucket :=
  mkBucket (local_depth_ b + 1)
    (filter (λ item, Z.land (Z.shiftl 1 (local_depth_ b)) (HashKey item.1) ≠ 0)
            (bmap_ b)).

(** No bucket reachable from the directory holds more entries than
    [size_limit_]. *)
Definition within_capacity (t : ExtendibleHash) : Prop :=
  ∀ i a b, bucket_directory_ t !! i = Some a → heap_ t !! a = Some b →
           (size (bmap_ b) ≤ size_limit_ t)%nat.

Lemma grow_directory_slot b t i p :
  bucket_directory_ (grow_directory b t) !! i = Some p →
  ∃ i0, bucket_directory_ t !! i0 = Some p ∧
        (i = i0 ∨ (local_depth_ b = global_depth_ t ∧
                   i = (i0 + length (bucket_directory_ t))%nat)).
Proof.
  unfold grow_directory. case_decide; simpl.
  - intros Hi. apply lookup_app_Some in Hi as [Hi|[Hge Hi]].
    + exists i. by split; [|left].
    + eexists. split; [exact Hi|]. right. split; [done|lia].
  - intros Hi. exists i. by split; [|left].
Qed.

Lemma split_bucket_slot a b t i p bp :
  table_wf t →
  bucket_directory_ (split_bucket a b t) !! i = Some p →
  heap_ (split_bucket a b t) !! p = Some bp →
  (bucket_directory_ t !! i = Some p ∧ p ≠ a ∧ heap_ t !! p = Some bp) ∨
  (bucket_directory_ t !! i = Some a ∧
   Z.land (Z.shiftl 1 (local_depth_ b)) (Z.of_nat i) ≠ 0 ∧
   p = S (length (heap_ t)) ∧ bp = upper_half b) ∨
  (bucket_directory_ t !! i = Some a ∧
   Z.land (Z.shiftl 1 (local_depth_ b)) (Z.of_nat i) = 0 ∧
   p = length (heap_ t) ∧ bp = lower_half b).
Proof.
  intros [Hd Hlen Hsl]. simpl. rewrite list_lookup_imap.
  destruct (bucket_directory_ t !! i) as [q|] eqn:Hq; simpl; [|done].
  case_decide as Hqa.
  - subst q. case_decide as Hbit; intros [= <-].
    + rewrite lookup_app_r by lia.
      replace (S (length (heap_ t)) - length (heap_ t))%nat with 1%nat by lia.
      simpl. intros [= <-]. right. left. done.
    + rewrite lookup_app_r by lia. rewrite Nat.sub_diag. simpl.
      intros [= <-]. right. right. done.
  - intros [= <-]. destruct (Hsl _ _ Hq) as (bq & Hbq & _).
    rewrite (lookup_app_l_Some _ _ _ _ Hbq). intros [= <-]. by left.
Qed.

Lemma loop_body_capacity a b t :
  table_wf t → within_capacity t → heap_ t !! a = Some b →
  (∃ i, bucket_directory_ t !! i = Some a) →
  0 ≤ local_depth_ b ≤ global_depth_ t →
  within_capacity (split_bucket a b (grow_directory b t)).
Proof.
  intros Hwf Hcap Ha [ia Hia] Hb i p bp Hp Hbp.
  destruct (grow_directory_wf b t Hwf Hb) as (Hwfg & _ & Hheap & Hlim).
  assert (Hsize : (size (bmap_ b) ≤ size_limit_ t)%nat) by (by eapply Hcap).
  change (size_limit_ (split_bucket a b (grow_directory b t)))
    with (size_limit_ (grow_directory b t)). rewrite Hlim.
  destruct (split_bucket_slot _ _ _ _ _ _ Hwfg Hp Hbp)
    as [(Hq & _ & Hbq)|[(_ & _ & _ & ->)|(_ & _ & _ & ->)]].
  - apply grow_directory_slot in Hq as (i0 & Hi0 & _).
    rewrite Hheap in Hbq. by eapply Hcap.
  - etrans; [apply map_size_filter|done].
  - etrans; [apply map_size_filter|done].
Qed.

Lemma Insert_keeps_shape fuel key value t t' :
  table_wf t → within_capacity t → Insert fuel key value t = Some t' →
  within_capacity t' ∧ global_depth_ t ≤ global_depth_ t'.
Proof.
  revert t. induction fuel as [|fuel IH]; intros t Hwf Hcap; simpl; [done|].
  unfold GetBucket at 1.
  destruct (bucket_directory_ t !! Z.to_nat (GetBucketIndex (HashKey key) t))
    as [a|] eqn:Hslot; simpl; [|done].
  destruct (heap_ t !! a) as [b|] eqn:Ha; simpl; [|done].
  case_decide as Hfull.
  - intros Hrec.
    assert (Hb : 0 ≤ local_depth_ b ≤ global_depth_ t).
    { destruct Hwf as [_ _ Hsl]. apply Hsl in Hslot as (b' & Hb' & ?). congruence. }
    destruct (loop_body_preserves a b t key Hwf Hslot Ha) as (Hwf1 & _ & _).
    destruct (IH _ Hwf1 (loop_body_capacity a b t Hwf Hcap Ha
                           (ex_intro _ _ Hslot) Hb) Hrec) as [Hcap' Hmono].
    split; [done|]. etrans; [|exact Hmono].
    change (global_depth_ (split_bucket a b (grow_directory b t)))
      with (global_depth_ (grow_directory b t)).
    unfold grow_directory. case_decide; simpl; lia.
  - intros [= <-]. split; [|simpl; lia].
    intros i p bp. simpl. intros Hp Hbp.
    destruct (decide (a = p)) as [<-|Hne].
    + rewrite list_lookup_insert_eq in Hbp by (by eapply lookup_lt_Some).
      injection Hbp as <-. simpl. rewrite map_size_insert.
      pose proof (Hcap _ _ _ Hslot Ha).
      destruct (bmap_ b !! key); simpl; lia.
    + rewrite list_lookup_insert_ne in Hbp by done. by eapply Hcap.
Qed.

(** After [Insert] has returned on a well-formed table, the directory has
    [2^GetGlobalDepth] slots, the global depth has not decreased, every slot
    has a local depth between 0 and the global depth, and no bucket holds
    more than [size_limit_] entries (if none did before). *)
Theorem Insert_keeps_depths_and_capacity fuel key value t t' :
  table_wf t → within_capacity t → Insert fuel key value t = Some t' →
  GetNumBuckets t' = 2 ^ GetGlobalDepth t' ∧
  GetGlobalDepth t ≤ GetGlobalDepth t' ∧
  (∀ i, Z.of_nat i < GetNumBuckets t' →
        ∃ d, GetLocalDepth i t' = Some d ∧ 0 ≤ d ≤ GetGlobalDepth t') ∧
  within_capacity t'.
Proof.
  intros Hwf Hcap Hins.
  destruct (Insert_spec fuel key value t t' Hwf Hins) as ([Hd Hlen Hsl] & _).
  destruct (Insert_keeps_shape fuel key value t t' Hwf Hcap Hins) as [Hcap' Hmono].
  unfold GetNumBuckets, GetGlobalDepth, GetLocalDepth.
  split; [done|]. split; [done|]. split; [|done].
  intros i Hi.
  destruct (lookup_lt_is_Some_2 (bucket_directory_ t') i) as [a Ha]; [lia|].
  destruct (Hsl _ _ Ha) as (b & Hb & Hdepth).
  exists (local_depth_ b). rewrite Ha. simpl. rewrite Hb. done.
Qed.

Lemma new_table_within_capacity (size : nat) : within_capacity (new_table size).
Proof.
  intros [|i] a b; simpl; [|done]. intros [= <-] [= <-]. simpl.
  rewrite map_size_empty. lia.
Qed.

(** [Insert] does not return when the target bucket is full and all its keys
    have the hash value of the new key: every split keeps them together.
    This covers a table with [size_limit_] 0 and the overwriting of a key in
    a bucket of capacity 1. *)
Theorem Insert_diverges_on_colliding_keys fuel key value t a b :
  table_wf t →
  GetBucket key t = Some a → heap_ t !! a = Some b →
  size (bmap_ b) = size_limit_ t →
  (∀ k, is_Some (bmap_ b !! k) → HashKey k = HashKey key) →
  Insert fuel key value t = None.
Proof.
  revert t a b. induction fuel as [|fuel IH]; intros t a b Hwf Hslot Ha Hfull Hcoll;
    [done|].
  simpl. rewrite Hslot. simpl. rewrite Ha. simpl. rewrite decide_True by done.
  pose proof Hslot as Hslot'. unfold GetBucket in Hslot'.
  destruct (loop_body_preserves a b t key Hwf Hslot' Ha) as (Hwf1 & Hlim1 & Hfind1).
  assert (Hb0 : 0 ≤ local_depth_ b ≤ global_depth_ t).
  { destruct Hwf as [_ _ Hsl]. apply Hsl in Hslot' as (b' & Hb' & ?). congruence. }
  destruct (grow_directory_wf b t Hwf Hb0) as (Hwfg & _ & Hheap & _).
  destruct (split_bucket_target a b (grow_directory b t) key Hwfg)
    as (a' & b' & Hslot1 & Ha1 & keep & Hkeep).
  { by rewrite grow_directory_GetBucket. }
  { by rewrite Hheap. }
  assert (Hsame : bmap_ b' = bmap_ b).
  { apply map_eq. intros k.
    destruct (bmap_ b !! k) as [v|] eqn:Hk.
    - assert (Hh : HashKey k = HashKey key) by (apply Hcoll; eauto).
      specialize (Hfind1 k). unfold Find, GetBucket in Hfind1.
      unfold GetBucket in Hslot1, Hslot. rewrite Hh in Hfind1.
      rewrite Hslot1, Hslot in Hfind1. simpl in Hfind1, Ha1.
      rewrite Ha1, Ha in Hfind1. simpl in Hfind1. congruence.
    - rewrite Hkeep. apply map_lookup_filter_None. left. done. }
  eapply IH; [done|exact Hslot1|exact Ha1|congruence|].
  intros k. rewrite Hsame. apply Hcoll.
Qed.

(** *** Placement of slots and keys *)

(** The slots that point to a bucket are those that agree on the low
    [local_depth_] bits, and the keys of a bucket hash to these bits. *)
Record table_placed (t : ExtendibleHash) : Prop := {
  placed_slots : ∀ i j a b,
    bucket_directory_ t !! i = Some a → heap_ t !! a = Some b →
    (j < length (bucket_directory_ t))%nat →
    (bucket_directory_ t !! j = Some a ↔
     Z.of_nat j mod 2 ^ local_depth_ b = Z.of_nat i mod 2 ^ local_depth_ b);
  placed_keys : ∀ i a b k,
    bucket_directory_ t !! i = Some a → heap_ t !! a = Some b →
    is_Some (bmap_ b !! k) →
    HashKey k mod 2 ^ local_depth_ b = Z.of_nat i mod 2 ^ local_depth_ b
}.

Lemma pow2_mod_add (x d g : Z) :
  0 ≤ d ≤ g → (x + 2 ^ g) mod 2 ^ d = x mod 2 ^ d.
Proof.
  intros Hd. replace g with ((g - d) + d) by lia.
  rewrite Z.pow_add_r by lia. apply Z_mod_plus_full.
Qed.

Lemma mod_mod_pow2 (x d g : Z) :
  0 ≤ d ≤ g → (x mod 2 ^ g) mod 2 ^ d = x mod 2 ^ d.
Proof.
  intros Hd. apply Z.mod_mod_divide.
  exists (2 ^ (g - d)). rewrite <- Z.pow_add_r by lia. f_equal. lia.
Qed.

Lemma mod_pow2_succ_iff (x y d : Z) :
  0 ≤ d →
  (x mod 2 ^ (d + 1) = y mod 2 ^ (d + 1) ↔
   x mod 2 ^ d = y mod 2 ^ d ∧ Z.testbit x d = Z.testbit y d).
Proof.
  intros Hd. assert (0 < 2 ^ d) by (by apply Z.pow_pos_nonneg).
  rewrite Z.pow_add_r, Z.pow_1_r by lia.
  rewrite !Z.rem_mul_r by lia.
  pose proof (Z.testbit_spec' x d Hd) as Hx.
  pose proof (Z.testbit_spec' y d Hd) as Hy.
  pose proof (Z.mod_pos_bound x (2 ^ d) ltac:(done)).
  pose proof (Z.mod_pos_bound y (2 ^ d) ltac:(done)).
  rewrite <- Hx, <- Hy.
  destruct (Z.testbit x d), (Z.testbit y d); simpl; split;
    try (intros [? ?]); try split; try done; try nia.
Qed.

Lemma new_table_placed (size : nat) : table_placed (new_table size).
Proof.
  split; simpl.
  - intros [|i] [|j] a b; simpl; try done; try lia.
  - intros [|i] a b k; simpl; [|done]. intros [= <-] [= <-]. simpl.
    by rewrite lookup_empty; intros [? ?].
Qed.

Lemma grow_directory_placed b t :
  table_wf t → table_placed t → 0 ≤ local_depth_ b ≤ global_depth_ t →
  table_placed (grow_directory b t).
Proof.
  intros Hwf [Hps Hpk] Hb. pose proof Hwf as [Hd Hlen Hsl].
  unfold grow_directory. case_decide as Heq; [|by split].
  set (n := length (bucket_directory_ t)) in *.
  assert (Hshift : ∀ i0 d, 0 ≤ d ≤ global_depth_ t →
            Z.of_nat (i0 + n) mod 2 ^ d = Z.of_nat i0 mod 2 ^ d).
  { intros i0 d Hdd. rewrite Nat2Z.inj_add, Hlen. by apply pow2_mod_add. }
  assert (Hlook : ∀ i p, (bucket_directory_ t ++ bucket_directory_ t) !! i = Some p →
            ∃ i0, bucket_directory_ t !! i0 = Some p ∧ (i = i0 ∨ i = (i0 + n)%nat)).
  { intros i p Hi. apply lookup_app_Some in Hi as [Hi|[Hge Hi]].
    - exists i. by split; [|left].
    - eexists. split; [exact Hi|]. right. fold n in Hge. lia. }
  assert (Hmod : ∀ i p bp, (bucket_directory_ t ++ bucket_directory_ t) !! i = Some p →
            heap_ t !! p = Some bp →
            ∃ i0, bucket_directory_ t !! i0 = Some p ∧
                  Z.of_nat i mod 2 ^ local_depth_ bp
                  = Z.of_nat i0 mod 2 ^ local_depth_ bp).
  { intros i p bp Hi Hbp. destruct (Hlook i p Hi) as (i0 & Hi0 & [->| ->]).
    - by exists i0.
    - exists i0. split; [done|]. apply Hshift.
      destruct (Hsl _ _ Hi0) as (b' & Hb' & ?). congruence. }
  split; simpl.
  - intros i j a ba Hi Hba Hj.
    destruct (Hmod i a ba Hi Hba) as (i0 & Hi0 & ->).
    rewrite length_app in Hj. fold n in Hj.
    destruct (decide (j < n)%nat) as [Hjn|Hjn].
    + rewrite lookup_app_l by done. by apply Hps.
    + rewrite lookup_app_r by (fold n; lia). fold n.
      replace (Z.of_nat j) with (Z.of_nat ((j - n) + n)) by lia.
      rewrite Hshift by (destruct (Hsl _ _ Hi0) as (b' & Hb' & ?);
                         assert (b' = ba) by congruence; subst; lia).
      apply Hps; [done|done|fold n; lia].
  - intros i a ba k Hi Hba Hk.
    destruct (Hmod i a ba Hi Hba) as (i0 & Hi0 & ->). by eapply Hpk.
Qed.

Lemma split_bucket_lookup a b t j :
  bucket_directory_ (split_bucket a b t) !! j
  = (λ q, if decide (q = a)
          then (if decide (Z.land (Z.shiftl 1 (local_depth_ b)) (Z.of_nat j) ≠ 0)
                then S (length (heap_ t)) else length (heap_ t))
          else q) <$> bucket_directory_ t !! j.
Proof. simpl. by rewrite list_lookup_imap. Qed.

Lemma split_bucket_placed a b t :
  table_wf t → table_placed t → heap_ t !! a = Some b →
  0 ≤ local_depth_ b < global_depth_ t →
  table_placed (split_bucket a b t).
Proof.
  intros Hwf [Hps Hpk] Ha Hb. pose proof Hwf as [Hd Hlen Hsl].
  assert (Hfresh : ∀ q bq, heap_ t !! q = Some bq →
            q ≠ length (heap_ t) ∧ q ≠ S (length (heap_ t))).
  { intros q bq Hq. apply lookup_lt_Some in Hq. lia. }
  assert (Hbitj : ∀ i j, Z.land (Z.shiftl 1 (local_depth_ b)) (Z.of_nat i) ≠ 0 →
            (Z.land (Z.shiftl 1 (local_depth_ b)) (Z.of_nat j) ≠ 0 ↔
             Z.testbit (Z.of_nat j) (local_depth_ b)
             = Z.testbit (Z.of_nat i) (local_depth_ b))).
  { intros i j Hi. rewrite land_single_bit in Hi |- * by lia. by rewrite Hi. }
  assert (Hbitj0 : ∀ i j, Z.land (Z.shiftl 1 (local_depth_ b)) (Z.of_nat i) = 0 →
            (Z.land (Z.shiftl 1 (local_depth_ b)) (Z.of_nat j) = 0 ↔
             Z.testbit (Z.of_nat j) (local_depth_ b)
             = Z.testbit (Z.of_nat i) (local_depth_ b))).
  { intros i j Hi.
    assert (Z.testbit (Z.of_nat i) (local_depth_ b) = false) as ->.
    { destruct (Z.testbit (Z.of_nat i) (local_depth_ b)) eqn:Hbit; [|done].
      apply land_single_bit in Hbit; [done|lia]. }
    destruct (Z.testbit (Z.of_nat j) (local_depth_ b)) eqn:Hbit.
    - apply land_single_bit in Hbit; [|lia]. split; done.
    - split; [done|]. intros _.
      destruct (decide (Z.land (Z.shiftl 1 (local_depth_ b)) (Z.of_nat j) = 0))
        as [|Hne]; [done|]. apply land_single_bit in Hne; [congruence|lia]. }
  split.
  - intros i j p bp Hi Hbp Hj.
    assert (Hj' : (j < length (bucket_directory_ t))%nat)
      by (simpl in Hj; by rewrite length_imap in Hj).
    destruct (lookup_lt_is_Some_2 _ _ Hj') as [q Hq].
    rewrite split_bucket_lookup, Hq. simpl.
    destruct (split_bucket_slot _ _ _ _ _ _ Hwf Hi Hbp)
      as [(Hip & Hne & Hbp0)|[(Hia & Hbit & -> & ->)|(Hia & Hbit & -> & ->)]].
    + rewrite <- (Hps i j p bp Hip Hbp0 Hj'), Hq.
      destruct (Hfresh _ _ Hbp0). split.
      * case_decide; [case_decide; intros [= Heq]; lia|done].
      * intros [= ->]. by rewrite decide_False.
    + simpl. rewrite mod_pow2_succ_iff by lia.
      rewrite <- (Hps i j a b Hia Ha Hj'), Hq, <- (Hbitj i j Hbit).
      destruct (Hsl _ _ Hq) as (bq & Hbq & _). destruct (Hfresh _ _ Hbq).
      split.
      * case_decide as Hqa; [|intros [= Heq]; lia].
        case_decide; [|intros [= Heq]; lia]. subst q. done.
      * intros [[= ->] Hbj]. rewrite decide_True by done. by rewrite decide_True.
    + simpl. rewrite mod_pow2_succ_iff by lia.
      rewrite <- (Hps i j a b Hia Ha Hj'), Hq, <- (Hbitj0 i j Hbit).
      destruct (Hsl _ _ Hq) as (bq & Hbq & _). destruct (Hfresh _ _ Hbq).
      split.
      * case_decide as Hqa; [|intros [= Heq]; lia].
        case_decide as Hbj; [intros [= Heq]; lia|]. subst q. intros _.
        split; [done|].
        by destruct (decide (Z.land (Z.shiftl 1 (local_depth_ b)) (Z.of_nat j) = 0)).
      * intros [[= ->] Hbj]. rewrite decide_True by done.
        rewrite decide_False; [done|]. intros Hne. done.
  - intros i p bp k Hi Hbp Hk.
    destruct (split_bucket_slot _ _ _ _ _ _ Hwf Hi Hbp)
      as [(Hip & Hne & Hbp0)|[(Hia & Hbit & -> & ->)|(Hia & Hbit & -> & ->)]].
    + by eapply Hpk.
    + simpl in *. destruct Hk as [x Hx].
      apply map_lookup_filter_Some in Hx as [Hx Hkbit]. simpl in Hkbit.
      rewrite mod_pow2_succ_iff by lia. split; [by eapply Hpk|].
      rewrite land_single_bit in Hbit, Hkbit by lia. congruence.
    + simpl in *. destruct Hk as [x Hx].
      apply map_lookup_filter_Some in Hx as [Hx Hkbit]. simpl in Hkbit.
      rewrite mod_pow2_succ_iff by lia. split; [by eapply Hpk|].
      destruct (Z.testbit (HashKey k) (local_depth_ b)) eqn:Hkb.
      { apply land_single_bit in Hkb; [done|lia]. }
      destruct (Z.testbit (Z.of_nat i) (local_depth_ b)) eqn:Hib; [|done].
      apply land_single_bit in Hib; [done|lia].
Qed.

Lemma store_placed a b b' t :
  table_placed t → heap_ t !! a = Some b →
  local_depth_ b' = local_depth_ b →
  (∀ i k, bucket_directory_ t !! i = Some a → is_Some (bmap_ b' !! k) →
          HashKey k mod 2 ^ local_depth_ b = Z.of_nat i mod 2 ^ local_depth_ b) →
  table_placed {| global_depth_ := global_depth_ t;
                  size_limit_ := size_limit_ t;
                  bucket_directory_ := bucket_directory_ t;
                  heap_ := <[a := b']> (heap_ t) |}.
Proof.
  intros [Hps Hpk] Ha Hld Hkeys.
  assert (Hlt : (a < length (heap_ t))%nat) by (by eapply lookup_lt_Some).
  split; simpl.
  - intros i j p bp Hi Hbp Hj. destruct (decide (a = p)) as [<-|Hne].
    + rewrite list_lookup_insert_eq in Hbp by done. injection Hbp as <-.
      rewrite Hld. by apply Hps.
    + rewrite list_lookup_insert_ne in Hbp by done. by apply Hps.
  - intros i p bp k Hi Hbp Hk. destruct (decide (a = p)) as [<-|Hne].
    + rewrite list_lookup_insert_eq in Hbp by done. injection Hbp as <-.
      rewrite Hld. by apply Hkeys.
    + rewrite list_lookup_insert_ne in Hbp by done. by eapply Hpk.
Qed.

(** The placement of slots and keys is an invariant of [Insert]. *)
Lemma Insert_placed fuel key value t t' :
  table_wf t → table_placed t → Insert fuel key value t = Some t' →
  table_placed t'.
Proof.
  revert t. induction fuel as [|fuel IH]; intros t Hwf Hpl; simpl; [done|].
  unfold GetBucket at 1.
  destruct (bucket_directory_ t !! Z.to_nat (GetBucketIndex (HashKey key) t))
    as [a|] eqn:Hslot; simpl; [|done].
  destruct (heap_ t !! a) as [b|] eqn:Ha; simpl; [|done].
  assert (Hb : 0 ≤ local_depth_ b ≤ global_depth_ t).
  { destruct Hwf as [_ _ Hsl]. apply Hsl in Hslot as (b' & Hb' & ?). congruence. }
  case_decide as Hfull.
  - intros Hrec.
    destruct (loop_body_preserves a b t key Hwf Hslot Ha) as (Hwf1 & _ & _).
    destruct (grow_directory_wf b t Hwf Hb) as (Hwfg & Hlt & Hheap & _).
    apply (IH _ Hwf1); [|done].
    apply split_bucket_placed; [done| |by rewrite Hheap|lia].
    by apply grow_directory_placed.
  - intros [= <-]. apply (store_placed a b); [done|done|done|].
    intros i k Hi Hk. simpl in Hk.
    destruct (decide (key = k)) as [<-|Hne].
    + destruct Hpl as [Hps _]. destruct Hwf as [Hd Hlen Hsl].
      pose proof (GetBucketIndex_range (HashKey key) t Hd) as Hr.
      assert (Hidx : (Z.to_nat (GetBucketIndex (HashKey key) t)
                      < length (bucket_directory_ t))%nat) by lia.
      apply (Hps i _ a b Hi Ha Hidx) in Hslot. rewrite <- Hslot.
      rewrite Z2Nat.id by lia. rewrite GetBucketIndex_mod by done.
      symmetry. by apply mod_mod_pow2.
    + rewrite lookup_insert_ne in Hk by done.
      destruct Hpl as [_ Hpk]. by eapply Hpk.
Qed.

(** Every directory slot points to the bucket that matches its low
    [local_depth_] bits, and the table loses no key: once [Insert] has
    returned on a table with this placement, the placement holds again and
    [Find] returns every entry that is stored in a bucket of the directory. *)
Theorem Insert_keeps_placement fuel key value t t' :
  table_wf t → table_placed t → Insert fuel key value t = Some t' →
  table_placed t' ∧
  ∀ i a b k v,
    bucket_directory_ t' !! i = Some a → heap_ t' !! a = Some b →
    bmap_ b !! k = Some v → Find k t' = Some (Some v).
Proof.
  intros Hwf Hpl Hins.
  pose proof (Insert_placed _ _ _ _ _ Hwf Hpl Hins) as Hpl'.
  destruct (Insert_spec _ _ _ _ _ Hwf Hins) as (Hwf' & _).
  split; [done|]. intros i a b k v Hi Ha Hk.
  destruct Hpl' as [Hps Hpk]. destruct Hwf' as [Hd Hlen Hsl].
  pose proof (GetBucketIndex_range (HashKey k) t' Hd) as Hr.
  assert (Hidx : (Z.to_nat (GetBucketIndex (HashKey k) t')
                  < length (bucket_directory_ t'))%nat) by lia.
  assert (Hslot : bucket_directory_ t' !! Z.to_nat (GetBucketIndex (HashKey k) t')
                  = Some a).
  { apply (Hps i _ a b Hi Ha Hidx).
    rewrite Z2Nat.id by lia. rewrite GetBucketIndex_mod by done.
    destruct (Hsl _ _ Hi) as (b' & Hb' & ?). assert (b' = b) by congruence. subst b'.
    rewrite mod_mod_pow2 by lia. eapply Hpk; eauto. }
  unfold Find, GetBucket. rewrite Hslot. simpl. rewrite Ha. simpl. by rewrite Hk.
Qed.

End Table.

(** *** A table over integer keys hashed by themselves *)

(** One full bucket of capacity 1 holding key 0. *)
Definition full_table : ExtendibleHash (K := Z) (V := Z) :=
  {| global_depth_ := 0;
     size_limit_ := 1;
     bucket_directory_ := [0%nat];
     heap_ := [mkBucket 0 {[ 0 := 10 ]}] |}.

(** The same table after [Insert 1 11]: the directory has doubled and the
    bucket was split on bit 0. *)
Definition split_table : ExtendibleHash (K := Z) (V := Z) :=
  {| global_depth_ := 1;
     size_limit_ := 1;
     bucket_directory_ := [1%nat; 2%nat];
     heap_ := [mkBucket 0 {[ 0 := 10 ]};
               mkBucket 1 {[ 0 := 10 ]};
               mkBucket 1 {[ 1 := 11 ]}] |}.

Lemma full_table_wf : table_wf full_table.
Proof.
  split; simpl; [lia|done|].
  intros [|i] a; simpl; [|done]. intros [= <-].
  eexists. split; [reflexivity|]. simpl. lia.
Qed.

Example Insert_splits_and_doubles :
  Insert (λ k, k) 2 1 11 full_table = Some split_table.
Proof. vm_compute. reflexivity. Qed.

Example Insert_overwrite_never_returns fuel :
  Insert (λ k, k) fuel 0 11 full_table = None.
Proof.
  apply Insert_overwrite_capacity_one; [apply full_table_wf|done|].
  by exists 0%nat, (mkBucket 0 {[ 0 := 10 ]}), 10.
Qed.

Lemma Insert_then_Find_witness :
  Find (λ k, k) 1 split_table = Some (Some 11) ∧
  ∀ key', key' ≠ 1 →
    Find (λ k, k) key' split_table = Find (λ k, k) key' full_table.
Proof.
  apply (Insert_then_Find (λ k, k) 2 1 11 full_table split_table).
  - apply full_table_wf.
  - vm_compute. reflexivity.
Defined.

Lemma Remove_then_Find_witness :
  ∃ r t', Remove (λ k, k) 0 full_table = Some (r, t') ∧
    (r = true ↔ ∃ v, Find (λ k, k) 0 full_table = Some (Some v)) ∧
    Find (λ k, k) 0 t' = Some None ∧
    (∀ key', key' ≠ 0 → Find (λ k, k) key' t' = Find (λ k, k) key' full_table) ∧
    global_depth_ t' = global_depth_ full_table ∧
    bucket_directory_ t' = bucket_directory_ full_table ∧
    length (heap_ t') = length (heap_ full_table) ∧
    (∀ a, local_depth_ <$> heap_ t' !! a = local_depth_ <$> heap_ full_table !! a).
Proof.
  apply (Remove_then_Find (λ k, k) 0 full_table).
  apply full_table_wf.
Defined.

Lemma full_table_within_capacity :
  within_capacity full_table.
Proof.
  intros [|i] a b; simpl; [|done]. intros [= <-] [= <-]. simpl.
  by rewrite map_size_singleton.
Qed.

Lemma full_table_placed : table_placed (λ k, k) full_table.
Proof.
  split; simpl.
  - intros [|i] [|j] a b; simpl; try done; try lia.
  - intros [|i] a b k; simpl; [|done]. intros [= <-] [= <-] _. simpl.
    by rewrite !Z.mod_1_r.
Qed.

Lemma Insert_keeps_depths_and_capacity_witness :
  GetNumBuckets split_table = 2 ^ GetGlobalDepth split_table ∧
  GetGlobalDepth full_table ≤ GetGlobalDepth split_table ∧
  (∀ i, Z.of_nat i < GetNumBuckets split_table →
        ∃ d, GetLocalDepth i split_table = Some d ∧
             0 ≤ d ≤ GetGlobalDepth split_table) ∧
  within_capacity split_table.
Proof.
  apply (Insert_keeps_depths_and_capacity (λ k, k) 2 1 11 full_table split_table).
  - apply full_table_wf.
  - apply full_table_within_capacity.
  - vm_compute. reflexivity.
Defined.

Lemma Insert_diverges_on_colliding_keys_witness :
  Insert (λ k, k) 5 0 11 full_table = None.
Proof.
  apply (Insert_diverges_on_colliding_keys (λ k, k) 5 0 11 full_table
           0%nat (mkBucket 0 {[ 0 := 10 ]})).
  - apply full_table_wf.
  - reflexivity.
  - reflexivity.
  - vm_compute. reflexivity.
  - intros k [v Hv]. simpl in Hv. apply lookup_singleton_Some in Hv as [<- _].
    reflexivity.
Defined.

Lemma Insert_keeps_placement_witness :
  table_placed (λ k, k) split_table ∧
  ∀ i a b k v,
    bucket_directory_ split_table !! i = Some a → heap_ split_table !! a = Some b →
    bmap_ b !! k = Some v → Find (λ k, k) k split_table = Some (Some v).
Proof.
  apply (Insert_keeps_placement (λ k, k) 2 1 11 full_table split_table).
  - apply full_table_wf.
  - apply full_table_placed.
  - vm_compute. reflexivity.
Defined.

End ExtendibleHash.

(* ===================================================================== *)
(** ** concurrency/lock_manager.cpp, include/concurrency/lock_manager.h *)
(* ===================================================================== *)

Module LockManager.

Inductive TransactionState := GROWING | SHRINKING | COMMITTED | ABORTED.
Inductive WaitState := SHARED | EXCLUSIVE.
(** [std::future_status] as [wait_for] reports it. *)
Inductive future_status := ready | timeout.

#[global] Instance TransactionState_eq_dec : EqDecision TransactionState.
Proof. solve_decision. Defined.
#[global] Instance WaitState_eq_dec : EqDecision WaitState.
Proof. solve_decision. Defined.

(** A record id is a page id with a slot number. *)
Definition RID : Type := Z * Z.
Definition txn_id_t : Type := Z.

(** The part of [Transaction] the lock manager reads and writes. *)
Record Transaction := mkTxn {
  txn_id_ : txn_id_t;
  txn_state_ : TransactionState;
  shared_lock_set_ : gset RID;
  exclusive_lock_set_ : gset RID
}.

Definition SetState (st : TransactionState) (txn : Transaction) : Transaction :=
  mkTxn (txn_id_ txn) st (shared_lock_set_ txn) (exclusive_lock_set_ txn).
Definition InsertIntoSharedLockSet (rid : RID) (txn : Transaction) : Transaction :=
  mkTxn (txn_id_ txn) (txn_state_ txn)
        ({[rid]} ∪ shared_lock_set_ txn) (exclusive_lock_set_ txn).
Definition InsertIntoExclusiveLockSet (rid : RID) (txn : Transaction) : Transaction :=
  mkTxn (txn_id_ txn) (txn_state_ txn)
        (shared_lock_set_ txn) ({[rid]} ∪ exclusive_lock_set_ txn).
Definition EraseFromSharedLockSet (rid : RID) (txn : Transaction) : Transaction :=
  mkTxn (txn_id_ txn) (txn_state_ txn)
        (shared_lock_set_ txn ∖ {[rid]}) (exclusive_lock_set_ txn).
Definition EraseFromExclusiveLockSet (rid : RID) (txn : Transaction) : Transaction :=
  mkTxn (txn_id_ txn) (txn_state_ txn)
        (shared_lock_set_ txn) (exclusive_lock_set_ txn ∖ {[rid]}).

(** [WaitList::WaitItem]; the promise is the one-shot signal the waiter
    blocks on, its outcome is what [wait_for] reports to the waiter. *)
Record WaitItem := mkItem {
  tid : txn_id_t;
  state : WaitState
}.

Record WaitList := mkWaitList {
  state_ : WaitState;
  granted_ : gset txn_id_t;
  lst_ : list WaitItem
}.

(** [WaitList(txn_id_t tid, WaitState state)] *)
Definition new_WaitList (t : txn_id_t) (st : WaitState) : WaitList :=
  mkWaitList st {[t]} [].

Record LockManager := mkLM {
  strict_2PL_ : bool;
  map_ : gmap RID WaitList
}.

Definition set_entry (rid : RID) (w : WaitList) (lm : LockManager) : LockManager :=
  mkLM (strict_2PL_ lm) (<[rid := w]> (map_ lm)).

(** How a call ends that may lock [latch_] while the calling thread owns
    it.  [latch_] is a [std::mutex], which is not recursive: the thread that
    constructs a second [std::unique_lock] on it does not get the mutex (the
    behaviour is undefined; a mutex of the default kind blocks its owner
    for ever), and the call does not return.  [BlocksOnLatch] holds the
    transaction and the table as they are at that moment. *)
Inductive call_end :=
| Returns (result : bool * Transaction * LockManager)
| BlocksOnLatch (txn : Transaction) (lm : LockManager).

(** The lock table when the call has returned or has come to a halt. *)
Definition table_at_end (e : call_end) : LockManager :=
  match e with
  | Returns result => result.2
  | BlocksOnLatch _ lm => lm
  end.

Section Calls.

(** What happens between [lock.unlock()] and the return of
    [promise->get_future().wait_for(WAIT_TIMEOUT)] in the calling thread:
    the other threads act on the table, and the wait ends with a status.
    Each stretch of code between [lock] and [unlock] of [latch_] is one
    atomic step of the calling thread. *)
Variable wait_for : RID → txn_id_t → LockManager → future_status * LockManager.

(** [bool LockShared(Transaction *txn, const RID &rid)] *)
Definition LockShared (txn : Transaction) (rid : RID) (lm : LockManager)
  : bool * Transaction * LockManager :=
  if decide (txn_state_ txn = SHRINKING) then
    (false, SetState ABORTED txn, lm)
  else
    match map_ lm !! rid with
    | None =>
        (true, InsertIntoSharedLockSet rid txn,
         set_entry rid (new_WaitList (txn_id_ txn) SHARED) lm)
    | Some ptr =>
        if decide (state_ ptr = EXCLUSIVE) then
          let ptr' := mkWaitList (state_ ptr) (granted_ ptr)
                                 (lst_ ptr ++ [mkItem (txn_id_ txn) SHARED]) in
          let '(status, lm') := wait_for rid (txn_id_ txn) (set_entry rid ptr' lm) in
          match status with
          | timeout => (false, SetState ABORTED txn, lm')
          | ready => (true, InsertIntoSharedLockSet rid txn, lm')
          end
        else
          (true, InsertIntoSharedLockSet rid txn,
           set_entry rid (mkWaitList (state_ ptr)
                                     ({[txn_id_ txn]} ∪ granted_ ptr)
                                     (lst_ ptr)) lm)
    end.

(** [bool LockExclusive(Transaction *txn, const RID &rid)] *)
Definition LockExclusive (txn : Transaction) (rid : RID) (lm : LockManager)
  : bool * Transaction * LockManager :=
  if decide (txn_state_ txn = SHRINKING) then
    (false, SetState ABORTED txn, lm)
  else
    match map_ lm !! rid with
    | None =>
        (true, InsertIntoExclusiveLockSet rid txn,
         set_entry rid (new_WaitList (txn_id_ txn) EXCLUSIVE) lm)
    | Some ptr =>
        let ptr' := mkWaitList (state_ ptr) (granted_ ptr)
                               (lst_ ptr ++ [mkItem (txn_id_ txn) EXCLUSIVE]) in
        let '(status, lm') := wait_for rid (txn_id_ txn) (set_entry rid ptr' lm) in
        match status with
        | timeout => (false, SetState ABORTED txn, lm')
        | ready => (true, InsertIntoExclusiveLockSet rid txn, lm')
        end
    end.

(** [LockExclusive(txn, rid)] called by a thread that owns [latch_]: the
    test of the state comes first and returns without the latch; after it
    the call locks [latch_] (line 73) and goes no further. *)
Definition LockExclusive_latch_held (txn : Transaction) (rid : RID) (lm : LockManager)
  : call_end :=
  if decide (txn_state_ txn = SHRINKING) then
    Returns (false, SetState ABORTED txn, lm)
  else BlocksOnLatch txn lm.

(** [bool LockUpgrade(Transaction *txn, const RID &rid)].  [latch_] is
    locked at line 98 and owned until the function returns, so the nested
    [LockExclusive(txn, rid)] of line 109 is called with the latch held;
    its result is dropped. *)
Definition LockUpgrade (txn : Transaction) (rid : RID) (lm : LockManager)
  : call_end :=
  if decide (txn_state_ txn = SHRINKING) then
    Returns (false, SetState ABORTED txn, lm)
  else
    match map_ lm !! rid with
    | None => Returns (false, txn, lm)
    | Some ptr =>
        if decide (txn_id_ txn ∉ granted_ ptr ∨ state_ ptr ≠ SHARED) then
          Returns (false, txn, lm)
        else
          let ptr' := mkWaitList (state_ ptr)
                                 (granted_ ptr ∖ {[txn_id_ txn]}) (lst_ ptr) in
          match LockExclusive_latch_held (EraseFromSharedLockSet rid txn) rid
                                         (set_entry rid ptr' lm) with
          | Returns (_, txn', lm') => Returns (true, txn', lm')
          | BlocksOnLatch txn' lm' => BlocksOnLatch txn' lm'
          end
    end.

(** [bool Unlock(Transaction *txn, const RID &rid)]; [None] when one of
    the two assertions fails. *)
Definition Unlock (txn : Transaction) (rid : RID) (lm : LockManager)
  : option (bool * Transaction * LockManager) :=
  if decide (strict_2PL_ lm = true ∧
             ¬ (txn_state_ txn = COMMITTED ∨ txn_state_ txn = ABORTED)) then
    Some (false, SetState ABORTED txn, lm)
  else
    match map_ lm !! rid with
    | None => None
    | Some ptr =>
        if decide (txn_id_ txn ∈ granted_ ptr) then
          let granted1 := granted_ ptr ∖ {[txn_id_ txn]} in
          let txn1 := if decide (state_ ptr = EXCLUSIVE)
                      then EraseFromExclusiveLockSet rid txn
                      else EraseFromSharedLockSet rid txn in
          let txn2 := if decide (strict_2PL_ lm = false ∧ txn_state_ txn1 = GROWING)
                      then SetState SHRINKING txn1 else txn1 in
          if decide (granted1 ≠ ∅) then
            Some (true, txn2,
                  set_entry rid (mkWaitList (state_ ptr) granted1 (lst_ ptr)) lm)
          else
            match lst_ ptr with
            | [] => Some (true, txn2, mkLM (strict_2PL_ lm) (delete rid (map_ lm)))
            | item :: rest =>
                Some (true, txn2,
                      set_entry rid
                        (mkWaitList (state item) ({[tid item]} ∪ granted1) rest) lm)
            end
        else None
    end.

(** [LockShared] and [LockExclusive] return false whenever they are the
    ones that abort the transaction. *)
Lemma LockShared_abort_false txn rid lm r txn' lm' :
  LockShared txn rid lm = (r, txn', lm') →
  txn_state_ txn ≠ ABORTED → txn_state_ txn' = ABORTED → r = false.
Proof.
  unfold LockShared. intros Hcall Hbefore Hafter.
  case_decide; [congruence|].
  destruct (map_ lm !! rid) as [ptr|]; [case_decide|];
    try destruct (wait_for _ _ _) as [[] lm2];
    simplify_eq; simpl in *; congruence.
Qed.

Lemma LockExclusive_abort_false txn rid lm r txn' lm' :
  LockExclusive txn rid lm = (r, txn', lm') →
  txn_state_ txn ≠ ABORTED → txn_state_ txn' = ABORTED → r = false.
Proof.
  unfold LockExclusive. intros Hcall Hbefore Hafter.
  case_decide; [congruence|].
  destruct (map_ lm !! rid) as [ptr|];
    try destruct (wait_for _ _ _) as [[] lm2];
    simplify_eq; simpl in *; congruence.
Qed.

(** Up to its first lock of [latch_], [LockExclusive] with the latch held
    is [LockExclusive]. *)
Lemma LockExclusive_latch_held_early txn rid lm :
  txn_state_ txn = SHRINKING →
  LockExclusive_latch_held txn rid lm = Returns (LockExclusive txn rid lm).
Proof.
  intros Hst. unfold LockExclusive_latch_held, LockExclusive.
  by rewrite !decide_True.
Qed.

(** [LockUpgrade] returns from its three early exits only: each time with
    false and the table as it was, and with the transaction set to ABORTED
    on the first one only. *)
Lemma LockUpgrade_returns txn rid lm r txn' lm' :
  LockUpgrade txn rid lm = Returns (r, txn', lm') →
  r = false ∧ lm' = lm ∧
  (txn_state_ txn = SHRINKING ∧ txn' = SetState ABORTED txn ∨
   txn_state_ txn ≠ SHRINKING ∧ txn' = txn).
Proof.
  unfold LockUpgrade, LockExclusive_latch_held. simpl.
  case_decide as Hst; [intros [= <- <- <-]; auto|].
  destruct (map_ lm !! rid) as [ptr|]; [|intros [= <- <- <-]; auto].
  case_decide; [intros [= <- <- <-]; auto|].
  done.
Qed.

(** Once [LockUpgrade] has erased the shared lock it calls [LockExclusive]
    with [latch_] held, and does not return: the transaction is left
    without its shared lock on the record and without the exclusive one. *)
Lemma LockUpgrade_blocks txn rid lm ptr :
  txn_state_ txn ≠ SHRINKING →
  map_ lm !! rid = Some ptr →
  txn_id_ txn ∈ granted_ ptr → state_ ptr = SHARED →
  LockUpgrade txn rid lm
  = BlocksOnLatch (EraseFromSharedLockSet rid txn)
      (set_entry rid
         (mkWaitList SHARED (granted_ ptr ∖ {[txn_id_ txn]}) (lst_ ptr)) lm).
Proof.
  intros Hst Hmap Hin Hmode. unfold LockUpgrade, LockExclusive_latch_held.
  rewrite decide_False by done. rewrite Hmap.
  rewrite decide_False by (intros [?|?]; done).
  simpl. rewrite decide_False by done. by rewrite Hmode.
Qed.

(** C5.  A lock routine that sets the transaction to ABORTED returns false,
    and a true return leaves the state of the transaction as it was, with
    the record in the lock set that was asked for and the transaction among
    the granted holders of the record (a wait that ends [ready] was ended by
    the [Unlock] that granted the request: it inserts the waiter into
    [granted_] before it sets the promise).  [LockUpgrade] returns from its
    three early exits only, each time with false and the table as it was:
    past them it calls [LockExclusive] with [latch_] held and does not
    return, so it neither returns true nor reaches a [SetState(ABORTED)]. *)
Theorem lock_abort_returns_false txn rid lm :
  (∀ r t l, (wait_for r t l).1 = ready →
            ∃ w, map_ (wait_for r t l).2 !! r = Some w ∧ t ∈ granted_ w) →
  txn_state_ txn ≠ ABORTED →
  (∀ r txn' lm',
     LockShared txn rid lm = (r, txn', lm') →
     (txn_state_ txn' = ABORTED → r = false) ∧
     (r = true →
        txn_state_ txn' = txn_state_ txn ∧ rid ∈ shared_lock_set_ txn' ∧
        ∃ w, map_ lm' !! rid = Some w ∧ txn_id_ txn ∈ granted_ w)) ∧
  (∀ r txn' lm',
     LockExclusive txn rid lm = (r, txn', lm') →
     (txn_state_ txn' = ABORTED → r = false) ∧
     (r = true →
        txn_state_ txn' = txn_state_ txn ∧ rid ∈ exclusive_lock_set_ txn' ∧
        ∃ w, map_ lm' !! rid = Some w ∧ txn_id_ txn ∈ granted_ w)) ∧
  (∀ r txn' lm',
     LockUpgrade txn rid lm = Returns (r, txn', lm') →
     r = false ∧ lm' = lm ∧
     (txn_state_ txn' = ABORTED ↔ txn_state_ txn = SHRINKING)).
Proof.
  intros Hready Hst. split; [|split].
  - intros r txn' lm' Hcall. split.
    { by apply (LockShared_abort_false _ _ _ _ _ _ Hcall). }
    unfold LockShared in Hcall. case_decide; [by simplify_eq|].
    destruct (map_ lm !! rid) as [ptr|]; [case_decide|].
    + match type of Hcall with context [wait_for ?r0 ?t0 ?l0] =>
        pose proof (Hready r0 t0 l0) as Hw;
        destruct (wait_for r0 t0 l0) as [[] lm2]
      end; simplify_eq; [|done].
      intros _. simpl. split; [done|]. split; [set_solver|]. by apply Hw.
    + simplify_eq. intros _. simpl. split; [done|]. split; [set_solver|].
      eexists. rewrite lookup_insert_eq. split; [done|]. simpl. set_solver.
    + simplify_eq. intros _. simpl. split; [done|]. split; [set_solver|].
      eexists. rewrite lookup_insert_eq. split; [done|]. simpl. set_solver.
  - intros r txn' lm' Hcall. split.
    { by apply (LockExclusive_abort_false _ _ _ _ _ _ Hcall). }
    unfold LockExclusive in Hcall. case_decide; [by simplify_eq|].
    destruct (map_ lm !! rid) as [ptr|].
    + match type of Hcall with context [wait_for ?r0 ?t0 ?l0] =>
        pose proof (Hready r0 t0 l0) as Hw;
        destruct (wait_for r0 t0 l0) as [[] lm2]
      end; simplify_eq; [|done].
      intros _. simpl. split; [done|]. split; [set_solver|]. by apply Hw.
    + simplify_eq. intros _. simpl. split; [done|]. split; [set_solver|].
      eexists. rewrite lookup_insert_eq. split; [done|]. simpl. set_solver.
  - intros r txn' lm' Hcall.
    apply LockUpgrade_returns in Hcall as (-> & -> & [[Hs ->]|[Hs ->]]);
      (split; [done|]); (split; [done|]); simpl; split; intros; done.
Qed.

(** C6 (amended).  On a record whose wait-list entry is in SHARED mode,
    [LockShared] by a transaction that is not SHRINKING never waits: it adds
    the transaction to the granted set, leaves the wait queue as it is
    (whatever waiters it holds, exclusive ones included) and returns
    true. *)
Theorem LockShared_shared_entry_grants txn rid lm ptr :
  txn_state_ txn ≠ SHRINKING →
  map_ lm !! rid = Some ptr → state_ ptr = SHARED →
  LockShared txn rid lm
  = (true, InsertIntoSharedLockSet rid txn,
     set_entry rid
       (mkWaitList SHARED ({[txn_id_ txn]} ∪ granted_ ptr) (lst_ ptr)) lm).
Proof.
  intros Hst Hmap Hmode. unfold LockShared.
  rewrite decide_False by done. rewrite Hmap, Hmode.
  rewrite decide_False by done. done.
Qed.

(** *** Two-phase locking and mutual exclusion *)

(** In every wait-list entry in EXCLUSIVE mode at most one transaction is
    granted. *)
Definition exclusive_alone (lm : LockManager) : Prop :=
  ∀ rid w, map_ lm !! rid = Some w → state_ w = EXCLUSIVE →
           (size (granted_ w) ≤ 1)%nat.

Lemma set_entry_alone rid w lm :
  exclusive_alone lm →
  (state_ w = EXCLUSIVE → (size (granted_ w) ≤ 1)%nat) →
  exclusive_alone (set_entry rid w lm).
Proof.
  intros Hlm Hw rid' w'. unfold set_entry. simpl.
  destruct (decide (rid = rid')) as [<-|Hne].
  - rewrite lookup_insert_eq. by intros [= <-].
  - rewrite lookup_insert_ne by done. apply Hlm.
Qed.

Lemma LockExclusive_alone txn rid lm :
  (∀ r t l, exclusive_alone l → exclusive_alone (wait_for r t l).2) →
  exclusive_alone lm → exclusive_alone (LockExclusive txn rid lm).2.
Proof.
  intros Hwait Hlm. unfold LockExclusive. case_decide; [done|].
  destruct (map_ lm !! rid) as [ptr|] eqn:Hptr; simpl.
  - match goal with |- context [wait_for ?r ?t ?l] =>
      pose proof (Hwait r t l) as Hw; destruct (wait_for r t l) as [[] lm2]
    end; simpl in *; apply Hw; apply set_entry_alone; try done;
      simpl; intros; by eapply Hlm.
  - apply set_entry_alone; [done|]. unfold new_WaitList. cbn [granted_ state_].
    intros _. by rewrite size_singleton.
Qed.

Lemma Unlock_alone txn rid lm r txn' lm' :
  exclusive_alone lm →
  Unlock txn rid lm = Some (r, txn', lm') → exclusive_alone lm'.
Proof.
  intros Hlm. unfold Unlock. case_decide; [by intros [= <- <- <-]|].
  destruct (map_ lm !! rid) as [ptr|] eqn:Hptr; [|done].
  case_decide; [|done]. case_decide as Hrest.
  - intros [= <- <- <-]. apply set_entry_alone; [done|]. cbn [granted_ state_].
    intros Hmode. specialize (Hlm rid ptr Hptr Hmode).
    etrans; [apply subseteq_size|exact Hlm]. set_solver.
  - destruct (lst_ ptr) as [|item rest]; intros [= <- <- <-].
    + intros rid' w'. simpl.
      destruct (decide (rid = rid')) as [<-|Hne].
      * by rewrite lookup_delete_eq.
      * rewrite lookup_delete_ne by done. apply Hlm.
    + apply set_entry_alone; [done|]. cbn [granted_ state_]. intros _.
      assert (granted_ ptr ∖ {[txn_id_ txn]} = ∅) as ->
        by (by destruct (decide (granted_ ptr ∖ {[txn_id_ txn]} = ∅))).
      rewrite (right_id_L ∅ (∪)). by rewrite size_singleton.
Qed.

(** The lock table keeps shared and exclusive holders apart: provided the
    other threads do so while the caller waits, after [LockShared],
    [LockExclusive], [LockUpgrade] (where it returns and where it comes to
    a halt on [latch_]) and [Unlock] every entry in EXCLUSIVE mode has at
    most one granted transaction. *)
Theorem exclusive_holder_is_alone txn rid lm :
  (∀ r t l, exclusive_alone l → exclusive_alone (wait_for r t l).2) →
  exclusive_alone lm →
  exclusive_alone (LockShared txn rid lm).2 ∧
  exclusive_alone (LockExclusive txn rid lm).2 ∧
  exclusive_alone (table_at_end (LockUpgrade txn rid lm)) ∧
  (∀ r txn' lm', Unlock txn rid lm = Some (r, txn', lm') → exclusive_alone lm').
Proof.
  intros Hwait Hlm. split; [|split; [|split]].
  - unfold LockShared. case_decide; [done|].
    destruct (map_ lm !! rid) as [ptr|] eqn:Hptr; simpl.
    + case_decide as Hmode.
      * match goal with |- context [wait_for ?r ?t ?l] =>
          pose proof (Hwait r t l) as Hw; destruct (wait_for r t l) as [[] lm2]
        end; simpl in *; apply Hw; apply set_entry_alone; try done;
          simpl; intros; by eapply Hlm.
      * apply set_entry_alone; [done|]. simpl. done.
    + apply set_entry_alone; [done|]. simpl. done.
  - by apply LockExclusive_alone.
  - unfold LockUpgrade, LockExclusive_latch_held. case_decide; [done|].
    destruct (map_ lm !! rid) as [ptr|] eqn:Hptr; [|done].
    case_decide as Hheld; [done|]. simpl. rewrite decide_False by done.
    simpl. apply set_entry_alone; [done|].
    simpl. intros Hmode. exfalso. apply Hheld. right. congruence.
  - intros r txn' lm'. by apply Unlock_alone.
Qed.

(** The lock routines reject a SHRINKING transaction and nothing else: a
    SHRINKING transaction is set to ABORTED, gets false and leaves the table
    as it is; a transaction in any other state (ABORTED and COMMITTED
    included) that asks for a lock on a record without wait-list entry is
    granted it at once. *)
Theorem only_shrinking_is_rejected txn rid lm :
  (txn_state_ txn = SHRINKING →
     LockShared txn rid lm = (false, SetState ABORTED txn, lm) ∧
     LockExclusive txn rid lm = (false, SetState ABORTED txn, lm) ∧
     LockUpgrade txn rid lm = Returns (false, SetState ABORTED txn, lm)) ∧
  (txn_state_ txn ≠ SHRINKING → map_ lm !! rid = None →
     LockShared txn rid lm
       = (true, InsertIntoSharedLockSet rid txn,
          set_entry rid (new_WaitList (txn_id_ txn) SHARED) lm) ∧
     LockExclusive txn rid lm
       = (true, InsertIntoExclusiveLockSet rid txn,
          set_entry rid (new_WaitList (txn_id_ txn) EXCLUSIVE) lm)).
Proof.
  unfold LockShared, LockExclusive, LockUpgrade. split.
  - intros Hst. by rewrite !decide_True.
  - intros Hst Hfree. rewrite !decide_False by done. by rewrite Hfree.
Qed.

(** What the caller of [LockShared] or [LockExclusive] observes: the result
    is false exactly when the call has set the transaction to ABORTED, and
    then the lock sets are as before; when the result is true the record is
    in the corresponding lock set and the state is as before. *)
Theorem lock_result_and_transaction txn rid lm :
  txn_state_ txn ≠ ABORTED →
  (let '(r, txn', _) := LockShared txn rid lm in
   (r = false ↔ txn_state_ txn' = ABORTED) ∧
   (r = false → shared_lock_set_ txn' = shared_lock_set_ txn ∧
                exclusive_lock_set_ txn' = exclusive_lock_set_ txn) ∧
   (r = true → rid ∈ shared_lock_set_ txn' ∧
               txn_state_ txn' = txn_state_ txn)) ∧
  (let '(r, txn', _) := LockExclusive txn rid lm in
   (r = false ↔ txn_state_ txn' = ABORTED) ∧
   (r = false → shared_lock_set_ txn' = shared_lock_set_ txn ∧
                exclusive_lock_set_ txn' = exclusive_lock_set_ txn) ∧
   (r = true → rid ∈ exclusive_lock_set_ txn' ∧
               txn_state_ txn' = txn_state_ txn)).
Proof.
  intros Hst. unfold LockShared, LockExclusive. split.
  - case_decide; [by repeat split|].
    destruct (map_ lm !! rid) as [ptr|]; [case_decide|];
      try destruct (wait_for _ _ _) as [[] lm2]; simpl;
      repeat split; try done; try set_solver.
  - case_decide; [by repeat split|].
    destruct (map_ lm !! rid) as [ptr|];
      try destruct (wait_for _ _ _) as [[] lm2]; simpl;
      repeat split; try done; try set_solver.
Qed.

(** Locking a record without wait-list entry and unlocking it again (not
    under strict two-phase locking) leaves the lock table and the lock sets
    as they were; the transaction has gone from GROWING to SHRINKING. *)
Theorem lock_then_unlock_restores txn rid lm :
  map_ lm !! rid = None → strict_2PL_ lm = false →
  txn_state_ txn = GROWING →
  rid ∉ shared_lock_set_ txn → rid ∉ exclusive_lock_set_ txn →
  (let '(r, txn1, lm1) := LockShared txn rid lm in
   r = true ∧ Unlock txn1 rid lm1 = Some (true, SetState SHRINKING txn, lm)) ∧
  (let '(r, txn1, lm1) := LockExclusive txn rid lm in
   r = true ∧ Unlock txn1 rid lm1 = Some (true, SetState SHRINKING txn, lm)).
Proof.
  intros Hfree Hstrict Hst Hs Hx.
  assert (Hlm : mkLM false (delete rid (<[rid := new_WaitList (txn_id_ txn) SHARED]>
                                          (map_ lm))) = lm).
  { rewrite delete_insert_id by done. destruct lm; simpl in *; congruence. }
  assert (Hlm' : mkLM false (delete rid (<[rid := new_WaitList (txn_id_ txn) EXCLUSIVE]>
                                           (map_ lm))) = lm).
  { rewrite delete_insert_id by done. destruct lm; simpl in *; congruence. }
  assert (Hset : ∀ X : gset RID, rid ∉ X → ({[rid]} ∪ X) ∖ {[rid]} = X)
    by (intros; set_solver).
  unfold LockShared, LockExclusive.
  rewrite !decide_False by congruence. rewrite Hfree.
  split; (split; [done|]); unfold Unlock; simpl; rewrite Hstrict.
  - rewrite decide_False by (intros [? _]; done).
    rewrite lookup_insert_eq. simpl.
    rewrite decide_True by set_solver. simpl.
    rewrite decide_False by (intros Hne; apply Hne; set_solver).
    rewrite decide_True by done.
    unfold SetState, EraseFromSharedLockSet. simpl.
    rewrite Hset by done. by rewrite Hlm.
  - rewrite decide_False by (intros [? _]; done).
    rewrite lookup_insert_eq. simpl.
    rewrite decide_True by set_solver. simpl.
    rewrite decide_False by (intros Hne; apply Hne; set_solver).
    rewrite decide_True by done.
    unfold SetState, EraseFromExclusiveLockSet. simpl.
    rewrite Hset by done. by rewrite Hlm'.
Qed.

(** The two-phase rule without strict two-phase locking: the first [Unlock]
    of a GROWING transaction returns true and leaves it SHRINKING, and from
    then on every lock request on any record and any lock table sets the
    transaction to ABORTED, returns false and leaves the table as it is. *)
Theorem no_lock_after_unlock txn rid lm r txn1 lm1 :
  strict_2PL_ lm = false → txn_state_ txn = GROWING →
  Unlock txn rid lm = Some (r, txn1, lm1) →
  r = true ∧ txn_state_ txn1 = SHRINKING ∧
  strict_2PL_ lm1 = false ∧
  ∀ rid2 lm2,
    LockShared txn1 rid2 lm2 = (false, SetState ABORTED txn1, lm2) ∧
    LockExclusive txn1 rid2 lm2 = (false, SetState ABORTED txn1, lm2) ∧
    LockUpgrade txn1 rid2 lm2 = Returns (false, SetState ABORTED txn1, lm2).
Proof.
  intros Hstrict Hst Hun.
  assert (Hres : r = true ∧ txn_state_ txn1 = SHRINKING ∧ strict_2PL_ lm1 = false).
  { unfold Unlock in Hun. rewrite decide_False in Hun by (intros [? _]; congruence).
    destruct (map_ lm !! rid) as [ptr|]; [|done].
    case_decide; [|done].
    assert (Hgrow : ∀ t, txn_state_ t = GROWING →
              txn_state_ (if decide (strict_2PL_ lm = false ∧ txn_state_ t = GROWING)
                          then SetState SHRINKING t else t) = SHRINKING).
    { intros t Ht. by rewrite decide_True. }
    assert (Herase : txn_state_ (if decide (state_ ptr = EXCLUSIVE)
                                 then EraseFromExclusiveLockSet rid txn
                                 else EraseFromSharedLockSet rid txn) = GROWING)
      by (destruct (decide (state_ ptr = EXCLUSIVE)); simpl; done).
    apply Hgrow in Herase.
    destruct (decide (granted_ ptr ∖ {[txn_id_ txn]} ≠ ∅)); [|destruct (lst_ ptr)];
      injection Hun as <- <- <-; done. }
  destruct Hres as (-> & Hshr & Hs1). do 3 (split; [done|]).
  intros rid2 lm2. unfold LockShared, LockExclusive, LockUpgrade.
  by rewrite !decide_True.
Qed.

End Calls.

(** *** Concrete tables *)

(** No other thread acts during a wait: every wait times out. *)
Definition nobody_unlocks (rid : RID) (t : txn_id_t) (lm : LockManager)
  : future_status * LockManager := (timeout, lm).

Definition rid0 : RID := (1, 0).

(** Transaction 1, growing, is the only holder of a shared lock on [rid0]. *)
Definition sole_reader : Transaction := mkTxn 1 GROWING {[rid0]} ∅.
Definition sole_reader_table : LockManager :=
  mkLM false {[ rid0 := mkWaitList SHARED {[1]} [] ]}.

(** Transaction 2, growing, holds the exclusive lock on [rid0]. *)
Definition writer : Transaction := mkTxn 2 GROWING ∅ {[rid0]}.
Definition writer_holds : LockManager :=
  mkLM false {[ rid0 := mkWaitList EXCLUSIVE {[2]} [] ]}.
(** The same with transaction 3 waiting for the exclusive lock. *)
Definition writer_with_waiter : LockManager :=
  mkLM false {[ rid0 := mkWaitList EXCLUSIVE {[2]} [mkItem 3 EXCLUSIVE] ]}.

Definition is_granted (t : txn_id_t) (rid : RID) (lm : LockManager) : bool :=
  match map_ lm !! rid with
  | Some w => bool_decide (t ∈ granted_ w)
  | None => false
  end.

(** During the wait the transaction [holder] unlocks the record.  [Unlock]
    sets the promise of the one waiter that it inserts into [granted_]: the
    wait of [t] ends [ready] when this [Unlock] has granted [t], and times
    out otherwise. *)
Definition holder_unlocks (holder : Transaction) (rid : RID) (t : txn_id_t)
    (lm : LockManager) : future_status * LockManager :=
  match Unlock holder rid lm with
  | Some (_, _, lm') =>
      (if is_granted t rid lm' && negb (is_granted t rid lm)
       then ready else timeout, lm')
  | None => (timeout, lm)
  end.

Lemma holder_unlocks_ready holder r t l :
  (holder_unlocks holder r t l).1 = ready →
  ∃ w, map_ (holder_unlocks holder r t l).2 !! r = Some w ∧ t ∈ granted_ w.
Proof.
  unfold holder_unlocks.
  destruct (Unlock holder r l) as [[[b txn'] l']|]; [|done]. simpl.
  unfold is_granted at 1.
  destruct (map_ l' !! r) as [w|]; [|done].
  destruct (bool_decide_reflect (t ∈ granted_ w)); [|done].
  intros _. by exists w.
Qed.

Lemma holder_unlocks_alone holder r t l :
  exclusive_alone l → exclusive_alone (holder_unlocks holder r t l).2.
Proof.
  intros Hl. unfold holder_unlocks.
  destruct (Unlock holder r l) as [[[b txn'] l']|] eqn:Hun; [|done].
  simpl. by apply (Unlock_alone _ _ _ _ _ _ Hl Hun).
Qed.

Lemma single_entry_alone (strict : bool) (rid : RID) (w : WaitList) :
  (state_ w = EXCLUSIVE → (size (granted_ w) ≤ 1)%nat) →
  exclusive_alone (mkLM strict {[ rid := w ]}).
Proof.
  intros Hw rid' w' Hlook. simpl in Hlook.
  apply lookup_singleton_Some in Hlook as [_ <-]. exact Hw.
Qed.

(** The calls on a record that transaction 2 holds exclusively.  When the
    holder unlocks during the wait, the request of transaction 3 is granted
    and the call returns true; when nobody unlocks, the wait times out and
    the call returns false with the transaction ABORTED.  [LockUpgrade] by
    a transaction that does not hold the record in SHARED mode returns
    false at once; by the only holder of the shared lock it gives up the
    shared lock and comes to a halt on [latch_]. *)
Example lock_calls_on_held_record :
  LockShared (holder_unlocks writer) (mkTxn 3 GROWING ∅ ∅) rid0 writer_holds
    = (true, mkTxn 3 GROWING {[rid0]} ∅,
       mkLM false {[ rid0 := mkWaitList SHARED {[3]} [] ]}) ∧
  LockExclusive (holder_unlocks writer) (mkTxn 3 GROWING ∅ ∅) rid0 writer_holds
    = (true, mkTxn 3 GROWING ∅ {[rid0]},
       mkLM false {[ rid0 := mkWaitList EXCLUSIVE {[3]} [] ]}) ∧
  LockExclusive nobody_unlocks (mkTxn 3 GROWING ∅ ∅) rid0 writer_holds
    = (false, mkTxn 3 ABORTED ∅ ∅, writer_with_waiter) ∧
  LockUpgrade (mkTxn 3 GROWING ∅ ∅) rid0 writer_holds
    = Returns (false, mkTxn 3 GROWING ∅ ∅, writer_holds) ∧
  LockUpgrade sole_reader rid0 sole_reader_table
    = BlocksOnLatch (mkTxn 1 GROWING ∅ ∅)
        (mkLM false {[ rid0 := mkWaitList SHARED ∅ [] ]}).
Proof. vm_compute. repeat split; reflexivity. Qed.

(** Transaction 1 holds a shared lock on [rid0], transaction 2 waits for an
    exclusive lock behind it, transaction 3 now asks for a shared lock. *)
Definition reader_then_writer : LockManager :=
  mkLM false {[ rid0 := mkWaitList SHARED {[1]} [mkItem 2 EXCLUSIVE] ]}.
Definition late_reader : Transaction := mkTxn 3 GROWING ∅ ∅.

(** C6, as stated, fails: an exclusive waiter is queued, and the shared
    request is granted at once (no wait takes place: with every wait timing
    out the call still returns true) and is not queued behind the waiter. *)
Lemma LockShared_overtakes_exclusive_waiter :
  let '(r, txn', lm') := LockShared nobody_unlocks late_reader rid0 reader_then_writer in
  (lst_ <$> map_ reader_then_writer !! rid0) = Some [mkItem 2 EXCLUSIVE] ∧
  r = true ∧
  (granted_ <$> map_ lm' !! rid0) = Some ({[1; 3]} : gset txn_id_t) ∧
  (lst_ <$> map_ lm' !! rid0) = Some [mkItem 2 EXCLUSIVE].
Proof. vm_compute. repeat split; reflexivity. Qed.

Lemma LockShared_shared_entry_grants_witness :
  LockShared nobody_unlocks late_reader rid0 reader_then_writer
  = (true, InsertIntoSharedLockSet rid0 late_reader,
     set_entry rid0
       (mkWaitList SHARED ({[3]} ∪ {[1]}) [mkItem 2 EXCLUSIVE]) reader_then_writer).
Proof.
  refine (LockShared_shared_entry_grants nobody_unlocks late_reader rid0
            reader_then_writer (mkWaitList SHARED {[1]} [mkItem 2 EXCLUSIVE])
            _ _ _).
  - simpl. discriminate.
  - reflexivity.
  - reflexivity.
Defined.

Lemma lock_abort_returns_false_witness :
  (∀ r txn' lm',
     LockShared (holder_unlocks writer) late_reader rid0 writer_holds = (r, txn', lm') →
     (txn_state_ txn' = ABORTED → r = false) ∧
     (r = true →
        txn_state_ txn' = txn_state_ late_reader ∧ rid0 ∈ shared_lock_set_ txn' ∧
        ∃ w, map_ lm' !! rid0 = Some w ∧ txn_id_ late_reader ∈ granted_ w)) ∧
  (∀ r txn' lm',
     LockExclusive (holder_unlocks writer) late_reader rid0 writer_holds = (r, txn', lm') →
     (txn_state_ txn' = ABORTED → r = false) ∧
     (r = true →
        txn_state_ txn' = txn_state_ late_reader ∧ rid0 ∈ exclusive_lock_set_ txn' ∧
        ∃ w, map_ lm' !! rid0 = Some w ∧ txn_id_ late_reader ∈ granted_ w)) ∧
  (∀ r txn' lm',
     LockUpgrade late_reader rid0 writer_holds = Returns (r, txn', lm') →
     r = false ∧ lm' = writer_holds ∧
     (txn_state_ txn' = ABORTED ↔ txn_state_ late_reader = SHRINKING)).
Proof.
  apply (lock_abort_returns_false (holder_unlocks writer) late_reader rid0 writer_holds).
  - intros r t l. apply holder_unlocks_ready.
  - simpl. discriminate.
Defined.

Lemma exclusive_holder_is_alone_witness :
  (map_ writer_holds !! rid0 = Some (mkWaitList EXCLUSIVE {[2]} []) ∧
   (LockExclusive (holder_unlocks writer) late_reader rid0 writer_holds).2
     = mkLM false {[ rid0 := mkWaitList EXCLUSIVE {[3]} [] ]} ∧
   Unlock writer rid0 writer_with_waiter
     = Some (true, mkTxn 2 SHRINKING ∅ ∅,
             mkLM false {[ rid0 := mkWaitList EXCLUSIVE {[3]} [] ]})) ∧
  (exclusive_alone (LockShared (holder_unlocks writer) late_reader rid0 writer_holds).2 ∧
   exclusive_alone (LockExclusive (holder_unlocks writer) late_reader rid0 writer_holds).2 ∧
   exclusive_alone (table_at_end (LockUpgrade late_reader rid0 writer_holds)) ∧
   (∀ r txn' lm', Unlock late_reader rid0 writer_holds = Some (r, txn', lm') →
                  exclusive_alone lm')) ∧
  (exclusive_alone (LockShared nobody_unlocks writer rid0 writer_with_waiter).2 ∧
   exclusive_alone (LockExclusive nobody_unlocks writer rid0 writer_with_waiter).2 ∧
   exclusive_alone (table_at_end (LockUpgrade writer rid0 writer_with_waiter)) ∧
   (∀ r txn' lm', Unlock writer rid0 writer_with_waiter = Some (r, txn', lm') →
                  exclusive_alone lm')).
Proof.
  split; [vm_compute; repeat split; reflexivity|]. split.
  - apply (exclusive_holder_is_alone (holder_unlocks writer) late_reader rid0
             writer_holds).
    + intros r t l. apply holder_unlocks_alone.
    + apply single_entry_alone. intros _. vm_compute. lia.
  - apply (exclusive_holder_is_alone nobody_unlocks writer rid0 writer_with_waiter).
    + intros r t l Hl. exact Hl.
    + apply single_entry_alone. intros _. vm_compute. lia.
Defined.

Lemma lock_result_and_transaction_witness :
  (let '(r, txn', _) := LockShared nobody_unlocks late_reader rid0 reader_then_writer in
   (r = false ↔ txn_state_ txn' = ABORTED) ∧
   (r = false → shared_lock_set_ txn' = shared_lock_set_ late_reader ∧
                exclusive_lock_set_ txn' = exclusive_lock_set_ late_reader) ∧
   (r = true → rid0 ∈ shared_lock_set_ txn' ∧
               txn_state_ txn' = txn_state_ late_reader)) ∧
  (let '(r, txn', _) := LockExclusive nobody_unlocks late_reader rid0 reader_then_writer in
   (r = false ↔ txn_state_ txn' = ABORTED) ∧
   (r = false → shared_lock_set_ txn' = shared_lock_set_ late_reader ∧
                exclusive_lock_set_ txn' = exclusive_lock_set_ late_reader) ∧
   (r = true → rid0 ∈ exclusive_lock_set_ txn' ∧
               txn_state_ txn' = txn_state_ late_reader)).
Proof.
  apply (lock_result_and_transaction nobody_unlocks late_reader rid0 reader_then_writer).
  simpl. discriminate.
Defined.

Lemma no_lock_after_unlock_witness :
  true = true ∧ txn_state_ (mkTxn 1 SHRINKING ∅ ∅) = SHRINKING ∧
  strict_2PL_ (mkLM false ∅) = false ∧
  ∀ rid2 lm2,
    LockShared nobody_unlocks (mkTxn 1 SHRINKING ∅ ∅) rid2 lm2
      = (false, SetState ABORTED (mkTxn 1 SHRINKING ∅ ∅), lm2) ∧
    LockExclusive nobody_unlocks (mkTxn 1 SHRINKING ∅ ∅) rid2 lm2
      = (false, SetState ABORTED (mkTxn 1 SHRINKING ∅ ∅), lm2) ∧
    LockUpgrade (mkTxn 1 SHRINKING ∅ ∅) rid2 lm2
      = Returns (false, SetState ABORTED (mkTxn 1 SHRINKING ∅ ∅), lm2).
Proof.
  apply (no_lock_after_unlock nobody_unlocks sole_reader rid0 sole_reader_table
           true (mkTxn 1 SHRINKING ∅ ∅) (mkLM false ∅)).
  - reflexivity.
  - reflexivity.
  - vm_compute. reflexivity.
Defined.

(** A lock table without entries, not under strict two-phase locking. *)
Definition free_table : LockManager := mkLM false ∅.

Lemma lock_then_unlock_restores_witness :
  (let '(r, txn1, lm1) := LockShared nobody_unlocks late_reader rid0 free_table in
   r = true ∧
   Unlock txn1 rid0 lm1 = Some (true, SetState SHRINKING late_reader, free_table)) ∧
  (let '(r, txn1, lm1) := LockExclusive nobody_unlocks late_reader rid0 free_table in
   r = true ∧
   Unlock txn1 rid0 lm1 = Some (true, SetState SHRINKING late_reader, free_table)).
Proof.
  apply (lock_then_unlock_restores nobody_unlocks late_reader rid0 free_table).
  - reflexivity.
  - reflexivity.
  - reflexivity.
  - apply not_elem_of_empty.
  - apply not_elem_of_empty.
Defined.

End LockManager.

(* ===================================================================== *)
(** ** page/b_plus_tree_internal_page.cpp, index/b_plus_tree.cpp *)
(* ===================================================================== *)

Module BPlusTree.

Definition page_id_t : Type := Z.
Definition INVALID_PAGE_ID : page_id_t := -1.

Section Index.
Context {KeyType ValueType : Type}.

(** [KeyComparator]: the result is one of -1, 0, 1. *)
Variable comparator : KeyType → KeyType → Z.

(** The content of a key slot that was never written (a fresh page is
    zeroed): it is what [array[0].first] of a new root holds. *)
Variable zero_key : KeyType.

(** [BPlusTreePage::GetMinSize], defined in page/b_plus_tree_page.cpp,
    which is not among the sources: a function of whether the page is a
    leaf, its maximal size and its parent page id. *)
Variable min_size_of : bool → Z → page_id_t → Z.

(** Maximal sizes that [Init] computes from [PAGE_SIZE] and the sizes of
    the header and of [MappingType]. *)
Variable leaf_max_size : Z.
Variable internal_max_size : Z.

(** A page is its header and its array.  [GetSize()] is the length of the
    list: the list holds the entries [array[0 .. size)]; the page type tag
    is the constructor of [Page]. *)
Record InternalPage := mkInternal {
  int_max_size_ : Z;
  int_parent_page_id_ : page_id_t;
  int_page_id_ : page_id_t;
  int_array : list (KeyType * page_id_t)
}.

Record LeafPage := mkLeaf {
  leaf_max_size_ : Z;
  leaf_parent_page_id_ : page_id_t;
  leaf_page_id_ : page_id_t;
  next_page_id_ : page_id_t;
  prev_page_id_ : page_id_t;
  leaf_array : list (KeyType * ValueType)
}.

Inductive Page :=
| LEAF_PAGE (leaf : LeafPage)
| INTERNAL_PAGE (node : InternalPage).

(** *** BPlusTreePage: the common header *)

Definition IsLeafPage (p : Page) : bool :=
  match p with LEAF_PAGE _ => true | INTERNAL_PAGE _ => false end.
Definition GetSize (p : Page) : Z :=
  match p with
  | LEAF_PAGE l => Z.of_nat (length (leaf_array l))
  | INTERNAL_PAGE n => Z.of_nat (length (int_array n))
  end.
Definition GetMaxSize (p : Page) : Z :=
  match p with
  | LEAF_PAGE l => leaf_max_size_ l
  | INTERNAL_PAGE n => int_max_size_ n
  end.
Definition GetParentPageId (p : Page) : page_id_t :=
  match p with
  | LEAF_PAGE l => leaf_parent_page_id_ l
  | INTERNAL_PAGE n => int_parent_page_id_ n
  end.
Definition GetPageId (p : Page) : page_id_t :=
  match p with
  | LEAF_PAGE l => leaf_page_id_ l
  | INTERNAL_PAGE n => int_page_id_ n
  end.
Definition SetParentPageId (parent : page_id_t) (p : Page) : Page :=
  match p with
  | LEAF_PAGE l =>
      LEAF_PAGE (mkLeaf (leaf_max_size_ l) parent (leaf_page_id_ l)
                        (next_page_id_ l) (prev_page_id_ l) (leaf_array l))
  | INTERNAL_PAGE n =>
      INTERNAL_PAGE (mkInternal (int_max_size_ n) parent (int_page_id_ n)
                                (int_array n))
  end.
Definition GetMinSize (p : Page) : Z :=
  min_size_of (IsLeafPage p) (GetMaxSize p) (GetParentPageId p).

(** *** BPlusTreeInternalPage *)

(** [array[index]]; a slot past the entries reads as zeroed memory. *)
Definition int_at (n : InternalPage) (index : Z) : KeyType * page_id_t :=
  nth (Z.to_nat index) (int_array n) (zero_key, 0).
Definition int_size (n : InternalPage) : Z := Z.of_nat (length (int_array n)).

Definition int_KeyAt (n : InternalPage) (index : Z) : KeyType := (int_at n index).1.
Definition int_ValueAt (n : InternalPage) (index : Z) : page_id_t := (int_at n index).2.

(** [int ValueIndex(const ValueType &value)] *)
Fixpoint ValueIndex_from (i : Z) (l : list (KeyType * page_id_t)) (value : page_id_t) : Z :=
  match l with
  | [] => -1
  | e :: l' => if decide (e.2 = value) then i else ValueIndex_from (i + 1) l' value
  end.
Definition ValueIndex (n : InternalPage) (value : page_id_t) : Z :=
  ValueIndex_from 0 (int_array n) value.

(** The loop of [Lookup]:
    [while (start < end) { mid = start + (end - start) / 2;
       if (comparator(array[mid].first, key) == -1) start = mid + 1;
       else end = mid; }], its value is the final [start]. *)
Equations? search_loop (key_at : Z → KeyType) (key : KeyType) (start end_ : Z) : Z
  by wf (Z.to_nat (end_ - start)) lt :=
  search_loop key_at key start end_ with decide (start < end_) := {
    | left _ =>
        if decide (comparator (key_at (start + (end_ - start) / 2)) key = -1)
        then search_loop key_at key (start + (end_ - start) / 2 + 1) end_
        else search_loop key_at key start (start + (end_ - start) / 2);
    | right _ => start }.
Proof.
  all: assert (0 ≤ (end_ - start) / 2 < end_ - start)
         by (split; [apply Z.div_pos; lia|apply Z.div_lt_upper_bound; lia]);
       lia.
Qed.

(** [ValueType Lookup(const KeyType &key, const KeyComparator &comparator)] *)
Definition Lookup (n : InternalPage) (key : KeyType) : page_id_t :=
  int_ValueAt n (search_loop (int_KeyAt n) key 1 (int_size n) - 1).

(** [void Init(page_id_t page_id, page_id_t parent_id)] *)
Definition int_Init (page_id parent_id : page_id_t) : InternalPage :=
  mkInternal internal_max_size parent_id page_id [].

(** [void PopulateNewRoot(old_value, new_key, new_value)]: [array[0].first]
    keeps what the fresh page held. *)
Definition PopulateNewRoot (old_value : page_id_t) (new_key : KeyType)
    (new_value : page_id_t) (n : InternalPage) : InternalPage :=
  mkInternal (int_max_size_ n) (int_parent_page_id_ n) (int_page_id_ n)
             [((int_at n 0).1, old_value); (new_key, new_value)].

(** [int InsertNodeAfter(old_value, new_key, new_value)]; [None] when
    [assert(ret != -1)] fails. *)
Definition InsertNodeAfter (old_value : page_id_t) (new_key : KeyType)
    (new_value : page_id_t) (n : InternalPage) : option InternalPage :=
  let ret := ValueIndex n old_value in
  if decide (ret = -1) then None
  else
    Some (mkInternal (int_max_size_ n) (int_parent_page_id_ n) (int_page_id_ n)
            (take (Z.to_nat (ret + 1)) (int_array n)
               ++ (new_key, new_value)
               :: drop (Z.to_nat (ret + 1)) (int_array n))).

(** *** BPlusTreeLeafPage *)

(** Modelled from the spec: page/b_plus_tree_leaf_page.cpp is not among the
    sources (only its header is).  The leaf keeps its entries sorted by key
    and finds keys by binary search; [Insert] puts a new key at its sorted
    position and leaves a leaf that holds the key as it is, returning the
    size; [MoveHalfTo] moves the second half of the entries to the
    recipient and links the recipient after this leaf. *)
Definition leaf_size (l : LeafPage) : Z := Z.of_nat (length (leaf_array l)).
Definition leaf_KeyAt (l : LeafPage) (index : Z) : KeyType :=
  nth (Z.to_nat index) (leaf_array l).*1 zero_key.

Definition leaf_Init (page_id parent_id : page_id_t) : LeafPage :=
  mkLeaf leaf_max_size parent_id page_id INVALID_PAGE_ID INVALID_PAGE_ID [].

Definition KeyIndex (l : LeafPage) (key : KeyType) : Z :=
  search_loop (leaf_KeyAt l) key 0 (leaf_size l).

Definition leaf_Lookup (l : LeafPage) (key : KeyType) : option ValueType :=
  match leaf_array l !! Z.to_nat (KeyIndex l key) with
  | Some (k, v) => if decide (comparator k key = 0) then Some v else None
  | None => None
  end.

Definition leaf_with_array (l : LeafPage) (a : list (KeyType * ValueType)) : LeafPage :=
  mkLeaf (leaf_max_size_ l) (leaf_parent_page_id_ l) (leaf_page_id_ l)
         (next_page_id_ l) (prev_page_id_ l) a.

Definition leaf_insert_at (l : LeafPage) (index : Z) (key : KeyType) (value : ValueType)
  : LeafPage :=
  leaf_with_array l
    (take (Z.to_nat index) (leaf_array l)
       ++ (key, value) :: drop (Z.to_nat index) (leaf_array l)).

Definition leaf_Insert (key : KeyType) (value : ValueType) (l : LeafPage) : LeafPage :=
  match leaf_array l !! Z.to_nat (KeyIndex l key) with
  | Some (k, _) =>
      if decide (comparator k key = 0) then l
      else leaf_insert_at l (KeyIndex l key) key value
  | None => leaf_insert_at l (KeyIndex l key) key value
  end.

(** The two leaves after [this->MoveHalfTo(recipient)]. *)
Definition leaf_MoveHalfTo (l recipient : LeafPage) : LeafPage * LeafPage :=
  let start := Z.to_nat (leaf_size l / 2) in
  (mkLeaf (leaf_max_size_ l) (leaf_parent_page_id_ l) (leaf_page_id_ l)
          (leaf_page_id_ recipient) (prev_page_id_ l)
          (take start (leaf_array l)),
   mkLeaf (leaf_max_size_ recipient) (leaf_parent_page_id_ recipient)
          (leaf_page_id_ recipient)
          (next_page_id_ l) (leaf_page_id_ l)
          (leaf_array recipient ++ drop start (leaf_array l))).

(** *** BPlusTree *)

(** The pages of the index as the buffer pool serves them, by page id;
    [next_free_page_] is the next page id [NewPage] hands out, and
    [header_root_] the root page id recorded in the header page by
    [UpdateRootPageId].  Pin counts and latches are not represented. *)
Record BPlusTree := mkTree {
  root_page_id_ : page_id_t;
  pages_ : gmap page_id_t Page;
  next_free_page_ : page_id_t;
  header_root_ : page_id_t
}.

Definition write_page (ptr : page_id_t) (p : Page) (t : BPlusTree) : BPlusTree :=
  mkTree (root_page_id_ t) (<[ptr := p]> (pages_ t)) (next_free_page_ t)
         (header_root_ t).

Definition IsEmpty (t : BPlusTree) : bool :=
  bool_decide (root_page_id_ t = INVALID_PAGE_ID).

(** The descent of [FindLeafPage] from the page [page_id]; [fuel] bounds
    the number of pages visited; [None] when a page is missing or the fuel
    is exhausted.  The result is the leaf with the page id it was fetched
    under. *)
Fixpoint descend (fuel : nat) (page_id : page_id_t) (key : KeyType)
    (leftMost : bool) (t : BPlusTree) : option (page_id_t * LeafPage) :=
  match fuel with
  | O => None
  | S fuel' =>
      match pages_ t !! page_id with
      | None => None
      | Some (LEAF_PAGE leaf) => Some (page_id, leaf)
      | Some (INTERNAL_PAGE ip) =>
          descend fuel' (if leftMost then int_ValueAt ip 0 else Lookup ip key)
                  key leftMost t
      end
  end.

(** [FindLeafPage(key, transaction = nullptr, op_type, leftMost)] *)
Definition FindLeafPage (fuel : nat) (key : KeyType) (leftMost : bool)
    (t : BPlusTree) : option (page_id_t * LeafPage) :=
  if IsEmpty t then None else descend fuel (root_page_id_ t) key leftMost t.

(** [bool GetValue(key, result)]: [Some (Some v)] is the result true with
    [result[0] = v], [Some None] the result false. *)
Definition GetValue (fuel : nat) (key : KeyType) (t : BPlusTree)
  : option (option ValueType) :=
  '(_, leaf) ← FindLeafPage fuel key false t;
  Some (leaf_Lookup leaf key).

(** The loop at the end of the internal [MoveHalfTo]: every child of the
    recipient gets the recipient as parent. *)
Fixpoint reparent (children : list page_id_t) (parent : page_id_t)
    (pages : gmap page_id_t Page) : option (gmap page_id_t Page) :=
  match children with
  | [] => Some pages
  | c :: rest =>
      page ← pages !! c;
      reparent rest parent (<[c := SetParentPageId parent page]> pages)
  end.

(** [Split] of an internal page: [NewPage], [Init], [MoveHalfTo].  The
    result is the page id of the new page. *)
Definition Split_internal (ptr : page_id_t) (t : BPlusTree)
  : option (page_id_t * BPlusTree) :=
  page ← pages_ t !! ptr;
  match page with
  | LEAF_PAGE _ => None
  | INTERNAL_PAGE node =>
      let page_id := next_free_page_ t in
      let recipient := int_Init page_id (int_parent_page_id_ node) in
      let start := Z.to_nat (int_max_size_ node / 2) in
      let node' := mkInternal (int_max_size_ node) (int_parent_page_id_ node)
                              (int_page_id_ node) (take start (int_array node)) in
      let recipient' := mkInternal (int_max_size_ recipient)
                                   (int_parent_page_id_ recipient)
                                   (int_page_id_ recipient)
                                   (drop start (int_array node)) in
      pages' ← reparent (int_array recipient').*2 (int_page_id_ recipient')
                  (<[page_id := INTERNAL_PAGE recipient']>
                     (<[ptr := INTERNAL_PAGE node']> (pages_ t)));
      Some (page_id,
            mkTree (root_page_id_ t) pages' (page_id + 1) (header_root_ t))
  end.

(** [Split] of a leaf page.  The leaf that followed the split leaf gets
    the new page as its predecessor. *)
Definition Split_leaf (ptr : page_id_t) (t : BPlusTree)
  : option (page_id_t * BPlusTree) :=
  page ← pages_ t !! ptr;
  match page with
  | INTERNAL_PAGE _ => None
  | LEAF_PAGE node =>
      let page_id := next_free_page_ t in
      let '(node', recipient') :=
        leaf_MoveHalfTo node (leaf_Init page_id (leaf_parent_page_id_ node)) in
      let pages1 := <[page_id := LEAF_PAGE recipient']>
                      (<[ptr := LEAF_PAGE node']> (pages_ t)) in
      let pages2 :=
        match pages1 !! next_page_id_ node with
        | Some (LEAF_PAGE nxt) =>
            <[next_page_id_ node :=
                LEAF_PAGE (mkLeaf (leaf_max_size_ nxt) (leaf_parent_page_id_ nxt)
                                  (leaf_page_id_ nxt) (next_page_id_ nxt)
                                  page_id (leaf_array nxt))]> pages1
        | _ => pages1
        end in
      Some (page_id,
            mkTree (root_page_id_ t) pages2 (page_id + 1) (header_root_ t))
  end.

(** [void InsertIntoParent(old_node, key, new_node)]; the two nodes are
    given by the page ids they were fetched under. *)
Fixpoint InsertIntoParent (fuel : nat) (old_ptr : page_id_t) (key : KeyType)
    (new_ptr : page_id_t) (t : BPlusTree) : option BPlusTree :=
  match fuel with
  | O => None
  | S fuel' =>
      old_node ← pages_ t !! old_ptr;
      new_node ← pages_ t !! new_ptr;
      if decide (GetParentPageId old_node = INVALID_PAGE_ID) then
        let parent_pid := next_free_page_ t in
        let parent :=
          PopulateNewRoot (GetPageId old_node) key (GetPageId new_node)
                          (int_Init parent_pid INVALID_PAGE_ID) in
        Some (mkTree parent_pid
                (<[parent_pid := INTERNAL_PAGE parent]>
                   (<[new_ptr := SetParentPageId parent_pid new_node]>
                      (<[old_ptr := SetParentPageId parent_pid old_node]>
                         (pages_ t))))
                (parent_pid + 1)
                parent_pid)
      else
        let parent_pid := GetParentPageId old_node in
        page ← pages_ t !! parent_pid;
        match page with
        | LEAF_PAGE _ => None
        | INTERNAL_PAGE parent =>
            parent' ← InsertNodeAfter (GetPageId old_node) key
                                      (GetPageId new_node) parent;
            let t1 := write_page parent_pid (INTERNAL_PAGE parent') t in
            if decide (int_size parent' > int_max_size_ parent') then
              '(split_ptr, t2) ← Split_internal parent_pid t1;
              new_page ← pages_ t2 !! split_ptr;
              match new_page with
              | LEAF_PAGE _ => None
              | INTERNAL_PAGE new_leaf =>
                  InsertIntoParent fuel' parent_pid (int_KeyAt new_leaf 0)
                                   split_ptr t2
              end
            else Some t1
        end
  end.

(** The key [InsertIntoLeaf] hands to [InsertIntoParent] after a split:
    [left_leaf->KeyAt(left_leaf->GetSize()-1)]. *)
Definition split_separator (left_leaf : LeafPage) : KeyType :=
  leaf_KeyAt left_leaf (leaf_size left_leaf - 1).

(** [bool InsertIntoLeaf(key, value, transaction = nullptr)] *)
Definition InsertIntoLeaf (fuel : nat) (key : KeyType) (value : ValueType)
    (t : BPlusTree) : option (bool * BPlusTree) :=
  '(ptr, leaf) ← FindLeafPage fuel key false t;
  let osize := leaf_size leaf in
  let leaf' := leaf_Insert key value leaf in
  let new_size := leaf_size leaf' in
  let t1 := write_page ptr (LEAF_PAGE leaf') t in
  if decide (new_size > leaf_max_size_ leaf') then
    '(right_ptr, t2) ← Split_leaf ptr t1;
    left_page ← pages_ t2 !! ptr;
    match left_page with
    | INTERNAL_PAGE _ => None
    | LEAF_PAGE left_leaf =>
        t3 ← InsertIntoParent fuel ptr (split_separator left_leaf) right_ptr t2;
        Some (bool_decide (osize ≠ new_size), t3)
    end
  else Some (bool_decide (osize ≠ new_size), t1).

(** [void StartNewTree(key, value)] *)
Definition StartNewTree (fuel : nat) (key : KeyType) (value : ValueType)
    (t : BPlusTree) : option BPlusTree :=
  let t1 :=
    if decide (root_page_id_ t = INVALID_PAGE_ID) then
      let page_id := next_free_page_ t in
      mkTree page_id
             (<[page_id := LEAF_PAGE (leaf_Init page_id INVALID_PAGE_ID)]> (pages_ t))
             (page_id + 1)
             page_id
    else t in
  '(_, t2) ← InsertIntoLeaf fuel key value t1;
  Some t2.

(** [bool Insert(key, value, transaction = nullptr)] *)
Definition Insert (fuel : nat) (key : KeyType) (value : ValueType)
    (t : BPlusTree) : option (bool * BPlusTree) :=
  if IsEmpty t then
    t' ← StartNewTree fuel key value t;
    Some (true, t')
  else InsertIntoLeaf fuel key value t.

(** [bool AdjustRoot(BPlusTreePage *old_root_node)]; [None] when the new
    root page cannot be fetched. *)
Definition AdjustRoot (old_root_node : Page) (t : BPlusTree)
  : option (bool * BPlusTree) :=
  match old_root_node with
  | LEAF_PAGE _ =>
      if decide (GetSize old_root_node < GetMinSize old_root_node) then
        Some (true,
              mkTree INVALID_PAGE_ID (pages_ t) (next_free_page_ t)
                     INVALID_PAGE_ID)
      else Some (false, t)
  | INTERNAL_PAGE parent =>
      if decide (GetSize old_root_node = 1) then
        let root := int_ValueAt parent 0 in
        new_root ← pages_ t !! root;
        Some (true,
              mkTree root
                     (<[root := SetParentPageId INVALID_PAGE_ID new_root]> (pages_ t))
                     (next_free_page_ t)
                     root)
      else Some (false, t)
  end.

(** *** BPlusTreeInternalPage: removal *)

(** The loop of [Remove]:
    [for (int i = index; i + 1 < GetSize(); i++) array[i] = array[i + 1];],
    [count] iterations from [i] on. *)
Fixpoint Remove_loop (count i : nat) (a : list (KeyType * page_id_t))
  : list (KeyType * page_id_t) :=
  match count with
  | O => a
  | S count' =>
      Remove_loop count' (S i)
        (match a !! S i with Some e => <[i := e]> a | None => a end)
  end.

(** [void Remove(int index)].  The entries are the first [size - 1] slots
    after the loop.  [None] is a page outside this representation: a negative
    index makes the loop write before the array, and an empty page gets the
    size -1. *)
Definition int_Remove (index : Z) (n : InternalPage) : option InternalPage :=
  if decide (index < 0 ∨ int_size n = 0) then None
  else
    Some (mkInternal (int_max_size_ n) (int_parent_page_id_ n) (int_page_id_ n)
            (take (Z.to_nat (int_size n - 1))
               (Remove_loop (Z.to_nat (int_size n - 1 - index)) (Z.to_nat index)
                            (int_array n)))).

(** *** BPlusTreeInternalPage: redistribution *)

(** [KeyType KeyAt(int index)] and [void SetKeyAt(int index, key)] with
    their assertion [index >= 0 && index < GetSize()]. *)
Definition KeyAt (n : InternalPage) (index : Z) : option KeyType :=
  if decide (0 ≤ index < int_size n) then Some (int_KeyAt n index) else None.

Definition with_array (n : InternalPage) (a : list (KeyType * page_id_t)) : InternalPage :=
  mkInternal (int_max_size_ n) (int_parent_page_id_ n) (int_page_id_ n) a.

Definition SetKeyAt (index : Z) (key : KeyType) (n : InternalPage) : option InternalPage :=
  if decide (0 ≤ index < int_size n) then
    Some (with_array n (<[Z.to_nat index := (key, int_ValueAt n index)]> (int_array n)))
  else None.

(** [FetchPage] of a page that is used as an internal page. *)
Definition fetch_internal (pages : gmap page_id_t Page) (ptr : page_id_t)
  : option InternalPage :=
  match pages !! ptr with Some (INTERNAL_PAGE n) => Some n | _ => None end.

(** [void MoveFirstToEndOf(recipient, buffer_pool_manager)] on the pages
    fetched under [this_ptr] and [rec_ptr].  [None] when an assertion fails
    or a page cannot be fetched, and for what this representation leaves
    out: two of this page, the recipient and the parent being one page, and
    an empty page (its slot 0 is not an entry).  The loop that closes the
    gap is the loop of [Remove] from index 0. *)
Definition MoveFirstToEndOf (this_ptr rec_ptr : page_id_t)
    (pages : gmap page_id_t Page) : option (gmap page_id_t Page) :=
  this ← fetch_internal pages this_ptr;
  recipient ← fetch_internal pages rec_ptr;
  let parent_ptr := int_parent_page_id_ this in
  if decide (this_ptr = rec_ptr ∨ parent_ptr = this_ptr ∨ parent_ptr = rec_ptr)
  then None
  else if decide (int_parent_page_id_ recipient ≠ parent_ptr) then None
  else
    let recipient1 := with_array recipient (int_array recipient ++ [int_at this 0]) in
    this1 ← int_Remove 0 this;
    parent ← fetch_internal pages parent_ptr;
    let index := ValueIndex parent (int_page_id_ this1) in
    key ← KeyAt parent index;
    recipient2 ← SetKeyAt (int_size recipient1 - 1) key recipient1;
    first_key ← KeyAt this1 0;
    parent1 ← SetKeyAt index first_key parent;
    let pages1 :=
      <[parent_ptr := INTERNAL_PAGE parent1]>
        (<[rec_ptr := INTERNAL_PAGE recipient2]>
           (<[this_ptr := INTERNAL_PAGE this1]> pages)) in
    let new_page_id := int_ValueAt recipient2 (int_size recipient2 - 1) in
    new_page ← pages1 !! new_page_id;
    Some (<[new_page_id := SetParentPageId (int_page_id_ recipient2) new_page]> pages1).

(** [void MoveLastToFrontOf(recipient, parent_index, buffer_pool_manager)];
    the body does not read [parent_index].  [None] as for
    [MoveFirstToEndOf]. *)
Definition MoveLastToFrontOf (this_ptr rec_ptr : page_id_t) (parent_index : Z)
    (pages : gmap page_id_t Page) : option (gmap page_id_t Page) :=
  this ← fetch_internal pages this_ptr;
  recipient ← fetch_internal pages rec_ptr;
  let parent_ptr := int_parent_page_id_ this in
  if decide (this_ptr = rec_ptr ∨ parent_ptr = this_ptr ∨ parent_ptr = rec_ptr)
  then None
  else if decide (int_parent_page_id_ recipient ≠ parent_ptr) then None
  else if decide (int_size this = 0) then None
  else
    let recipient1 :=
      with_array recipient (int_at this (int_size this - 1) :: int_array recipient) in
    let this1 :=
      with_array this (take (Z.to_nat (int_size this - 1)) (int_array this)) in
    parent ← fetch_internal pages parent_ptr;
    let index := ValueIndex parent (int_page_id_ recipient1) in
    key ← KeyAt parent index;
    recipient2 ← SetKeyAt 1 key recipient1;
    first_key ← KeyAt recipient2 0;
    parent1 ← SetKeyAt index first_key parent;
    let pages1 :=
      <[parent_ptr := INTERNAL_PAGE parent1]>
        (<[rec_ptr := INTERNAL_PAGE recipient2]>
           (<[this_ptr := INTERNAL_PAGE this1]> pages)) in
    let new_page_id := int_ValueAt recipient2 0 in
    new_page ← pages1 !! new_page_id;
    Some (<[new_page_id := SetParentPageId (int_page_id_ recipient2) new_page]> pages1).

(** The entries of a page whose slot 0 carries the separator [key] that the
    parent keeps for it. *)
Definition with_first_key (key : KeyType) (a : list (KeyType * page_id_t))
  : list (KeyType * page_id_t) :=
  match a with
  | [] => []
  | e :: a' => (key, e.2) :: a'
  end.

(** *** IndexIterator *)

(** Modelled from the spec: [GetItem] of page/b_plus_tree_leaf_page.cpp,
    which is not among the sources, is the entry [array[index]]; [None] for
    an index that is no entry. *)
Definition leaf_GetItem (l : LeafPage) (index : Z) : option (KeyType * ValueType) :=
  if decide (0 ≤ index) then leaf_array l !! Z.to_nat index else None.

(** [FetchPage] of a page that is used as a leaf page. *)
Definition fetch_leaf (pages : gmap page_id_t Page) (ptr : page_id_t)
  : option LeafPage :=
  match pages !! ptr with Some (LEAF_PAGE l) => Some l | _ => None end.

(** The iterator reads the pages of a store that does not change while it
    lives; [it_leaf_page_] is the page id its leaf was fetched under, and the
    fields are the members [leaf_page_], [pos_] and [end_]. *)
Record IndexIterator := mkIterator {
  it_leaf_page_ : page_id_t;
  it_pos_ : Z;
  it_end_ : bool
}.

(** [IndexIterator(page_id, idx, buff)]; [None] when [GetLeafPage] returns
    the null pointer or the page cannot be fetched. *)
Definition IndexIterator_new (pages : gmap page_id_t Page) (page_id : page_id_t)
    (idx : Z) : option IndexIterator :=
  if decide (page_id = INVALID_PAGE_ID) then None
  else
    leaf ← fetch_leaf pages page_id;
    Some (mkIterator page_id idx (bool_decide (leaf_size leaf ≤ idx))).

Definition isEnd (it : IndexIterator) : bool := it_end_ it.

(** [operator*]; [None] when [assert(!isEnd())] fails. *)
Definition operator_star (pages : gmap page_id_t Page) (it : IndexIterator)
  : option (KeyType * ValueType) :=
  if isEnd it then None
  else
    leaf ← fetch_leaf pages (it_leaf_page_ it);
    leaf_GetItem leaf (it_pos_ it).

(** [operator++] *)
Definition operator_incr (pages : gmap page_id_t Page) (it : IndexIterator)
  : option IndexIterator :=
  leaf ← fetch_leaf pages (it_leaf_page_ it);
  let pos := it_pos_ it + 1 in
  if decide (pos >= leaf_size leaf) then
    let next := next_page_id_ leaf in
    if decide (next = INVALID_PAGE_ID) then
      Some (mkIterator (it_leaf_page_ it) pos true)
    else
      _ ← fetch_leaf pages next;
      Some (mkIterator next 0 (it_end_ it))
  else Some (mkIterator (it_leaf_page_ it) pos (it_end_ it)).

(** A range scan, [for (; !it.isEnd(); ++it) ... *it ...]: the entries it
    reads, for at most [fuel] tests of [isEnd]. *)
Fixpoint scan (fuel : nat) (pages : gmap page_id_t Page) (it : IndexIterator)
  : option (list (KeyType * ValueType)) :=
  match fuel with
  | O => None
  | S fuel' =>
      if isEnd it then Some []
      else
        item ← operator_star pages it;
        it' ← operator_incr pages it;
        rest ← scan fuel' pages it';
        Some (item :: rest)
  end.

(** The leaves [ls] are linked from the page [ptr] on by their next page
    ids, each holds an entry, and the last one has no successor. *)
Fixpoint leaf_chain (pages : gmap page_id_t Page) (ptr : page_id_t)
    (ls : list LeafPage) : Prop :=
  match ls with
  | [] => ptr = INVALID_PAGE_ID
  | l :: rest =>
      ptr ≠ INVALID_PAGE_ID ∧ pages !! ptr = Some (LEAF_PAGE l) ∧
      leaf_array l ≠ [] ∧ leaf_chain pages (next_page_id_ l) rest
  end.

(** *** The search loop finds a lower bound *)

Lemma search_loop_spec (key_at : Z → KeyType) (key : KeyType) (lo hi : Z) :
  lo ≤ hi →
  (∀ i j, lo ≤ i → i ≤ j → j < hi →
          comparator (key_at j) key = -1 → comparator (key_at i) key = -1) →
  lo ≤ search_loop key_at key lo hi ≤ hi ∧
  (∀ j, lo ≤ j < search_loop key_at key lo hi → comparator (key_at j) key = -1) ∧
  (∀ j, search_loop key_at key lo hi ≤ j < hi → comparator (key_at j) key ≠ -1).
Proof.
  funelim (search_loop key_at key lo hi); intros Hle Hmono.
  - assert (Hmid : 0 ≤ (end_ - start) / 2 < end_ - start)
      by (split; [apply Z.div_pos; lia|apply Z.div_lt_upper_bound; lia]).
    set (mid := start + (end_ - start) / 2) in *.
    destruct (decide (comparator (key_at mid) key = -1)) as [Hlt|Hge].
    + destruct (H Hlt) as (Hr & Hlow & Hhigh); [lia| |].
      { intros i j ? ? ?. apply Hmono; lia. }
      split; [lia|]. split; [|exact Hhigh].
      intros j Hj. destruct (decide (j ≤ mid)) as [Hjm|Hjm].
      * apply (Hmono j mid); [lia|lia|lia|done].
      * apply Hlow. lia.
    + destruct (H0 Hge) as (Hr & Hlow & Hhigh); [lia| |].
      { intros i j ? ? ?. apply Hmono; lia. }
      split; [lia|]. split; [exact Hlow|].
      intros j Hj. destruct (decide (j < mid)) as [Hjm|Hjm].
      * apply Hhigh. lia.
      * intros Hlt. apply Hge. apply (Hmono mid j); [lia|lia|lia|done].
  - split; [lia|]. split; intros j Hj; lia.
Qed.

(** C3 (amended).  On an internal page with at least one child whose
    separators at indices [1 .. size) increase strictly (for a comparator
    that is transitive and irreflexive), [Lookup] returns
    [array[i-1].second] where [i] is the smallest index in [1 .. size) whose
    separator is not below the search key ([i = size] when every separator
    is below it); a search key equal to the separator at index [j] descends
    into child [j-1]. *)
Theorem Lookup_first_separator_not_below (n : InternalPage) (key : KeyType) :
  (∀ a b c, comparator a b = -1 → comparator b c = -1 → comparator a c = -1) →
  (∀ a, comparator a a ≠ -1) →
  1 ≤ int_size n →
  (∀ i j, 1 ≤ i → i < j → j < int_size n →
          comparator (int_KeyAt n i) (int_KeyAt n j) = -1) →
  (∃ i, 1 ≤ i ≤ int_size n ∧
        Lookup n key = int_ValueAt n (i - 1) ∧
        (∀ j, 1 ≤ j < i → comparator (int_KeyAt n j) key = -1) ∧
        (∀ j, i ≤ j < int_size n → comparator (int_KeyAt n j) key ≠ -1)) ∧
  (∀ j, 1 ≤ j < int_size n → Lookup n (int_KeyAt n j) = int_ValueAt n (j - 1)).
Proof.
  intros Htrans Hirr Hsize Hsorted.
  assert (Hspec : ∀ k,
            1 ≤ search_loop (int_KeyAt n) k 1 (int_size n) ≤ int_size n ∧
            (∀ j, 1 ≤ j < search_loop (int_KeyAt n) k 1 (int_size n) →
                  comparator (int_KeyAt n j) k = -1) ∧
            (∀ j, search_loop (int_KeyAt n) k 1 (int_size n) ≤ j < int_size n →
                  comparator (int_KeyAt n j) k ≠ -1)).
  { intros k. apply search_loop_spec; [done|].
    intros i j Hi Hij Hj Hlt.
    destruct (decide (i = j)) as [->|Hne]; [done|].
    apply (Htrans _ (int_KeyAt n j)); [|done]. apply Hsorted; lia. }
  split.
  - destruct (Hspec key) as (Hr & Hlow & Hhigh).
    exists (search_loop (int_KeyAt n) key 1 (int_size n)).
    split; [exact Hr|]. split; [reflexivity|]. split; [exact Hlow|exact Hhigh].
  - intros j Hj. destruct (Hspec (int_KeyAt n j)) as (Hr & Hlow & Hhigh).
    unfold Lookup. f_equal. f_equal.
    set (r := search_loop _ _ _ _) in *.
    destruct (decide (r = j)) as [|Hne]; [done|]. exfalso.
    destruct (decide (r < j)) as [Hlt|Hge].
    + apply (Hhigh r); [lia|]. apply Hsorted; lia.
    + apply (Hirr (int_KeyAt n j)). apply Hlow. lia.
Qed.

(** *** AdjustRoot *)

(** The branches of [AdjustRoot], whatever [GetMinSize] is: on an internal
    page of size 1 it makes the sole child the root, clears the parent
    pointer of the child and returns true; on a leaf whose size is below
    [GetMinSize()] it sets the root page id to INVALID and returns true; in
    every other case it returns false and leaves the tree as it is. *)
Lemma AdjustRoot_cases (old_root_node : Page) (t : BPlusTree) :
  (∀ parent new_root,
     old_root_node = INTERNAL_PAGE parent → GetSize old_root_node = 1 →
     pages_ t !! int_ValueAt parent 0 = Some new_root →
     AdjustRoot old_root_node t
     = Some (true,
             mkTree (int_ValueAt parent 0)
                    (<[int_ValueAt parent 0 :=
                         SetParentPageId INVALID_PAGE_ID new_root]> (pages_ t))
                    (next_free_page_ t)
                    (int_ValueAt parent 0))) ∧
  (IsLeafPage old_root_node = true →
     GetSize old_root_node < GetMinSize old_root_node →
     AdjustRoot old_root_node t
     = Some (true,
             mkTree INVALID_PAGE_ID (pages_ t) (next_free_page_ t) INVALID_PAGE_ID)) ∧
  (IsLeafPage old_root_node = true →
     GetMinSize old_root_node ≤ GetSize old_root_node →
     AdjustRoot old_root_node t = Some (false, t)) ∧
  (IsLeafPage old_root_node = false → GetSize old_root_node ≠ 1 →
     AdjustRoot old_root_node t = Some (false, t)).
Proof.
  unfold AdjustRoot. repeat split.
  - intros parent new_root -> Hsize Hchild.
    rewrite decide_True by done. by rewrite Hchild.
  - intros Hleaf Hlt. destruct old_root_node; [|done].
    by rewrite decide_True.
  - intros Hleaf Hge. destruct old_root_node; [|done].
    rewrite decide_False; [done|lia].
  - intros Hleaf Hne. destruct old_root_node; [done|].
    by rewrite decide_False.
Qed.

(** When the minimal size of a root leaf is 1, a leaf root is given up
    exactly when it is empty. *)
Lemma AdjustRoot_leaf_min_one (leaf : LeafPage) (t : BPlusTree) :
  GetMinSize (LEAF_PAGE leaf) = 1 →
  (AdjustRoot (LEAF_PAGE leaf) t
   = Some (true, mkTree INVALID_PAGE_ID (pages_ t) (next_free_page_ t)
                        INVALID_PAGE_ID)
   ↔ GetSize (LEAF_PAGE leaf) = 0).
Proof.
  intros Hmin. unfold AdjustRoot. rewrite Hmin.
  assert (0 ≤ GetSize (LEAF_PAGE leaf)) by (simpl; lia).
  case_decide; split; intros; (done || lia).
Qed.

(** *** Insert of a key that is present *)

Lemma descend_fetch fuel page_id key leftMost t ptr leaf :
  descend fuel page_id key leftMost t = Some (ptr, leaf) →
  pages_ t !! ptr = Some (LEAF_PAGE leaf).
Proof.
  revert page_id. induction fuel as [|fuel IH]; intros page_id; simpl; [done|].
  destruct (pages_ t !! page_id) as [[l|ip]|] eqn:Hp; [|by apply IH|done].
  by intros [= <- <-].
Qed.

Lemma FindLeafPage_fetch fuel key leftMost t ptr leaf :
  FindLeafPage fuel key leftMost t = Some (ptr, leaf) →
  IsEmpty t = false ∧ pages_ t !! ptr = Some (LEAF_PAGE leaf).
Proof.
  unfold FindLeafPage. destruct (IsEmpty t); [done|].
  intros Hd. split; [done|]. by eapply descend_fetch.
Qed.

Lemma write_page_same ptr p t :
  pages_ t !! ptr = Some p → write_page ptr p t = t.
Proof.
  intros Hp. unfold write_page. rewrite insert_id by done. by destruct t.
Qed.

Lemma leaf_Insert_present key value value' leaf :
  leaf_Lookup leaf key = Some value → leaf_Insert key value' leaf = leaf.
Proof.
  unfold leaf_Lookup, leaf_Insert.
  destruct (leaf_array leaf !! Z.to_nat (KeyIndex leaf key)) as [[k v]|]; [|done].
  by case_decide.
Qed.

(** C7.  When [GetValue key] succeeds with [value] (and the leaf holding
    the key is not above its maximal size), [Insert key value'] returns
    false and leaves the tree as it is; [GetValue key] still succeeds with
    [value]. *)
Theorem Insert_duplicate_key fuel key value value' t :
  GetValue fuel key t = Some (Some value) →
  (∀ ptr leaf, FindLeafPage fuel key false t = Some (ptr, leaf) →
               leaf_size leaf ≤ leaf_max_size_ leaf) →
  ∃ t', Insert fuel key value' t = Some (false, t') ∧
        t' = t ∧
        GetValue fuel key t' = Some (Some value).
Proof.
  intros Hget Hmax. exists t. split; [|by split].
  unfold GetValue in Hget.
  destruct (FindLeafPage fuel key false t) as [[ptr leaf]|] eqn:Hfind;
    simpl in Hget; [|done].
  injection Hget as Hlook.
  destruct (FindLeafPage_fetch _ _ _ _ _ _ Hfind) as [Hne Hpage].
  unfold Insert. rewrite Hne. unfold InsertIntoLeaf. rewrite Hfind. simpl.
  rewrite (leaf_Insert_present _ _ _ _ Hlook).
  specialize (Hmax ptr leaf eq_refl).
  rewrite decide_False by lia.
  rewrite write_page_same by done.
  by rewrite bool_decide_eq_false_2 by (intros Hc; by apply Hc).
Qed.

(** *** The separator after a leaf split *)

Ltac map_lookups :=
  repeat first [rewrite lookup_insert_eq | rewrite lookup_insert_ne by congruence].

Lemma nth_fst_last (l : list (KeyType * ValueType)) :
  l ≠ [] →
  last l.*1 = Some (nth (Z.to_nat (Z.of_nat (length l) - 1)) l.*1 zero_key).
Proof.
  intros Hne. destruct (decide (l = [])) as [|_]; [done|].
  assert (Hlen : (length l.*1 > 0)%nat).
  { rewrite length_fmap. destruct l; [done|simpl; lia]. }
  rewrite last_lookup.
  replace (Z.to_nat (Z.of_nat (length l) - 1)) with (pred (length l.*1))
    by (rewrite length_fmap; lia).
  destruct (l.*1 !! pred (length l.*1)) as [k|] eqn:Hk.
  - by rewrite (nth_lookup_Some _ _ _ _ Hk).
  - apply lookup_ge_None in Hk. lia.
Qed.

(** C2 (amended).  When [InsertIntoLeaf] overflows the leaf [L] it found
    (the page id handed out next is unused, [L] is not its own successor,
    and the leaf with the new entry is sorted), it splits it into [L] and a
    new right leaf [R] and hands to [InsertIntoParent] the last key of [L]
    after the split, which is strictly below the first key of [R]. *)
Theorem leaf_split_separator_is_last_of_left fuel key value t ptr leaf :
  FindLeafPage fuel key false t = Some (ptr, leaf) →
  leaf_size (leaf_Insert key value leaf) > leaf_max_size_ leaf →
  1 ≤ leaf_max_size_ leaf →
  pages_ t !! next_free_page_ t = None →
  next_page_id_ leaf ≠ ptr →
  StronglySorted (λ a b, comparator a b = -1)
                 (leaf_array (leaf_Insert key value leaf)).*1 →
  ∃ L R t2 first_of_R,
    Split_leaf ptr (write_page ptr (LEAF_PAGE (leaf_Insert key value leaf)) t)
      = Some (next_free_page_ t, t2) ∧
    pages_ t2 !! ptr = Some (LEAF_PAGE L) ∧
    pages_ t2 !! next_free_page_ t = Some (LEAF_PAGE R) ∧
    InsertIntoLeaf fuel key value t
      = (t3 ← InsertIntoParent fuel ptr (split_separator L) (next_free_page_ t) t2;
         Some (bool_decide (leaf_size leaf ≠ leaf_size (leaf_Insert key value leaf)),
               t3)) ∧
    last (leaf_array L).*1 = Some (split_separator L) ∧
    head (leaf_array R).*1 = Some first_of_R ∧
    comparator (split_separator L) first_of_R = -1.
Proof.
  intros Hfind Hover Hmax Hfresh Hnext Hsorted.
  destruct (FindLeafPage_fetch _ _ _ _ _ _ Hfind) as [Hne Hpage].
  set (leaf' := leaf_Insert key value leaf) in *.
  assert (Hmax' : leaf_max_size_ leaf' = leaf_max_size_ leaf).
  { unfold leaf', leaf_Insert, leaf_insert_at, leaf_with_array.
    destruct (leaf_array leaf !! _) as [[k v]|]; [case_decide|]; done. }
  assert (Hnext' : next_page_id_ leaf' = next_page_id_ leaf).
  { unfold leaf', leaf_Insert, leaf_insert_at, leaf_with_array.
    destruct (leaf_array leaf !! _) as [[k v]|]; [case_decide|]; done. }
  assert (Hptr : ptr ≠ next_free_page_ t) by (intros ->; congruence).
  set (n := length (leaf_array leaf')) in *.
  assert (Hn : (2 ≤ n)%nat) by (unfold leaf_size in Hover; fold n in Hover; lia).
  set (start := Z.to_nat (leaf_size leaf' / 2)).
  assert (Hstart : (1 ≤ start < n)%nat).
  { unfold start, leaf_size. fold n.
    assert (1 ≤ Z.of_nat n / 2) by (apply Z.div_le_lower_bound; lia).
    assert (Z.of_nat n / 2 < Z.of_nat n) by (apply Z.div_lt_upper_bound; lia).
    lia. }
  set (L := mkLeaf (leaf_max_size_ leaf') (leaf_parent_page_id_ leaf')
                   (leaf_page_id_ leaf') (next_free_page_ t)
                   (prev_page_id_ leaf') (take start (leaf_array leaf'))).
  set (R0 := mkLeaf leaf_max_size (leaf_parent_page_id_ leaf') (next_free_page_ t)
                    (next_page_id_ leaf') (leaf_page_id_ leaf')
                    (drop start (leaf_array leaf'))).
  assert (Hsplit : ∃ t2 R,
    Split_leaf ptr (write_page ptr (LEAF_PAGE leaf') t) = Some (next_free_page_ t, t2) ∧
    pages_ t2 !! ptr = Some (LEAF_PAGE L) ∧
    pages_ t2 !! next_free_page_ t = Some (LEAF_PAGE R) ∧
    leaf_array R = drop start (leaf_array leaf')).
  { unfold Split_leaf. simpl. rewrite lookup_insert_eq. simpl.
    fold start L R0.
    match goal with
    | |- context [match ?m !! next_page_id_ leaf' with _ => _ end] =>
        destruct (m !! next_page_id_ leaf') as [[nxt|ip]|] eqn:Hnxt
    end.
    - destruct (decide (next_page_id_ leaf' = next_free_page_ t)) as [Heq|Hneq].
      + rewrite Heq in Hnxt |- *.
        rewrite lookup_insert_eq in Hnxt. injection Hnxt as <-.
        eexists _, _. split; [reflexivity|]. simpl.
        split; [|split]; [by map_lookups|by map_lookups|done].
      + eexists _, R0. split; [reflexivity|]. simpl.
        assert (next_page_id_ leaf' ≠ ptr) by congruence.
        split; [|split]; [by map_lookups|by map_lookups|done].
    - eexists _, R0. split; [reflexivity|]. simpl.
      split; [|split]; [by map_lookups|by map_lookups|done].
    - eexists _, R0. split; [reflexivity|]. simpl.
      split; [|split]; [by map_lookups|by map_lookups|done]. }
  destruct Hsplit as (t2 & R & Hsp & HL & HR & HRarr).
  assert (HLne : leaf_array L ≠ []).
  { simpl. intros Hnil. apply (f_equal length) in Hnil.
    rewrite length_take in Hnil. simpl in Hnil. fold n in Hnil. lia. }
  assert (Hlast : last (leaf_array L).*1 = Some (split_separator L)).
  { unfold split_separator, leaf_KeyAt, leaf_size. by apply nth_fst_last. }
  destruct (leaf_array R) as [|[k0 v0] rest] eqn:HRa.
  { exfalso. apply (f_equal length) in HRarr. rewrite length_drop in HRarr.
    simpl in HRarr. fold n in HRarr. lia. }
  exists L, R, t2, k0. split; [done|]. split; [done|]. split; [done|].
  split.
  { unfold InsertIntoLeaf. rewrite Hfind. simpl. fold leaf'.
    rewrite Hmax'. rewrite decide_True by done.
    rewrite Hsp. simpl. rewrite HL. done. }
  split; [done|]. split; [by rewrite HRa|].
  rewrite <- (take_drop start (leaf_array leaf')), fmap_app in Hsorted.
  eapply (StronglySorted_app_1_elem_of _ _ _ (split_separator L) k0) in Hsorted.
  - exact Hsorted.
  - apply last_Some_elem_of. exact Hlast.
  - rewrite <- HRarr. simpl. apply list_elem_of_here.
Qed.

(** *** Children of an internal page *)

Lemma ValueIndex_from_absent (l : list (KeyType * page_id_t)) (v : page_id_t) (i : Z) :
  0 ≤ i → (ValueIndex_from i l v = -1 ↔ v ∉ l.*2).
Proof.
  revert i. induction l as [|e l IH]; intros i Hi; simpl.
  - split; [intros _; apply not_elem_of_nil|done].
  - destruct (decide (e.2 = v)) as [Heq|Hne].
    + split; [lia|]. intros Hnot. exfalso. apply Hnot. rewrite <- Heq.
      apply list_elem_of_here.
    + rewrite IH by lia. rewrite not_elem_of_cons.
      split; [intros Hl; split; [congruence|done]|by intros [_ Hl]].
Qed.

Lemma ValueIndex_from_split (l : list (KeyType * page_id_t)) (v : page_id_t) (i : Z) :
  0 ≤ i → ValueIndex_from i l v ≠ -1 →
  ∃ l1 e l2, l = l1 ++ e :: l2 ∧ e.2 = v ∧ (v ∉ l1.*2) ∧
             ValueIndex_from i l v = i + Z.of_nat (length l1).
Proof.
  revert i. induction l as [|e l IH]; intros i Hi; simpl; [done|].
  destruct (decide (e.2 = v)) as [Heq|Hne].
  - intros _. exists [], e, l. simpl. split; [done|]. split; [done|].
    split; [apply not_elem_of_nil|lia].
  - intros Hr. destruct (IH (i + 1)) as (l1 & e' & l2 & -> & He' & Hl1 & Hidx);
      [lia|done|].
    exists (e :: l1), e', l2. simpl. split; [done|]. split; [done|].
    split; [|lia]. rewrite not_elem_of_cons. done.
Qed.

Lemma int_at_middle (n : InternalPage) l1 e l2 :
  int_array n = l1 ++ e :: l2 → int_at n (Z.of_nat (length l1)) = e.
Proof.
  intros Harr. unfold int_at. rewrite Harr, Nat2Z.id.
  apply nth_lookup_Some. apply list_lookup_middle. done.
Qed.

Lemma int_at_lookup (n : InternalPage) (i : Z) :
  0 ≤ i < int_size n → int_array n !! Z.to_nat i = Some (int_at n i).
Proof.
  intros Hi. unfold int_at, int_size in *.
  destruct (nth_lookup_or_length (int_array n) (Z.to_nat i) (zero_key, 0))
    as [Hl|Hl]; [done|lia].
Qed.

Lemma ValueIndex_range (n : InternalPage) (value : page_id_t) :
  ValueIndex n value ≠ -1 → 0 ≤ ValueIndex n value < int_size n.
Proof.
  intros Hr. unfold ValueIndex in *.
  destruct (ValueIndex_from_split _ _ 0 ltac:(done) Hr)
    as (l1 & e & l2 & Harr & _ & _ & ->).
  unfold int_size. rewrite Harr, length_app. simpl. lia.
Qed.

(** [ValueIndex] returns the first index whose child is [value], and -1
    exactly when no entry has that child. *)
Theorem ValueIndex_first_occurrence (n : InternalPage) (value : page_id_t) :
  (ValueIndex n value = -1 ↔ value ∉ (int_array n).*2) ∧
  (ValueIndex n value ≠ -1 →
     0 ≤ ValueIndex n value < int_size n ∧
     int_ValueAt n (ValueIndex n value) = value ∧
     ∀ j, 0 ≤ j < ValueIndex n value → int_ValueAt n j ≠ value).
Proof.
  split; [by apply ValueIndex_from_absent|].
  intros Hr. unfold ValueIndex in *.
  destruct (ValueIndex_from_split _ _ 0 ltac:(done) Hr)
    as (l1 & e & l2 & Harr & He & Hl1 & ->).
  rewrite Z.add_0_l. split.
  { unfold int_size. rewrite Harr, length_app. simpl. lia. }
  split.
  { unfold int_ValueAt. by rewrite (int_at_middle _ _ _ _ Harr). }
  intros j Hj Hv. apply Hl1. rewrite <- Hv.
  unfold int_ValueAt, int_at. rewrite Harr.
  assert (Hlt : (Z.to_nat j < length l1)%nat) by lia.
  destruct (lookup_lt_is_Some_2 l1 _ Hlt) as [e' He'].
  rewrite (nth_lookup_Some _ _ _ e') by (by rewrite lookup_app_l).
  apply list_elem_of_fmap. exists e'. split; [done|].
  by eapply list_elem_of_lookup_2.
Qed.

(** *** Removal from an internal page *)

Lemma Remove_loop_rotates (l2 l1 : list (KeyType * page_id_t)) x :
  Remove_loop (length l2) (length l1) (l1 ++ x :: l2)
  = l1 ++ l2 ++ [default x (last l2)].
Proof.
  revert l1 x. induction l2 as [|y l2 IH]; intros l1 x; simpl; [done|].
  assert (Hnext : (l1 ++ x :: y :: l2) !! S (length l1) = Some y).
  { rewrite lookup_app_r by lia.
    by replace (S (length l1) - length l1)%nat with 1%nat by lia. }
  rewrite Hnext, insert_app_r_alt by lia. rewrite Nat.sub_diag. simpl.
  replace (S (length l1)) with (length (l1 ++ [y]))
    by (rewrite length_app; simpl; lia).
  replace (l1 ++ y :: y :: l2) with ((l1 ++ [y]) ++ y :: l2)
    by (by rewrite <- app_assoc).
  rewrite IH. rewrite <- app_assoc. simpl. do 3 f_equal.
  rewrite last_cons. by destruct (last l2).
Qed.

Lemma int_Remove_middle (n : InternalPage) l1 e l2 :
  int_array n = l1 ++ e :: l2 →
  int_Remove (Z.of_nat (length l1)) n
  = Some (mkInternal (int_max_size_ n) (int_parent_page_id_ n) (int_page_id_ n)
                     (l1 ++ l2)).
Proof.
  intros Harr. unfold int_Remove, int_size. rewrite Harr.
  rewrite length_app. simpl.
  rewrite decide_False by lia. do 2 f_equal.
  replace (Z.to_nat (Z.of_nat (length l1 + S (length l2)) - 1 - Z.of_nat (length l1)))
    with (length l2) by lia.
  rewrite Nat2Z.id, Remove_loop_rotates.
  rewrite app_assoc. apply take_app_length'. rewrite length_app. lia.
Qed.

(** [Remove(index)] for an index of an entry deletes that entry and keeps
    the others in their order; for an index at or past the size it drops the
    last entry instead of leaving the page as it is. *)
Theorem Remove_deletes_entry (index : Z) (n : InternalPage) :
  0 ≤ index → 0 < int_size n →
  ∃ n', int_Remove index n = Some n' ∧
        int_size n' = int_size n - 1 ∧
        int_max_size_ n' = int_max_size_ n ∧
        int_parent_page_id_ n' = int_parent_page_id_ n ∧
        int_page_id_ n' = int_page_id_ n ∧
        (index < int_size n →
           int_array n' = delete (Z.to_nat index) (int_array n)) ∧
        (int_size n ≤ index →
           int_array n' = take (Z.to_nat (int_size n - 1)) (int_array n)).
Proof.
  intros Hidx Hsize.
  destruct (decide (index < int_size n)) as [Hin|Hout].
  - destruct (lookup_lt_is_Some_2 (int_array n) (Z.to_nat index)) as [e He].
    { unfold int_size in Hin. lia. }
    destruct (list_elem_of_split_length _ _ _ He) as (l1 & l2 & Harr & Hlen).
    eexists. split.
    { replace index with (Z.of_nat (length l1)) by lia.
      exact (int_Remove_middle _ _ e l2 Harr). }
    unfold int_size. simpl. rewrite Harr, !length_app. simpl.
    split; [lia|]. do 3 (split; [done|]). split; [|unfold int_size in *; lia].
    intros _. rewrite Hlen. by rewrite delete_middle.
  - unfold int_Remove. rewrite decide_False by lia.
    replace (Z.to_nat (int_size n - 1 - index)) with O by lia. simpl.
    eexists. split; [reflexivity|]. unfold int_size in *. simpl.
    rewrite length_take. split; [lia|]. do 3 (split; [done|]).
    split; [lia|done].
Qed.

(** [parent->Remove(parent->ValueIndex(child))], as [Coalesce] calls it: on
    a page that lists no child twice, the entry of a listed child goes and
    every other entry stays, in the same order. *)
Theorem Remove_of_ValueIndex (n : InternalPage) (child : page_id_t) :
  NoDup (int_array n).*2 → child ∈ (int_array n).*2 →
  ∃ n', int_Remove (ValueIndex n child) n = Some n' ∧
        int_array n' = filter (λ e, e.2 ≠ child) (int_array n) ∧
        int_size n' = int_size n - 1 ∧
        ValueIndex n' child = -1.
Proof.
  intros Hnd Hin.
  assert (Hr : ValueIndex n child ≠ -1).
  { intros Hr. by apply (ValueIndex_from_absent _ _ 0) in Hr. }
  unfold ValueIndex in *.
  destruct (ValueIndex_from_split _ _ 0 ltac:(done) Hr)
    as (l1 & e & l2 & Harr & He & Hl1 & ->).
  rewrite Z.add_0_l, (int_Remove_middle _ _ _ _ Harr).
  rewrite Harr, fmap_app, fmap_cons, He in Hnd.
  apply NoDup_app in Hnd as (_ & _ & Hnd). apply NoDup_cons in Hnd as [Hl2 _].
  assert (Hkeep : ∀ l : list (KeyType * page_id_t),
            child ∉ l.*2 → filter (λ e, e.2 ≠ child) l = l).
  { intros l Hl. induction l as [|a l IH]; [done|].
    rewrite fmap_cons, not_elem_of_cons in Hl. destruct Hl as [Ha Hl].
    rewrite filter_cons_True by (simpl; congruence). by rewrite IH. }
  eexists. split; [reflexivity|]. simpl. split.
  { rewrite Harr, filter_app, filter_cons_False by (intros Hc; by apply Hc).
    by rewrite !Hkeep. }
  split.
  { unfold int_size. simpl. rewrite Harr, !length_app. simpl. lia. }
  apply ValueIndex_from_absent; [done|].
  rewrite fmap_app, not_elem_of_app. done.
Qed.

(** *** Routing after a split *)

Lemma search_loop_unique (key_at : Z → KeyType) (key : KeyType) (lo hi c : Z) :
  lo ≤ c ≤ hi →
  (∀ j, lo ≤ j < c → comparator (key_at j) key = -1) →
  (∀ j, c ≤ j < hi → comparator (key_at j) key ≠ -1) →
  search_loop key_at key lo hi = c.
Proof.
  intros Hc Hlow Hhigh.
  destruct (search_loop_spec key_at key lo hi) as (Hr & Hlow' & Hhigh'); [lia| |].
  { intros i j Hi Hij Hj Hlt. apply Hlow. split; [done|].
    destruct (decide (j < c)) as [|Hge]; [lia|].
    exfalso. apply (Hhigh j); [lia|done]. }
  set (r := search_loop key_at key lo hi) in *.
  destruct (decide (r = c)) as [|Hne]; [done|]. exfalso.
  destruct (decide (r < c)) as [Hlt|Hge].
  - apply (Hhigh' r); [lia|]. apply Hlow. lia.
  - apply (Hhigh c); [lia|]. apply Hlow'. lia.
Qed.

(** A search on the root that [PopulateNewRoot] filled goes to the new page
    exactly when the separator is below the search key. *)
Lemma PopulateNewRoot_routes (old_value : page_id_t) (new_key : KeyType)
    (new_value : page_id_t) (n : InternalPage) (key : KeyType) :
  Lookup (PopulateNewRoot old_value new_key new_value n) key
  = if decide (comparator new_key key = -1) then new_value else old_value.
Proof.
  unfold Lookup. change (int_size (PopulateNewRoot _ _ _ _)) with 2.
  destruct (decide (comparator new_key key = -1)) as [Hlt|Hge].
  - rewrite (search_loop_unique _ _ 1 2 2); [done|lia| |intros; lia].
    intros j Hj. by replace j with 1 by lia.
  - rewrite (search_loop_unique _ _ 1 2 1); [done|lia|intros; lia|].
    intros j Hj. by replace j with 1 by lia.
Qed.

(** [InsertIntoParent] for a node without parent: the page handed out next
    becomes the root (also in the header page), both nodes get it as parent,
    no other page changes, and a search on the new root goes to the new node
    exactly when the separator is below the search key. *)
Theorem InsertIntoParent_new_root fuel old_ptr key new_ptr t old_node new_node :
  pages_ t !! old_ptr = Some old_node →
  pages_ t !! new_ptr = Some new_node →
  GetParentPageId old_node = INVALID_PAGE_ID →
  pages_ t !! next_free_page_ t = None →
  old_ptr ≠ new_ptr →
  ∃ t' root,
    InsertIntoParent (S fuel) old_ptr key new_ptr t = Some t' ∧
    root_page_id_ t' = next_free_page_ t ∧
    header_root_ t' = next_free_page_ t ∧
    next_free_page_ t' = next_free_page_ t + 1 ∧
    pages_ t' !! root_page_id_ t' = Some (INTERNAL_PAGE root) ∧
    int_parent_page_id_ root = INVALID_PAGE_ID ∧
    int_page_id_ root = next_free_page_ t ∧
    int_size root = 2 ∧
    (∀ x, Lookup root x
          = if decide (comparator key x = -1) then GetPageId new_node
            else GetPageId old_node) ∧
    pages_ t' !! old_ptr = Some (SetParentPageId (next_free_page_ t) old_node) ∧
    pages_ t' !! new_ptr = Some (SetParentPageId (next_free_page_ t) new_node) ∧
    (∀ q, q ≠ old_ptr → q ≠ new_ptr → q ≠ next_free_page_ t →
          pages_ t' !! q = pages_ t !! q).
Proof.
  intros Hold Hnew Hparent Hfresh Hne.
  assert (old_ptr ≠ next_free_page_ t) by congruence.
  assert (new_ptr ≠ next_free_page_ t) by congruence.
  eexists _, _. split.
  { simpl. rewrite Hold, Hnew. simpl. rewrite decide_True by done. reflexivity. }
  simpl. do 3 (split; [done|]). split; [by map_lookups|].
  do 3 (split; [done|]). split; [intros x; apply PopulateNewRoot_routes|].
  split; [by map_lookups|]. split; [by map_lookups|].
  intros q ? ? ?. by map_lookups.
Qed.

Lemma InsertNodeAfter_split old_value new_key new_value (n n' : InternalPage) :
  InsertNodeAfter old_value new_key new_value n = Some n' →
  ∃ l1 e0 l2,
    int_array n = l1 ++ e0 :: l2 ∧ e0.2 = old_value ∧ (old_value ∉ l1.*2) ∧
    ValueIndex n old_value = Z.of_nat (length l1) ∧
    n' = mkInternal (int_max_size_ n) (int_parent_page_id_ n) (int_page_id_ n)
                    (l1 ++ e0 :: (new_key, new_value) :: l2).
Proof.
  unfold InsertNodeAfter. case_decide as Hr; [done|]. intros [= <-].
  unfold ValueIndex in *.
  destruct (ValueIndex_from_split _ _ 0 ltac:(done) Hr)
    as (l1 & e0 & l2 & Harr & He0 & Hl1 & Hidx).
  exists l1, e0, l2. rewrite Hidx, Z.add_0_l. do 4 (split; [done|]).
  f_equal. rewrite Harr.
  replace (Z.to_nat (Z.of_nat (length l1) + 1)) with (length (l1 ++ [e0]))
    by (rewrite length_app; simpl; lia).
  replace (l1 ++ e0 :: l2) with ((l1 ++ [e0]) ++ l2) by (by rewrite <- app_assoc).
  rewrite take_app_length, drop_app_length. by rewrite <- app_assoc.
Qed.

Lemma nth_inserted_after {E} (l1 l2 : list E) (e0 e d : E) (j : nat) :
  nth j (l1 ++ e0 :: e :: l2) d
  = if decide (j ≤ length l1)%nat then nth j (l1 ++ e0 :: l2) d
    else if decide (j = S (length l1)) then e
         else nth (pred j) (l1 ++ e0 :: l2) d.
Proof.
  rewrite !nth_lookup.
  destruct (decide (j ≤ length l1)%nat) as [Hle|Hgt].
  - replace (l1 ++ e0 :: e :: l2) with ((l1 ++ [e0]) ++ e :: l2)
      by (by rewrite <- app_assoc).
    replace (l1 ++ e0 :: l2) with ((l1 ++ [e0]) ++ l2) by (by rewrite <- app_assoc).
    assert (j < length (l1 ++ [e0]))%nat by (rewrite length_app; simpl; lia).
    by rewrite (lookup_app_l (l1 ++ [e0]) (e :: l2)), (lookup_app_l (l1 ++ [e0]) l2).
  - rewrite !lookup_app_r by lia.
    destruct (decide (j = S (length l1))) as [->|Hne].
    + by replace (S (length l1) - length l1)%nat with 1%nat by lia.
    + destruct (j - length l1)%nat as [|[|k]] eqn:Hk; [lia|lia|].
      replace (pred j - length l1)%nat with (S k) by lia. done.
Qed.

(** [InsertNodeAfter] tells a parent about a split: on a parent that lists no
    child twice and whose separators increase, when the new separator lies
    between the separators around the slot after [old_value], a search that
    went to [old_value] goes to [new_value] exactly when the new separator is
    below the search key, and every other search goes where it went. *)
Theorem InsertNodeAfter_routes old_value new_key new_value (n n' : InternalPage) :
  (∀ a b c, comparator a b = -1 → comparator b c = -1 → comparator a c = -1) →
  NoDup (int_array n).*2 →
  (∀ i j, 1 ≤ i → i < j → j < int_size n →
          comparator (int_KeyAt n i) (int_KeyAt n j) = -1) →
  int_size n ≤ int_max_size_ n →
  InsertNodeAfter old_value new_key new_value n = Some n' →
  (1 ≤ ValueIndex n old_value →
   comparator (int_KeyAt n (ValueIndex n old_value)) new_key = -1) →
  (ValueIndex n old_value + 1 < int_size n →
   comparator new_key (int_KeyAt n (ValueIndex n old_value + 1)) = -1) →
  int_size n' = int_size n + 1 ∧
  ∀ key,
    Lookup n' key
    = if decide (Lookup n key = old_value)
      then if decide (comparator new_key key = -1) then new_value else old_value
      else Lookup n key.
Proof.
  intros Htrans Hnd Hsorted _ Hins Hlo Hhi.
  destruct (InsertNodeAfter_split _ _ _ _ _ Hins)
    as (l1 & e0 & l2 & Harr & He0 & Hl1 & Hr & ->).
  rewrite Hr in Hlo, Hhi. clear Hr Hins.
  set (r := Z.of_nat (length l1)) in *.
  set (n' := mkInternal _ _ _ _).
  assert (Hsize : int_size n = r + 1 + Z.of_nat (length l2)).
  { unfold int_size. rewrite Harr, length_app. simpl. lia. }
  assert (Hsize' : int_size n' = int_size n + 1).
  { unfold int_size. simpl. rewrite Harr, !length_app. simpl. lia. }
  split; [done|]. intros key.
  assert (Hat : ∀ j, 0 ≤ j →
            int_at n' j = if decide (j ≤ r) then int_at n j
                          else if decide (j = r + 1) then (new_key, new_value)
                               else int_at n (j - 1)).
  { intros j Hj. unfold int_at. simpl. rewrite Harr, nth_inserted_after.
    destruct (decide (Z.to_nat j ≤ length l1)%nat);
      destruct (decide (j ≤ r)); try lia; [done|].
    destruct (decide (Z.to_nat j = S (length l1)));
      destruct (decide (j = r + 1)); try lia; [done|].
    by replace (Z.to_nat (j - 1)) with (pred (Z.to_nat j)) by lia. }
  assert (Hkey : ∀ j, 0 ≤ j →
            int_KeyAt n' j = if decide (j ≤ r) then int_KeyAt n j
                             else if decide (j = r + 1) then new_key
                                  else int_KeyAt n (j - 1)).
  { intros j Hj. unfold int_KeyAt. rewrite Hat by done.
    repeat case_decide; done. }
  assert (Hold : int_ValueAt n r = old_value).
  { unfold int_ValueAt, r. by rewrite (int_at_middle _ _ _ _ Harr). }
  assert (Hval : ∀ i, 0 ≤ i < int_size n → int_ValueAt n i = old_value → i = r).
  { intros i Hi Hv.
    assert (Z.to_nat i = Z.to_nat r); [|lia].
    apply (NoDup_lookup _ _ _ old_value Hnd).
    - rewrite list_lookup_fmap, int_at_lookup by done. simpl. by f_equal.
    - rewrite list_lookup_fmap, int_at_lookup by lia. simpl. by f_equal. }
  destruct (search_loop_spec (int_KeyAt n) key 1 (int_size n))
    as (Hs & Hlow & Hhigh); [lia| |].
  { intros i j Hi Hij Hj Hlt.
    destruct (decide (i = j)) as [->|Hne]; [done|].
    apply (Htrans _ (int_KeyAt n j)); [|done]. apply Hsorted; lia. }
  unfold Lookup. set (s := search_loop (int_KeyAt n) key 1 (int_size n)) in *.
  assert (Hsel : ∀ a b : page_id_t,
            (if decide (int_ValueAt n (s - 1) = old_value) then a else b)
            = if decide (s = r + 1) then a else b).
  { intros a b. destruct (decide (s = r + 1)) as [->|Hne].
    - rewrite decide_True; [done|]. by replace (r + 1 - 1) with r by lia.
    - rewrite decide_False; [done|]. intros Hv. apply Hval in Hv; lia. }
  rewrite Hsel, Hsize'.
  destruct (decide (s ≤ r)) as [Hsr|Hsr].
  - (* the search stops before the slot of [old_value] *)
    rewrite (search_loop_unique _ _ 1 _ s).
    + rewrite decide_False by lia.
      unfold int_ValueAt. rewrite Hat by lia. by rewrite decide_True by lia.
    + lia.
    + intros j Hj. rewrite Hkey, decide_True by lia. apply Hlow. lia.
    + intros j Hj. rewrite Hkey by lia.
      destruct (decide (j ≤ r)); [apply Hhigh; lia|].
      destruct (decide (j = r + 1)); [|apply Hhigh; lia].
      intros Hlt. apply (Hhigh r); [lia|].
      apply (Htrans _ new_key); [apply Hlo; lia|done].
  - destruct (decide (s = r + 1)) as [Hs1|Hs1].
    + (* the search selects [old_value] *)
      destruct (decide (comparator new_key key = -1)) as [Hlt|Hge].
      * rewrite (search_loop_unique _ _ 1 _ (r + 2)).
        -- unfold int_ValueAt. rewrite Hat by lia.
           rewrite decide_False by lia. by rewrite decide_True by lia.
        -- lia.
        -- intros j Hj. rewrite Hkey by lia.
           destruct (decide (j ≤ r)); [apply Hlow; lia|].
           by rewrite decide_True by lia.
        -- intros j Hj. rewrite Hkey by lia.
           rewrite decide_False, decide_False by lia. apply Hhigh. lia.
      * rewrite (search_loop_unique _ _ 1 _ (r + 1)).
        -- unfold int_ValueAt. rewrite Hat by lia.
           rewrite decide_True by lia. by replace (r + 1 - 1) with r by lia.
        -- lia.
        -- intros j Hj. rewrite Hkey, decide_True by lia. apply Hlow. lia.
        -- intros j Hj. rewrite Hkey by lia.
           rewrite decide_False by lia.
           destruct (decide (j = r + 1)); [done|apply Hhigh; lia].
    + (* the search passes the slot of [old_value] *)
      rewrite (search_loop_unique _ _ 1 _ (s + 1)).
      * unfold int_ValueAt. rewrite Hat by lia.
        rewrite decide_False, decide_False by lia.
        by replace (s + 1 - 1 - 1) with (s - 1) by lia.
      * lia.
      * intros j Hj. rewrite Hkey by lia.
        destruct (decide (j ≤ r)); [apply Hlow; lia|].
        destruct (decide (j = r + 1)); [|apply Hlow; lia].
        apply (Htrans _ (int_KeyAt n (r + 1))); [apply Hhi; lia|apply Hlow; lia].
      * intros j Hj. rewrite Hkey by lia.
        rewrite decide_False, decide_False by lia. apply Hhigh. lia.
Qed.

(** *** Split of an internal page *)

Lemma SetParentPageId_twice parent p :
  SetParentPageId parent (SetParentPageId parent p) = SetParentPageId parent p.
Proof. by destruct p. Qed.

Lemma reparent_spec (children : list page_id_t) (parent : page_id_t)
    (pages : gmap page_id_t Page) :
  (∀ c, c ∈ children → is_Some (pages !! c)) →
  ∃ pages',
    reparent children parent pages = Some pages' ∧
    (∀ q, q ∉ children → pages' !! q = pages !! q) ∧
    (∀ c, c ∈ children →
          ∃ p, pages !! c = Some p ∧
               pages' !! c = Some (SetParentPageId parent p)).
Proof.
  revert pages. induction children as [|c rest IH]; intros pages Hall; simpl.
  - exists pages. split; [done|]. split; [done|]. intros c Hc.
    by apply elem_of_nil in Hc.
  - destruct (Hall c) as [p Hp]; [apply list_elem_of_here|].
    rewrite Hp. simpl.
    destruct (IH (<[c := SetParentPageId parent p]> pages))
      as (pages' & Hre & Hother & Hchild).
    { intros c' Hc'. destruct (decide (c' = c)) as [->|Hne].
      - rewrite lookup_insert_eq. by eexists.
      - rewrite lookup_insert_ne by done. apply Hall. by apply list_elem_of_further. }
    exists pages'. split; [done|]. split.
    + intros q Hq. apply not_elem_of_cons in Hq as [Hqc Hq].
      rewrite (Hother q Hq). by rewrite lookup_insert_ne.
    + intros c' Hc'. destruct (decide (c' ∈ rest)) as [Hin|Hnotin].
      * destruct (Hchild c' Hin) as (p1 & Hp1 & Hp').
        destruct (decide (c' = c)) as [->|Hne].
        -- rewrite lookup_insert_eq in Hp1. injection Hp1 as <-.
           exists p. split; [done|]. by rewrite Hp', SetParentPageId_twice.
        -- rewrite lookup_insert_ne in Hp1 by done. by exists p1.
      * apply elem_of_cons in Hc' as [->|Hc']; [|done].
        exists p. split; [done|]. rewrite (Hother c Hnotin).
        by rewrite lookup_insert_eq.
Qed.

(** [Split] of an internal page that is one entry above its maximal size
    (what [MoveHalfTo] asserts), in a store where the page handed out next is
    unused and every child of the page is present and is not the page
    itself: the first [max_size / 2] entries stay, the others go to the new
    page in their order, the new page has the parent of the old one, every
    moved child gets the new page as parent, and no other page changes. *)
Theorem Split_internal_moves_upper_half ptr t node :
  pages_ t !! ptr = Some (INTERNAL_PAGE node) →
  0 ≤ int_max_size_ node →
  int_size node = int_max_size_ node + 1 →
  pages_ t !! next_free_page_ t = None →
  (∀ c, c ∈ (int_array node).*2 → c ≠ ptr ∧ is_Some (pages_ t !! c)) →
  ∃ t' left right,
    Split_internal ptr t = Some (next_free_page_ t, t') ∧
    root_page_id_ t' = root_page_id_ t ∧
    next_free_page_ t' = next_free_page_ t + 1 ∧
    pages_ t' !! ptr = Some (INTERNAL_PAGE left) ∧
    pages_ t' !! next_free_page_ t = Some (INTERNAL_PAGE right) ∧
    int_array left ++ int_array right = int_array node ∧
    int_size left = int_max_size_ node / 2 ∧
    int_parent_page_id_ left = int_parent_page_id_ node ∧
    int_parent_page_id_ right = int_parent_page_id_ node ∧
    int_page_id_ right = next_free_page_ t ∧
    (∀ c, c ∈ (int_array right).*2 →
          ∃ p, pages_ t !! c = Some p ∧
               pages_ t' !! c = Some (SetParentPageId (next_free_page_ t) p)) ∧
    (∀ q, q ≠ ptr → q ≠ next_free_page_ t → q ∉ (int_array right).*2 →
          pages_ t' !! q = pages_ t !! q).
Proof.
  intros Hpage Hmax Hsize Hfresh Hchildren.
  assert (Hptr : ptr ≠ next_free_page_ t) by congruence.
  set (start := Z.to_nat (int_max_size_ node / 2)).
  assert (Hstart : (start ≤ length (int_array node))%nat).
  { unfold start, int_size in *.
    assert (int_max_size_ node / 2 ≤ int_max_size_ node)
      by (apply Z.div_le_upper_bound; lia).
    lia. }
  assert (Hmoved : ∀ c, c ∈ (drop start (int_array node)).*2 →
                        c ∈ (int_array node).*2).
  { intros c Hc. rewrite <- (take_drop start (int_array node)), fmap_app.
    apply elem_of_app. by right. }
  set (left := mkInternal (int_max_size_ node) (int_parent_page_id_ node)
                          (int_page_id_ node) (take start (int_array node))).
  set (right := mkInternal internal_max_size (int_parent_page_id_ node)
                           (next_free_page_ t) (drop start (int_array node))).
  set (pages0 := <[next_free_page_ t := INTERNAL_PAGE right]>
                   (<[ptr := INTERNAL_PAGE left]> (pages_ t))).
  assert (Hsame : ∀ c, c ∈ (int_array right).*2 → pages0 !! c = pages_ t !! c).
  { intros c Hc. destruct (Hchildren c (Hmoved c Hc)) as [Hcp [p Hp]].
    unfold pages0. rewrite !lookup_insert_ne; [done|congruence|congruence]. }
  destruct (reparent_spec (int_array right).*2 (next_free_page_ t) pages0)
    as (pages' & Hre & Hother & Hchild).
  { intros c Hc. rewrite (Hsame c Hc). by apply Hchildren, Hmoved. }
  assert (Hnotchild : ∀ q, pages_ t !! q = None ∨ q = ptr →
                           q ∉ (int_array right).*2).
  { intros q Hq Hin. destruct (Hchildren q (Hmoved q Hin)) as [Hqp [p Hp]].
    destruct Hq; congruence. }
  exists (mkTree (root_page_id_ t) pages' (next_free_page_ t + 1) (header_root_ t)),
         left, right.
  split.
  { unfold Split_internal. rewrite Hpage. simpl.
    unfold pages0, right, left, start in Hre. simpl in Hre. by rewrite Hre. }
  simpl. do 2 (split; [done|]). split.
  { rewrite Hother by (apply Hnotchild; by right).
    unfold pages0. by rewrite lookup_insert_ne, lookup_insert_eq. }
  split.
  { rewrite Hother by (apply Hnotchild; by left).
    unfold pages0. by rewrite lookup_insert_eq. }
  split; [apply take_drop|]. split.
  { unfold int_size. simpl. rewrite length_take. unfold start in *.
    assert (0 ≤ int_max_size_ node / 2) by (apply Z.div_pos; lia). lia. }
  do 3 (split; [done|]). split.
  - intros c Hc. destruct (Hchild c Hc) as (p & Hp & Hp').
    exists p. by rewrite <- (Hsame c Hc).
  - intros q Hq1 Hq2 Hq3. rewrite (Hother q Hq3).
    unfold pages0. by rewrite !lookup_insert_ne.
Qed.

(** *** Redistribution between internal siblings *)

Lemma KeyAt_in (n : InternalPage) (index : Z) :
  0 ≤ index < int_size n → KeyAt n index = Some (int_KeyAt n index).
Proof. intros Hi. unfold KeyAt. by rewrite decide_True. Qed.

Lemma SetKeyAt_in (index : Z) (key : KeyType) (n : InternalPage) :
  0 ≤ index < int_size n →
  SetKeyAt index key n
  = Some (with_array n (<[Z.to_nat index := (key, int_ValueAt n index)]> (int_array n))).
Proof. intros Hi. unfold SetKeyAt. by rewrite decide_True. Qed.

Lemma fetch_internal_Some pages ptr n :
  pages !! ptr = Some (INTERNAL_PAGE n) → fetch_internal pages ptr = Some n.
Proof. intros Hp. unfold fetch_internal. by rewrite Hp. Qed.

(** [MoveFirstToEndOf] rotates one entry to the left through the parent:
    for three different pages [this], [recipient] and their parent, where
    the parent lists [this], [this] holds at least two entries and its first
    child is a fourth page, the recipient gets the parent's separator with
    the first child of [this], the parent gets the second key of [this] as
    separator, the child gets the recipient as parent, no other page
    changes, and the sequence of entries of the two siblings, read with the
    separator in slot 0 of [this], is the same as before. *)
Theorem MoveFirstToEndOf_rotates this_ptr rec_ptr pages this recipient parent child :
  pages !! this_ptr = Some (INTERNAL_PAGE this) →
  pages !! rec_ptr = Some (INTERNAL_PAGE recipient) →
  pages !! int_parent_page_id_ this = Some (INTERNAL_PAGE parent) →
  int_parent_page_id_ recipient = int_parent_page_id_ this →
  this_ptr ≠ rec_ptr →
  int_parent_page_id_ this ≠ this_ptr →
  int_parent_page_id_ this ≠ rec_ptr →
  ValueIndex parent (int_page_id_ this) ≠ -1 →
  2 ≤ int_size this →
  pages !! int_ValueAt this 0 = Some child →
  int_ValueAt this 0 ≠ this_ptr →
  int_ValueAt this 0 ≠ rec_ptr →
  int_ValueAt this 0 ≠ int_parent_page_id_ this →
  ∃ pages' this' recipient' parent',
    MoveFirstToEndOf this_ptr rec_ptr pages = Some pages' ∧
    pages' !! this_ptr = Some (INTERNAL_PAGE this') ∧
    pages' !! rec_ptr = Some (INTERNAL_PAGE recipient') ∧
    pages' !! int_parent_page_id_ this = Some (INTERNAL_PAGE parent') ∧
    pages' !! int_ValueAt this 0
      = Some (SetParentPageId (int_page_id_ recipient) child) ∧
    (∀ q, q ≠ this_ptr → q ≠ rec_ptr → q ≠ int_parent_page_id_ this →
          q ≠ int_ValueAt this 0 → pages' !! q = pages !! q) ∧
    this' = with_array this (drop 1 (int_array this)) ∧
    recipient'
      = with_array recipient
          (int_array recipient
             ++ [(int_KeyAt parent (ValueIndex parent (int_page_id_ this)),
                  int_ValueAt this 0)]) ∧
    parent'
      = with_array parent
          (<[Z.to_nat (ValueIndex parent (int_page_id_ this))
             := (int_KeyAt this 1,
                 int_ValueAt parent (ValueIndex parent (int_page_id_ this)))]>
             (int_array parent)) ∧
    int_array recipient'
      ++ with_first_key (int_KeyAt parent' (ValueIndex parent (int_page_id_ this)))
                        (int_array this')
    = int_array recipient
      ++ with_first_key (int_KeyAt parent (ValueIndex parent (int_page_id_ this)))
                        (int_array this).
Proof.
  intros Hthis Hrec Hparent Hsame Htr Hpt Hpr Hidx Hsize Hchild Hct Hcr Hcp.
  pose proof (ValueIndex_range parent (int_page_id_ this) Hidx) as Hrange.
  set (index := ValueIndex parent (int_page_id_ this)) in *.
  destruct (int_array this) as [|e0 [|e1 rest]] eqn:Harr;
    [unfold int_size in Hsize; rewrite Harr in Hsize; simpl in Hsize; lia ..|].
  assert (Hat0 : int_at this 0 = e0) by (unfold int_at; by rewrite Harr).
  assert (Hv0 : int_ValueAt this 0 = e0.2) by (unfold int_ValueAt; by rewrite Hat0).
  assert (Hk1 : int_KeyAt this 1 = e1.1)
    by (unfold int_KeyAt, int_at; by rewrite Harr).
  assert (Hrem : int_Remove 0 this = Some (with_array this (e1 :: rest))).
  { exact (int_Remove_middle this [] e0 (e1 :: rest) Harr). }
  set (rsize := length (int_array recipient)).
  set (recipient1 := with_array recipient (int_array recipient ++ [e0])).
  assert (Hrsize : int_size recipient1 = Z.of_nat rsize + 1).
  { unfold int_size, recipient1. simpl. rewrite length_app. simpl. lia. }
  assert (Hlast : int_at recipient1 (Z.of_nat rsize) = e0).
  { unfold int_at, recipient1. simpl. rewrite Nat2Z.id.
    apply nth_lookup_Some. by apply list_lookup_middle. }
  set (recipient2 := with_array recipient
                       (int_array recipient ++ [(int_KeyAt parent index, e0.2)])).
  assert (Hset : SetKeyAt (int_size recipient1 - 1) (int_KeyAt parent index) recipient1
                 = Some recipient2).
  { rewrite SetKeyAt_in by lia. f_equal. unfold recipient2, with_array. simpl.
    f_equal. replace (int_size recipient1 - 1) with (Z.of_nat rsize) by lia.
    unfold int_ValueAt. rewrite Hlast, Nat2Z.id.
    rewrite insert_app_r_alt by (unfold rsize; lia).
    unfold rsize. by rewrite Nat.sub_diag. }
  assert (Hnew : int_ValueAt recipient2 (int_size recipient2 - 1) = e0.2).
  { unfold int_ValueAt, int_at, int_size, recipient2. simpl.
    rewrite length_app. simpl.
    replace (Z.to_nat (Z.of_nat (length (int_array recipient) + 1) - 1))
      with (length (int_array recipient)) by lia.
    by rewrite (nth_lookup_Some _ _ _ (int_KeyAt parent index, e0.2))
      by (by apply list_lookup_middle). }
  set (parent1 := with_array parent
                    (<[Z.to_nat index := (e1.1, int_ValueAt parent index)]>
                       (int_array parent))).
  set (pages1 := <[int_parent_page_id_ this := INTERNAL_PAGE parent1]>
                   (<[rec_ptr := INTERNAL_PAGE recipient2]>
                      (<[this_ptr := INTERNAL_PAGE (with_array this (e1 :: rest))]>
                         pages))).
  assert (Hrun : MoveFirstToEndOf this_ptr rec_ptr pages
                 = Some (<[e0.2 := SetParentPageId (int_page_id_ recipient) child]>
                           pages1)).
  { unfold MoveFirstToEndOf.
    rewrite (fetch_internal_Some _ _ _ Hthis), (fetch_internal_Some _ _ _ Hrec).
    cbn [mbind option_bind].
    rewrite decide_False by (intros [|[|]]; done).
    rewrite decide_False by (intros Hc; by apply Hc).
    rewrite Hrem. cbn [mbind option_bind].
    rewrite (fetch_internal_Some _ _ _ Hparent). cbn [mbind option_bind].
    change (int_page_id_ (with_array this (e1 :: rest))) with (int_page_id_ this).
    fold index. rewrite (KeyAt_in parent index Hrange). cbn [mbind option_bind].
    rewrite Hat0. fold recipient1. rewrite Hset. cbn [mbind option_bind].
    rewrite KeyAt_in by (unfold int_size; simpl; lia). cbn [mbind option_bind].
    rewrite (SetKeyAt_in index _ parent Hrange). cbn [mbind option_bind].
    change (int_KeyAt (with_array this (e1 :: rest)) 0) with e1.1.
    fold parent1 pages1. rewrite Hnew.
    assert (Hc1 : pages1 !! e0.2 = Some child).
    { unfold pages1. rewrite !lookup_insert_ne by congruence. by rewrite <- Hv0. }
    rewrite Hc1. done. }
  rewrite Hv0 in Hct, Hcr, Hcp.
  eexists _, _, _, _. split; [exact Hrun|].
  rewrite Hv0, Hk1.
  split.
  { rewrite lookup_insert_ne by done. unfold pages1.
    rewrite !lookup_insert_ne by done. by rewrite lookup_insert_eq. }
  split.
  { rewrite lookup_insert_ne by done. unfold pages1.
    rewrite lookup_insert_ne by done. by rewrite lookup_insert_eq. }
  split.
  { rewrite lookup_insert_ne by done. unfold pages1.
    by rewrite lookup_insert_eq. }
  split; [by rewrite lookup_insert_eq|].
  split.
  { intros q Hq1 Hq2 Hq3 Hq4. rewrite lookup_insert_ne by done.
    unfold pages1. by rewrite !lookup_insert_ne. }
  do 3 (split; [reflexivity|]).
  simpl. rewrite <- app_assoc. simpl. do 2 f_equal.
  unfold int_KeyAt, int_at, parent1. simpl.
  rewrite (nth_lookup_Some _ _ _ (e1.1, int_ValueAt parent index)).
  - by destruct e1.
  - apply list_lookup_insert_eq. unfold int_size in Hrange. lia.
Qed.

(** [MoveLastToFrontOf] rotates one entry to the right through the parent:
    for three different pages [this], [recipient] and their parent, where
    the parent lists the recipient, both siblings hold an entry and the last
    child of [this] is a fourth page, the recipient gets the last entry of
    [this] in front and the parent's separator on its former slot 0, the
    parent gets the key of the moved entry as separator, the child gets the
    recipient as parent, no other page changes, and the sequence of entries
    of the two siblings, read with the separator in slot 0 of the recipient,
    is the same as before.  The argument [parent_index] has no effect. *)
Theorem MoveLastToFrontOf_rotates this_ptr rec_ptr parent_index pages
    this recipient parent child :
  pages !! this_ptr = Some (INTERNAL_PAGE this) →
  pages !! rec_ptr = Some (INTERNAL_PAGE recipient) →
  pages !! int_parent_page_id_ this = Some (INTERNAL_PAGE parent) →
  int_parent_page_id_ recipient = int_parent_page_id_ this →
  this_ptr ≠ rec_ptr →
  int_parent_page_id_ this ≠ this_ptr →
  int_parent_page_id_ this ≠ rec_ptr →
  ValueIndex parent (int_page_id_ recipient) ≠ -1 →
  1 ≤ int_size this →
  1 ≤ int_size recipient →
  pages !! int_ValueAt this (int_size this - 1) = Some child →
  int_ValueAt this (int_size this - 1) ≠ this_ptr →
  int_ValueAt this (int_size this - 1) ≠ rec_ptr →
  int_ValueAt this (int_size this - 1) ≠ int_parent_page_id_ this →
  ∃ pages' this' recipient' parent',
    MoveLastToFrontOf this_ptr rec_ptr parent_index pages = Some pages' ∧
    pages' !! this_ptr = Some (INTERNAL_PAGE this') ∧
    pages' !! rec_ptr = Some (INTERNAL_PAGE recipient') ∧
    pages' !! int_parent_page_id_ this = Some (INTERNAL_PAGE parent') ∧
    pages' !! int_ValueAt this (int_size this - 1)
      = Some (SetParentPageId (int_page_id_ recipient) child) ∧
    (∀ q, q ≠ this_ptr → q ≠ rec_ptr → q ≠ int_parent_page_id_ this →
          q ≠ int_ValueAt this (int_size this - 1) → pages' !! q = pages !! q) ∧
    this' = with_array this (take (Z.to_nat (int_size this - 1)) (int_array this)) ∧
    recipient'
      = with_array recipient
          (int_at this (int_size this - 1)
             :: with_first_key
                  (int_KeyAt parent (ValueIndex parent (int_page_id_ recipient)))
                  (int_array recipient)) ∧
    parent'
      = with_array parent
          (<[Z.to_nat (ValueIndex parent (int_page_id_ recipient))
             := (int_KeyAt this (int_size this - 1),
                 int_ValueAt parent (ValueIndex parent (int_page_id_ recipient)))]>
             (int_array parent)) ∧
    int_array this'
      ++ with_first_key
           (int_KeyAt parent' (ValueIndex parent (int_page_id_ recipient)))
           (int_array recipient')
    = int_array this
      ++ with_first_key
           (int_KeyAt parent (ValueIndex parent (int_page_id_ recipient)))
           (int_array recipient).
Proof.
  intros Hthis Hrec Hparent Hsame Htr Hpt Hpr Hidx Hsize Hrsize Hchild Hct Hcr Hcp.
  pose proof (ValueIndex_range parent (int_page_id_ recipient) Hidx) as Hrange.
  set (index := ValueIndex parent (int_page_id_ recipient)) in *.
  destruct (int_array recipient) as [|r0 rrest] eqn:Hrarr;
    [unfold int_size in Hrsize; rewrite Hrarr in Hrsize; simpl in Hrsize; lia|].
  assert (Hsplit : ∃ init elast, int_array this = init ++ [elast]).
  { destruct (int_array this) as [|a l] eqn:Harr using rev_ind.
    - unfold int_size in Hsize. rewrite Harr in Hsize. simpl in Hsize. lia.
    - by eexists _, _. }
  destruct Hsplit as (init & elast & Harr).
  assert (Hm : int_size this - 1 = Z.of_nat (length init)).
  { unfold int_size. rewrite Harr, length_app. simpl. lia. }
  rewrite Hm in *.
  assert (Hatl : int_at this (Z.of_nat (length init)) = elast)
    by exact (int_at_middle this init elast [] Harr).
  assert (Hvl : int_ValueAt this (Z.of_nat (length init)) = elast.2)
    by (unfold int_ValueAt; by rewrite Hatl).
  assert (Hkl : int_KeyAt this (Z.of_nat (length init)) = elast.1)
    by (unfold int_KeyAt; by rewrite Hatl).
  rewrite Hvl in *. rewrite Hatl, Hkl.
  assert (Htake : take (Z.to_nat (Z.of_nat (length init))) (int_array this) = init).
  { rewrite Harr, Nat2Z.id. apply take_app_length. }
  rewrite Htake.
  set (this1 := with_array this init).
  set (recipient2 := with_array recipient
                       (elast :: (int_KeyAt parent index, r0.2) :: rrest)).
  set (parent1 := with_array parent
                    (<[Z.to_nat index := (elast.1, int_ValueAt parent index)]>
                       (int_array parent))).
  set (pages1 := <[int_parent_page_id_ this := INTERNAL_PAGE parent1]>
                   (<[rec_ptr := INTERNAL_PAGE recipient2]>
                      (<[this_ptr := INTERNAL_PAGE this1]> pages))).
  assert (Hrun : MoveLastToFrontOf this_ptr rec_ptr parent_index pages
                 = Some (<[elast.2 := SetParentPageId (int_page_id_ recipient) child]>
                           pages1)).
  { unfold MoveLastToFrontOf.
    rewrite (fetch_internal_Some _ _ _ Hthis), (fetch_internal_Some _ _ _ Hrec).
    cbn [mbind option_bind].
    rewrite decide_False by (intros [|[|]]; done).
    rewrite decide_False by (intros Hc; by apply Hc).
    rewrite decide_False by lia.
    rewrite (fetch_internal_Some _ _ _ Hparent). cbn [mbind option_bind].
    rewrite Hm, Hatl, Htake, Hrarr.
    change (int_page_id_ (with_array recipient (elast :: r0 :: rrest)))
      with (int_page_id_ recipient).
    fold index. rewrite (KeyAt_in parent index Hrange). cbn [mbind option_bind].
    rewrite SetKeyAt_in by (unfold int_size; simpl; lia).
    cbn [mbind option_bind].
    change (with_array (with_array recipient (elast :: r0 :: rrest))
              (<[Z.to_nat 1 := (int_KeyAt parent index,
                                int_ValueAt (with_array recipient
                                               (elast :: r0 :: rrest)) 1)]>
                 (int_array (with_array recipient (elast :: r0 :: rrest)))))
      with recipient2.
    rewrite KeyAt_in by (unfold int_size; simpl; lia). cbn [mbind option_bind].
    rewrite (SetKeyAt_in index _ parent Hrange). cbn [mbind option_bind].
    change (int_KeyAt recipient2 0) with elast.1.
    change (int_ValueAt recipient2 0) with elast.2.
    fold this1 parent1 pages1.
    assert (Hc1 : pages1 !! elast.2 = Some child).
    { unfold pages1. by rewrite !lookup_insert_ne by congruence. }
    rewrite Hc1. done. }
  eexists _, _, _, _. split; [exact Hrun|].
  split.
  { rewrite lookup_insert_ne by done. unfold pages1.
    rewrite !lookup_insert_ne by done. by rewrite lookup_insert_eq. }
  split.
  { rewrite lookup_insert_ne by done. unfold pages1.
    rewrite lookup_insert_ne by done. by rewrite lookup_insert_eq. }
  split.
  { rewrite lookup_insert_ne by done. unfold pages1.
    by rewrite lookup_insert_eq. }
  split; [by rewrite lookup_insert_eq|].
  split.
  { intros q Hq1 Hq2 Hq3 Hq4. rewrite lookup_insert_ne by done.
    unfold pages1. by rewrite !lookup_insert_ne. }
  do 3 (split; [reflexivity|]).
  simpl. rewrite Harr, <- app_assoc. simpl. do 2 f_equal.
  unfold int_KeyAt, int_at, parent1. simpl.
  rewrite (nth_lookup_Some _ _ _ (elast.1, int_ValueAt parent index)).
  - by destruct elast.
  - apply list_lookup_insert_eq. unfold int_size in Hrange. lia.
Qed.

(** *** Range scans *)

Lemma scan_leaf_chain pages (ls : list LeafPage) :
  ∀ ptr l, leaf_chain pages ptr (l :: ls) →
  ∀ (k : nat) (pos : Z), 0 ≤ pos → (1 ≤ k)%nat →
    pos + Z.of_nat k = leaf_size l →
  ∀ fuel, (k + length (concat (leaf_array <$> ls)) < fuel)%nat →
    scan fuel pages (mkIterator ptr pos false)
    = Some (drop (Z.to_nat pos) (leaf_array l) ++ concat (leaf_array <$> ls)).
Proof.
  induction ls as [|l2 ls IH]; intros ptr l Hchain k.
  all: destruct Hchain as (Hptr & Hpage & Hne & Hrest).
  all: induction k as [|k IHk]; intros pos Hpos Hk Hlen fuel Hfuel; [lia|].
  all: destruct fuel as [|fuel]; [lia|].
  all: assert (Hitem : ∃ e, leaf_array l !! Z.to_nat pos = Some e)
         by (apply lookup_lt_is_Some_2; unfold leaf_size in Hlen; lia).
  all: destruct Hitem as [e He].
  all: rewrite (drop_S _ _ _ He).
  all: cbn [scan isEnd it_end_].
  all: unfold operator_star, operator_incr, fetch_leaf, leaf_GetItem.
  all: cbn [isEnd it_end_ it_leaf_page_ it_pos_]; rewrite Hpage; cbn [mbind option_bind].
  all: destruct (decide (0 ≤ pos)) as [_|Hc]; [|lia].
  all: rewrite He; cbn [mbind option_bind].
  all: destruct (decide (k = 0%nat)) as [->|Hk0].
  - (* the last entry of the last leaf *)
    rewrite decide_True by lia. simpl in Hrest. rewrite decide_True by done.
    destruct fuel as [|fuel]; [simpl in Hfuel; lia|]. simpl.
    rewrite drop_ge by (unfold leaf_size in Hlen; lia). done.
  - rewrite decide_False by lia. cbn [mbind option_bind].
    rewrite (IHk (pos + 1)) by (simpl in *; lia). simpl.
    by replace (Z.to_nat (pos + 1)) with (S (Z.to_nat pos)) by lia.
  - (* the last entry of a leaf that has a successor *)
    rewrite decide_True by lia.
    destruct Hrest as (Hnext & Hpage2 & Hne2 & Hrest2).
    rewrite decide_False by done. rewrite Hpage2. cbn [mbind option_bind].
    assert (Hlen2 : (1 ≤ length (leaf_array l2))%nat)
      by (destruct (leaf_array l2); [done|simpl; lia]).
    rewrite (IH _ l2 (conj Hnext (conj Hpage2 (conj Hne2 Hrest2)))
                (length (leaf_array l2)) 0); [| lia | lia | unfold leaf_size; lia |].
    + simpl. rewrite (drop_ge (leaf_array l)) by (unfold leaf_size in Hlen; lia). done.
    + rewrite fmap_cons, concat_cons, length_app in Hfuel. lia.
  - rewrite decide_False by lia. cbn [mbind option_bind].
    rewrite (IHk (pos + 1)) by (simpl in *; lia). simpl.
    by replace (Z.to_nat (pos + 1)) with (S (Z.to_nat pos)) by lia.
Qed.

(** A scan that starts at slot 0 of the first leaf of a chain of leaves
    reads the entries of all the leaves, leaf after leaf, and then is at
    its end. *)
Theorem scan_reads_leaf_chain pages ptr (l : LeafPage) (ls : list LeafPage) fuel :
  leaf_chain pages ptr (l :: ls) →
  (length (concat (leaf_array <$> l :: ls)) < fuel)%nat →
  ∃ it, IndexIterator_new pages ptr 0 = Some it ∧
        isEnd it = false ∧
        scan fuel pages it = Some (concat (leaf_array <$> l :: ls)).
Proof.
  intros Hchain Hfuel.
  pose proof Hchain as (Hptr & Hpage & Hne & Hrest).
  assert (Hlen : (1 ≤ length (leaf_array l))%nat)
    by (destruct (leaf_array l); [done|simpl; lia]).
  exists (mkIterator ptr 0 false). split.
  { unfold IndexIterator_new, fetch_leaf. rewrite decide_False by done.
    rewrite Hpage. cbn [mbind option_bind]. do 2 f_equal.
    apply bool_decide_eq_false_2. unfold leaf_size. lia. }
  split; [done|].
  rewrite (scan_leaf_chain pages ls ptr l Hchain (length (leaf_array l)) 0);
    [done|lia|lia|unfold leaf_size; lia|].
  rewrite fmap_cons, concat_cons, length_app in Hfuel. lia.
Qed.

End Index.

(** *** Integer keys *)

(** The comparator of integer keys. *)
Definition Zcmp (a b : Z) : Z :=
  if a <? b then -1 else if b <? a then 1 else 0.

Lemma Zcmp_lt a b : Zcmp a b = -1 ↔ a < b.
Proof.
  unfold Zcmp. destruct (Z.ltb_spec a b); [done|].
  split; [|lia]. destruct (b <? a); done.
Qed.

Lemma Zcmp_trans a b c : Zcmp a b = -1 → Zcmp b c = -1 → Zcmp a c = -1.
Proof. rewrite !Zcmp_lt. lia. Qed.

Lemma Zcmp_irrefl a : Zcmp a a ≠ -1.
Proof. rewrite Zcmp_lt. lia. Qed.

(** An internal page with three children and the separators 5 and 8. *)
Definition three_children : InternalPage (KeyType := Z) :=
  mkInternal 4 INVALID_PAGE_ID 7 [(0, 10); (5, 20); (8, 30)].

Lemma three_children_sorted i j :
  1 ≤ i → i < j → j < int_size three_children →
  Zcmp (int_KeyAt 0 three_children i) (int_KeyAt 0 three_children j) = -1.
Proof.
  intros Hi Hij Hj. change (int_size three_children) with 3 in Hj.
  assert (i = 1) as -> by lia. assert (j = 2) as -> by lia. reflexivity.
Qed.

(** C3, as stated, fails: the search key 5 equals the separator at index 1;
    the smallest index whose separator is above 5 is 2, so the stated rule
    selects [array[1].second] (child 1), whereas [Lookup] returns
    [array[0].second] (child 0). *)
Lemma Lookup_equal_key_goes_left :
  int_KeyAt 0 three_children 1 = 5 ∧
  Zcmp 5 (int_KeyAt 0 three_children 1) ≠ -1 ∧
  Zcmp 5 (int_KeyAt 0 three_children 2) = -1 ∧
  int_ValueAt 0 three_children 1 = 20 ∧
  Lookup Zcmp 0 three_children 5 = 10 ∧
  Lookup Zcmp 0 three_children 5 = int_ValueAt 0 three_children 0.
Proof. vm_compute. repeat split; (reflexivity || discriminate). Qed.

Lemma Lookup_first_separator_not_below_witness :
  (∃ i, 1 ≤ i ≤ int_size three_children ∧
        Lookup Zcmp 0 three_children 5 = int_ValueAt 0 three_children (i - 1) ∧
        (∀ j, 1 ≤ j < i → Zcmp (int_KeyAt 0 three_children j) 5 = -1) ∧
        (∀ j, i ≤ j < int_size three_children →
              Zcmp (int_KeyAt 0 three_children j) 5 ≠ -1)) ∧
  (∀ j, 1 ≤ j < int_size three_children →
        Lookup Zcmp 0 three_children (int_KeyAt 0 three_children j)
        = int_ValueAt 0 three_children (j - 1)).
Proof.
  apply (Lookup_first_separator_not_below Zcmp 0 three_children 5).
  - apply Zcmp_trans.
  - apply Zcmp_irrefl.
  - vm_compute. discriminate.
  - apply three_children_sorted.
Defined.

(** *** A tree of integer keys *)

(** Modelled from the spec: [GetMinSize] of page/b_plus_tree_page.cpp, which
    is not among the sources.  A page that is not the root has at least its
    maximal size halved and rounded up, leaf or internal page.  The root (the
    page without parent) is exempt from this minimum: a root leaf is below
    its minimal size only when it is empty, an internal root only when it
    is left with a single child. *)
Definition spec_min_size (is_leaf : bool) (max_size : Z) (parent : page_id_t) : Z :=
  if decide (parent = INVALID_PAGE_ID) then (if is_leaf then 1 else 2)
  else (max_size + 1) / 2.

Section Root.
Context {KeyType ValueType : Type}.
Variable zero_key : KeyType.

(** C4.  [AdjustRoot] on the root page (the page without parent), with the
    minimal size of the root as the spec has it.  On an internal page of
    size 1 it makes the sole child the root, clears the parent pointer of
    the child, leaves the other pages as they are and returns true.  On a
    leaf it returns true exactly when the leaf is empty, and then the root
    page id is INVALID: the tree is empty.  In every other case it returns
    false and leaves the tree as it is. *)
Theorem AdjustRoot_root_page
    (old_root_node : Page (KeyType := KeyType) (ValueType := ValueType))
    (t : BPlusTree) :
  GetParentPageId old_root_node = INVALID_PAGE_ID →
  (∀ parent new_root,
     old_root_node = INTERNAL_PAGE parent → GetSize old_root_node = 1 →
     pages_ t !! int_ValueAt zero_key parent 0 = Some new_root →
     ∃ t',
       AdjustRoot zero_key spec_min_size old_root_node t = Some (true, t') ∧
       root_page_id_ t' = int_ValueAt zero_key parent 0 ∧
       pages_ t' !! root_page_id_ t'
         = Some (SetParentPageId INVALID_PAGE_ID new_root) ∧
       GetParentPageId (SetParentPageId INVALID_PAGE_ID new_root)
         = INVALID_PAGE_ID ∧
       (∀ pid, pid ≠ root_page_id_ t' → pages_ t' !! pid = pages_ t !! pid)) ∧
  (IsLeafPage old_root_node = true →
     (GetSize old_root_node = 0 →
        ∃ t',
          AdjustRoot zero_key spec_min_size old_root_node t = Some (true, t') ∧
          root_page_id_ t' = INVALID_PAGE_ID ∧ IsEmpty t' = true ∧
          pages_ t' = pages_ t) ∧
     (∀ t', AdjustRoot zero_key spec_min_size old_root_node t = Some (true, t') →
            GetSize old_root_node = 0)) ∧
  (¬ (IsLeafPage old_root_node = false ∧ GetSize old_root_node = 1) →
   ¬ (IsLeafPage old_root_node = true ∧ GetSize old_root_node = 0) →
   AdjustRoot zero_key spec_min_size old_root_node t = Some (false, t)).
Proof.
  intros Hroot.
  assert (Hmin : IsLeafPage old_root_node = true →
                 GetMinSize spec_min_size old_root_node = 1).
  { intros Hleaf. unfold GetMinSize, spec_min_size.
    rewrite Hroot, Hleaf. by rewrite decide_True. }
  assert (Hsize : 0 ≤ GetSize old_root_node)
    by (destruct old_root_node; simpl; lia).
  split; [|split].
  - intros parent new_root -> Hone Hchild.
    eexists. split.
    { destruct (AdjustRoot_cases zero_key spec_min_size (INTERNAL_PAGE parent) t)
        as [Hcase _].
      by apply (Hcase parent new_root). }
    simpl. split; [done|]. split; [by rewrite lookup_insert_eq|].
    split; [by destruct new_root|].
    intros pid Hpid. by rewrite lookup_insert_ne.
  - intros Hleaf. specialize (Hmin Hleaf).
    destruct old_root_node as [leaf|]; [|done]. split.
    + intros Hzero. eexists. split.
      { apply (AdjustRoot_leaf_min_one zero_key spec_min_size leaf t Hmin).
        exact Hzero. }
      done.
    + intros t' Hcall. unfold AdjustRoot in Hcall. rewrite Hmin in Hcall.
      case_decide; [lia|done].
  - intros Hint Hleaf. unfold AdjustRoot.
    destruct old_root_node as [leaf|node].
    + rewrite Hmin by done. rewrite decide_False; [done|].
      intros Hlt. apply Hleaf. split; [done|]. lia.
    + rewrite decide_False; [done|]. intros Hone. by apply Hint.
Qed.

End Root.

(** A tree that is one full leaf (maximal size 4) holding the keys 1..4. *)
Definition full_leaf : LeafPage (KeyType := Z) (ValueType := Z) :=
  mkLeaf 4 INVALID_PAGE_ID 1 INVALID_PAGE_ID INVALID_PAGE_ID
         [(1, 10); (2, 20); (3, 30); (4, 40)].
Definition full_leaf_tree : BPlusTree :=
  mkTree 1 {[ 1 := LEAF_PAGE full_leaf ]} 2 1.

(** The same tree after [Insert 5 50]: page 2 is the new right leaf, page 3
    the new root. *)
Definition left_half : LeafPage (KeyType := Z) (ValueType := Z) :=
  mkLeaf 4 3 1 2 INVALID_PAGE_ID [(1, 10); (2, 20)].
Definition right_half : LeafPage (KeyType := Z) (ValueType := Z) :=
  mkLeaf 4 3 2 INVALID_PAGE_ID 1 [(3, 30); (4, 40); (5, 50)].
Definition new_root : InternalPage (KeyType := Z) :=
  mkInternal 4 INVALID_PAGE_ID 3 [(0, 1); (2, 2)].
Definition split_tree : BPlusTree :=
  mkTree 3
         {[ 1 := LEAF_PAGE left_half;
            2 := LEAF_PAGE right_half;
            3 := INTERNAL_PAGE new_root ]}
         4 3.

(** C2, as stated, fails: inserting 5 splits the full leaf into [1, 2] and
    [3, 4, 5]; the key handed to [InsertIntoParent], which becomes the
    separator of the new root, is 2, the last key of the left leaf, and not
    3, the first key of the right leaf. *)
Lemma leaf_split_separator_not_first_of_right :
  Insert Zcmp 0 4 4 2 5 50 full_leaf_tree = Some (true, split_tree) ∧
  pages_ split_tree !! 1 = Some (LEAF_PAGE left_half) ∧
  pages_ split_tree !! 2 = Some (LEAF_PAGE right_half) ∧
  pages_ split_tree !! root_page_id_ split_tree = Some (INTERNAL_PAGE new_root) ∧
  split_separator 0 left_half = 2 ∧
  int_KeyAt 0 new_root 1 = 2 ∧
  head (leaf_array right_half).*1 = Some 3.
Proof. vm_compute. repeat split; reflexivity. Qed.

Lemma leaf_split_separator_is_last_of_left_witness :
  ∃ L R t2 first_of_R,
    Split_leaf 4 1
      (write_page 1 (LEAF_PAGE (leaf_Insert Zcmp 0 5 50 full_leaf)) full_leaf_tree)
      = Some (next_free_page_ full_leaf_tree, t2) ∧
    pages_ t2 !! 1 = Some (LEAF_PAGE L) ∧
    pages_ t2 !! next_free_page_ full_leaf_tree = Some (LEAF_PAGE R) ∧
    InsertIntoLeaf Zcmp 0 4 4 2 5 50 full_leaf_tree
      = (t3 ← InsertIntoParent 0 4 2 1 (split_separator 0 L)
                 (next_free_page_ full_leaf_tree) t2;
         Some (bool_decide (leaf_size full_leaf
                            ≠ leaf_size (leaf_Insert Zcmp 0 5 50 full_leaf)),
               t3)) ∧
    last (leaf_array L).*1 = Some (split_separator 0 L) ∧
    head (leaf_array R).*1 = Some first_of_R ∧
    Zcmp (split_separator 0 L) first_of_R = -1.
Proof.
  apply (leaf_split_separator_is_last_of_left Zcmp 0 4 4 2 5 50
           full_leaf_tree 1 full_leaf).
  - vm_compute. reflexivity.
  - vm_compute. reflexivity.
  - vm_compute. discriminate.
  - vm_compute. reflexivity.
  - vm_compute. discriminate.
  - vm_compute. repeat constructor.
Defined.

Lemma Insert_duplicate_key_witness :
  ∃ t', Insert Zcmp 0 4 4 1 3 99 full_leaf_tree = Some (false, t') ∧
        t' = full_leaf_tree ∧
        GetValue Zcmp 0 1 3 t' = Some (Some 30).
Proof.
  apply (Insert_duplicate_key Zcmp 0 4 4 1 3 30 99 full_leaf_tree).
  - vm_compute. reflexivity.
  - intros ptr leaf Hfind. vm_compute in Hfind.
    injection Hfind as <- <-. vm_compute. discriminate.
Defined.

(** A root leaf of maximal size 4 that still holds one entry. *)
Definition last_entry_leaf : LeafPage (KeyType := Z) (ValueType := Z) :=
  mkLeaf 4 INVALID_PAGE_ID 1 INVALID_PAGE_ID INVALID_PAGE_ID [(1, 10)].
Definition last_entry_tree : BPlusTree :=
  mkTree 1 {[ 1 := LEAF_PAGE last_entry_leaf ]} 2 1.

(** An empty root leaf, and an internal root that is left with the single
    child [last_entry_leaf] (as page 1, with the root as its parent). *)
Definition empty_leaf : LeafPage (KeyType := Z) (ValueType := Z) :=
  mkLeaf 4 INVALID_PAGE_ID 1 INVALID_PAGE_ID INVALID_PAGE_ID [].
Definition single_child_root : InternalPage (KeyType := Z) :=
  mkInternal 4 INVALID_PAGE_ID 3 [(0, 1)].
Definition single_child_tree : BPlusTree :=
  mkTree 3
         {[ 1 := LEAF_PAGE (mkLeaf 4 3 1 INVALID_PAGE_ID INVALID_PAGE_ID [(1, 10)]);
            3 := INTERNAL_PAGE single_child_root ]}
         4 3.

(** [AdjustRoot] on three roots: the leaf with one entry left stays the
    root; the empty leaf is given up and the tree is empty; the internal
    page with a single child hands the root over to the child. *)
Example AdjustRoot_on_roots :
  GetSize (LEAF_PAGE last_entry_leaf) = 1 ∧
  AdjustRoot 0 spec_min_size (LEAF_PAGE last_entry_leaf) last_entry_tree
    = Some (false, last_entry_tree) ∧
  AdjustRoot 0 spec_min_size (LEAF_PAGE empty_leaf)
             (mkTree 1 {[ 1 := LEAF_PAGE empty_leaf ]} 2 1)
    = Some (true, mkTree INVALID_PAGE_ID {[ 1 := LEAF_PAGE empty_leaf ]} 2
                         INVALID_PAGE_ID) ∧
  AdjustRoot 0 spec_min_size (INTERNAL_PAGE single_child_root) single_child_tree
    = Some (true,
            mkTree 1
                   {[ 1 := LEAF_PAGE last_entry_leaf;
                      3 := INTERNAL_PAGE single_child_root ]}
                   4 1).
Proof. vm_compute. repeat split; reflexivity. Qed.

Lemma AdjustRoot_root_page_witness :
  (∀ parent new_root,
     LEAF_PAGE last_entry_leaf = INTERNAL_PAGE parent →
     GetSize (LEAF_PAGE last_entry_leaf) = 1 →
     pages_ last_entry_tree !! int_ValueAt 0 parent 0 = Some new_root →
     ∃ t',
       AdjustRoot 0 spec_min_size (LEAF_PAGE last_entry_leaf) last_entry_tree
         = Some (true, t') ∧
       root_page_id_ t' = int_ValueAt 0 parent 0 ∧
       pages_ t' !! root_page_id_ t'
         = Some (SetParentPageId INVALID_PAGE_ID new_root) ∧
       GetParentPageId (SetParentPageId INVALID_PAGE_ID new_root)
         = INVALID_PAGE_ID ∧
       (∀ pid, pid ≠ root_page_id_ t' →
               pages_ t' !! pid = pages_ last_entry_tree !! pid)) ∧
  (IsLeafPage (LEAF_PAGE last_entry_leaf) = true →
     (GetSize (LEAF_PAGE last_entry_leaf) = 0 →
        ∃ t',
          AdjustRoot 0 spec_min_size (LEAF_PAGE last_entry_leaf) last_entry_tree
            = Some (true, t') ∧
          root_page_id_ t' = INVALID_PAGE_ID ∧ IsEmpty t' = true ∧
          pages_ t' = pages_ last_entry_tree) ∧
     (∀ t', AdjustRoot 0 spec_min_size (LEAF_PAGE last_entry_leaf) last_entry_tree
              = Some (true, t') →
            GetSize (LEAF_PAGE last_entry_leaf) = 0)) ∧
  (¬ (IsLeafPage (LEAF_PAGE last_entry_leaf) = false
      ∧ GetSize (LEAF_PAGE last_entry_leaf) = 1) →
   ¬ (IsLeafPage (LEAF_PAGE last_entry_leaf) = true
      ∧ GetSize (LEAF_PAGE last_entry_leaf) = 0) →
   AdjustRoot 0 spec_min_size (LEAF_PAGE last_entry_leaf) last_entry_tree
     = Some (false, last_entry_tree)).
Proof.
  apply (AdjustRoot_root_page 0 (LEAF_PAGE last_entry_leaf) last_entry_tree).
  reflexivity.
Defined.

(** *** Internal pages of integer keys *)

Lemma Remove_deletes_entry_witness :
  ∃ n', int_Remove 1 three_children = Some n' ∧
        int_size n' = int_size three_children - 1 ∧
        int_max_size_ n' = int_max_size_ three_children ∧
        int_parent_page_id_ n' = int_parent_page_id_ three_children ∧
        int_page_id_ n' = int_page_id_ three_children ∧
        (1 < int_size three_children →
           int_array n' = delete (Z.to_nat 1) (int_array three_children)) ∧
        (int_size three_children ≤ 1 →
           int_array n'
           = take (Z.to_nat (int_size three_children - 1))
                  (int_array three_children)).
Proof.
  apply (Remove_deletes_entry 1 three_children).
  - lia.
  - vm_compute. reflexivity.
Defined.

Lemma three_children_NoDup : NoDup (int_array three_children).*2.
Proof.
  simpl. repeat (apply NoDup_cons; split; [set_solver|]). apply NoDup_nil_2.
Qed.

Lemma Remove_of_ValueIndex_witness :
  ∃ n', int_Remove (ValueIndex three_children 20) three_children = Some n' ∧
        int_array n' = filter (λ e, e.2 ≠ 20) (int_array three_children) ∧
        int_size n' = int_size three_children - 1 ∧
        ValueIndex n' 20 = -1.
Proof.
  apply (Remove_of_ValueIndex three_children 20).
  - apply three_children_NoDup.
  - simpl. set_solver.
Defined.

(** The page [three_children] after its child 20 was split at the key 6
    into the pages 20 and 25. *)
Definition four_children : InternalPage (KeyType := Z) :=
  mkInternal 4 INVALID_PAGE_ID 7 [(0, 10); (5, 20); (6, 25); (8, 30)].

Lemma InsertNodeAfter_routes_witness :
  int_size four_children = int_size three_children + 1 ∧
  ∀ key,
    Lookup Zcmp 0 four_children key
    = if decide (Lookup Zcmp 0 three_children key = 20)
      then if decide (Zcmp 6 key = -1) then 25 else 20
      else Lookup Zcmp 0 three_children key.
Proof.
  apply (InsertNodeAfter_routes Zcmp 0 20 6 25 three_children four_children).
  - apply Zcmp_trans.
  - apply three_children_NoDup.
  - apply three_children_sorted.
  - vm_compute. discriminate.
  - vm_compute. reflexivity.
  - intros _. vm_compute. reflexivity.
  - intros _. vm_compute. reflexivity.
Defined.

(** Two leaves without parent, as [Split] leaves a root leaf and its new
    right sibling before [InsertIntoParent] runs. *)
Definition orphan_left : LeafPage (KeyType := Z) (ValueType := Z) :=
  mkLeaf 4 INVALID_PAGE_ID 1 2 INVALID_PAGE_ID [(1, 10); (2, 20)].
Definition orphan_right : LeafPage (KeyType := Z) (ValueType := Z) :=
  mkLeaf 4 INVALID_PAGE_ID 2 INVALID_PAGE_ID 1 [(3, 30); (4, 40); (5, 50)].
Definition orphan_tree : BPlusTree :=
  mkTree 1 {[ 1 := LEAF_PAGE orphan_left; 2 := LEAF_PAGE orphan_right ]} 3 1.

Lemma InsertIntoParent_new_root_witness :
  ∃ t' root,
    InsertIntoParent 0 4 1 1 2 2 orphan_tree = Some t' ∧
    root_page_id_ t' = 3 ∧
    header_root_ t' = 3 ∧
    next_free_page_ t' = 3 + 1 ∧
    pages_ t' !! root_page_id_ t' = Some (INTERNAL_PAGE root) ∧
    int_parent_page_id_ root = INVALID_PAGE_ID ∧
    int_page_id_ root = 3 ∧
    int_size root = 2 ∧
    (∀ x, Lookup Zcmp 0 root x
          = if decide (Zcmp 2 x = -1) then GetPageId (LEAF_PAGE orphan_right)
            else GetPageId (LEAF_PAGE orphan_left)) ∧
    pages_ t' !! 1 = Some (SetParentPageId 3 (LEAF_PAGE orphan_left)) ∧
    pages_ t' !! 2 = Some (SetParentPageId 3 (LEAF_PAGE orphan_right)) ∧
    (∀ q, q ≠ 1 → q ≠ 2 → q ≠ 3 → pages_ t' !! q = pages_ orphan_tree !! q).
Proof.
  apply (InsertIntoParent_new_root Zcmp 0 4 0%nat 1 2 2 orphan_tree
           (LEAF_PAGE orphan_left) (LEAF_PAGE orphan_right)).
  - vm_compute. reflexivity.
  - vm_compute. reflexivity.
  - vm_compute. reflexivity.
  - vm_compute. reflexivity.
  - discriminate.
Defined.

(** An internal page of maximal size 2 that holds three entries, and its
    three children. *)
Definition overfull_node : InternalPage (KeyType := Z) :=
  mkInternal 2 INVALID_PAGE_ID 7 [(0, 10); (5, 20); (8, 30)].
Definition child_leaf (page_id : page_id_t) : LeafPage (KeyType := Z) (ValueType := Z) :=
  mkLeaf 4 7 page_id INVALID_PAGE_ID INVALID_PAGE_ID [].
Definition overfull_tree : BPlusTree :=
  mkTree 7
         {[ 7 := INTERNAL_PAGE overfull_node;
            10 := LEAF_PAGE (child_leaf 10);
            20 := LEAF_PAGE (child_leaf 20);
            30 := LEAF_PAGE (child_leaf 30) ]}
         31 7.

Lemma Split_internal_moves_upper_half_witness :
  ∃ t' left right,
    Split_internal 2 7 overfull_tree = Some (31, t') ∧
    root_page_id_ t' = 7 ∧
    next_free_page_ t' = 31 + 1 ∧
    pages_ t' !! 7 = Some (INTERNAL_PAGE left) ∧
    pages_ t' !! 31 = Some (INTERNAL_PAGE right) ∧
    int_array left ++ int_array right = int_array overfull_node ∧
    int_size left = int_max_size_ overfull_node / 2 ∧
    int_parent_page_id_ left = int_parent_page_id_ overfull_node ∧
    int_parent_page_id_ right = int_parent_page_id_ overfull_node ∧
    int_page_id_ right = 31 ∧
    (∀ c, c ∈ (int_array right).*2 →
          ∃ p, pages_ overfull_tree !! c = Some p ∧
               pages_ t' !! c = Some (SetParentPageId 31 p)) ∧
    (∀ q, q ≠ 7 → q ≠ 31 → q ∉ (int_array right).*2 →
          pages_ t' !! q = pages_ overfull_tree !! q).
Proof.
  apply (Split_internal_moves_upper_half 2 7 overfull_tree overfull_node).
  - vm_compute. reflexivity.
  - vm_compute. discriminate.
  - vm_compute. reflexivity.
  - vm_compute. reflexivity.
  - intros c Hc. simpl in Hc.
    rewrite !elem_of_cons in Hc.
    destruct Hc as [-> | [-> | [-> | Hc]]]; [| | |by apply elem_of_nil in Hc].
    all: split; [discriminate|vm_compute; by eexists].
Defined.

(** Two internal siblings under the parent [three_children] (page 7): page
    10 with the children 100 and 101, page 20 with the children 200, 201 and
    202; the store holds the two children that the rotations move. *)
Definition left_sibling : InternalPage (KeyType := Z) :=
  mkInternal 4 7 10 [(0, 100); (2, 101)].
Definition right_sibling : InternalPage (KeyType := Z) :=
  mkInternal 4 7 20 [(0, 200); (6, 201); (7, 202)].
Definition grandchild (page_id parent : page_id_t)
  : LeafPage (KeyType := Z) (ValueType := Z) :=
  mkLeaf 4 parent page_id INVALID_PAGE_ID INVALID_PAGE_ID [].
Definition sibling_pages : gmap page_id_t Page :=
  {[ 7 := INTERNAL_PAGE three_children;
     10 := INTERNAL_PAGE left_sibling;
     20 := INTERNAL_PAGE right_sibling;
     101 := LEAF_PAGE (grandchild 101 10);
     200 := LEAF_PAGE (grandchild 200 20) ]}.

Lemma MoveFirstToEndOf_rotates_witness :
  ∃ pages' this' recipient' parent',
    MoveFirstToEndOf 0 20 10 sibling_pages = Some pages' ∧
    pages' !! 20 = Some (INTERNAL_PAGE this') ∧
    pages' !! 10 = Some (INTERNAL_PAGE recipient') ∧
    pages' !! int_parent_page_id_ right_sibling = Some (INTERNAL_PAGE parent') ∧
    pages' !! int_ValueAt 0 right_sibling 0
      = Some (SetParentPageId (int_page_id_ left_sibling)
                              (LEAF_PAGE (grandchild 200 20))) ∧
    (∀ q, q ≠ 20 → q ≠ 10 → q ≠ int_parent_page_id_ right_sibling →
          q ≠ int_ValueAt 0 right_sibling 0 → pages' !! q = sibling_pages !! q) ∧
    this' = with_array right_sibling (drop 1 (int_array right_sibling)) ∧
    recipient'
      = with_array left_sibling
          (int_array left_sibling
             ++ [(int_KeyAt 0 three_children
                    (ValueIndex three_children (int_page_id_ right_sibling)),
                  int_ValueAt 0 right_sibling 0)]) ∧
    parent'
      = with_array three_children
          (<[Z.to_nat (ValueIndex three_children (int_page_id_ right_sibling))
             := (int_KeyAt 0 right_sibling 1,
                 int_ValueAt 0 three_children
                   (ValueIndex three_children (int_page_id_ right_sibling)))]>
             (int_array three_children)) ∧
    int_array recipient'
      ++ with_first_key
           (int_KeyAt 0 parent'
              (ValueIndex three_children (int_page_id_ right_sibling)))
           (int_array this')
    = int_array left_sibling
      ++ with_first_key
           (int_KeyAt 0 three_children
              (ValueIndex three_children (int_page_id_ right_sibling)))
           (int_array right_sibling).
Proof.
  apply (MoveFirstToEndOf_rotates 0 20 10 sibling_pages right_sibling
           left_sibling three_children (LEAF_PAGE (grandchild 200 20))).
  all: vm_compute; (reflexivity || discriminate).
Defined.

Lemma MoveLastToFrontOf_rotates_witness :
  ∃ pages' this' recipient' parent',
    MoveLastToFrontOf 0 10 20 1 sibling_pages = Some pages' ∧
    pages' !! 10 = Some (INTERNAL_PAGE this') ∧
    pages' !! 20 = Some (INTERNAL_PAGE recipient') ∧
    pages' !! int_parent_page_id_ left_sibling = Some (INTERNAL_PAGE parent') ∧
    pages' !! int_ValueAt 0 left_sibling (int_size left_sibling - 1)
      = Some (SetParentPageId (int_page_id_ right_sibling)
                              (LEAF_PAGE (grandchild 101 10))) ∧
    (∀ q, q ≠ 10 → q ≠ 20 → q ≠ int_parent_page_id_ left_sibling →
          q ≠ int_ValueAt 0 left_sibling (int_size left_sibling - 1) →
          pages' !! q = sibling_pages !! q) ∧
    this'
      = with_array left_sibling
          (take (Z.to_nat (int_size left_sibling - 1)) (int_array left_sibling)) ∧
    recipient'
      = with_array right_sibling
          (int_at 0 left_sibling (int_size left_sibling - 1)
             :: with_first_key
                  (int_KeyAt 0 three_children
                     (ValueIndex three_children (int_page_id_ right_sibling)))
                  (int_array right_sibling)) ∧
    parent'
      = with_array three_children
          (<[Z.to_nat (ValueIndex three_children (int_page_id_ right_sibling))
             := (int_KeyAt 0 left_sibling (int_size left_sibling - 1),
                 int_ValueAt 0 three_children
                   (ValueIndex three_children (int_page_id_ right_sibling)))]>
             (int_array three_children)) ∧
    int_array this'
      ++ with_first_key
           (int_KeyAt 0 parent'
              (ValueIndex three_children (int_page_id_ right_sibling)))
           (int_array recipient')
    = int_array left_sibling
      ++ with_first_key
           (int_KeyAt 0 three_children
              (ValueIndex three_children (int_page_id_ right_sibling)))
           (int_array right_sibling).
Proof.
  apply (MoveLastToFrontOf_rotates 0 10 20 1 sibling_pages left_sibling
           right_sibling three_children (LEAF_PAGE (grandchild 101 10))).
  all: vm_compute; (reflexivity || discriminate).
Defined.

Lemma scan_reads_leaf_chain_witness :
  ∃ it, IndexIterator_new (pages_ split_tree) 1 0 = Some it ∧
        isEnd it = false ∧
        scan 6 (pages_ split_tree) it
        = Some (concat (leaf_array <$> left_half :: [right_half])).
Proof.
  apply (scan_reads_leaf_chain (pages_ split_tree) 1 left_half [right_half] 6).
  - cbn [leaf_chain]. repeat split; vm_compute; (reflexivity || discriminate).
  - vm_compute. lia.
Defined.

End BPlusTree.

(* ===================================================================== *)
(** ** logging/log_recovery.cpp *)
(* ===================================================================== *)

Module LogRecovery.

Definition lsn_t : Type := Z.
Definition txn_id_t : Type := Z.
Definition page_id_t : Type := Z.
(** [RID]: page id and slot number, 8 bytes in a log record. *)
Definition RID : Type := page_id_t * Z.

Inductive LogRecordType :=
| INVALID | INSERT | MARKDELETE | APPLYDELETE | ROLLBACKDELETE
| UPDATE | BEGIN | COMMIT | ABORT | NEWPAGE.

#[global] Instance LogRecordType_eq_dec : EqDecision LogRecordType.
Proof. solve_decision. Defined.

(** How a run of the model ends: the call returned, the process crashed
    (a null page), or the fuel that bounds the number of loop iterations
    ran out. *)
Inductive outcome (A : Type) :=
| Done (a : A)
| Crash
| OutOfFuel.
Arguments Done {A} a.
Arguments Crash {A}.
Arguments OutOfFuel {A}.

(** A 32-bit little-endian signed integer at [pos] of a byte buffer; bytes
    past the end read as 0. *)
Definition read_i32 (buf : list Z) (pos : Z) : Z :=
  let b i := nth (Z.to_nat (pos + i)) buf 0 in
  let u := b 0 + b 1 * 2 ^ 8 + b 2 * 2 ^ 16 + b 3 * 2 ^ 24 in
  if u <? 2 ^ 31 then u else u - 2 ^ 32.

Definition HEADER_SIZE : Z := 20.

Section Recovery.
Context {Tuple Body : Type}.

(** [LOG_BUFFER_SIZE] of common/config.h. *)
Variable LOG_BUFFER_SIZE : Z.
(** The numbering of [LogRecordType] in logging/log_record.h. *)
Variable decode_type : Z → LogRecordType.
(** [Tuple::DeserializeFrom] on the bytes at a position, [Tuple::GetLength]. *)
Variable Tuple_DeserializeFrom : list Z → Z → Tuple.
Variable Tuple_GetLength : Tuple → Z.
(** The operations of [TablePage] (table/table_page.h) on the content of a
    page; none of them is passed a log manager, none writes the page LSN. *)
Variable TablePage_Init : page_id_t → Body → Body.
Variable TablePage_InsertTuple : Tuple → RID → Body → Body.
Variable TablePage_UpdateTuple : Tuple → Tuple → RID → Body → Body.
Variable TablePage_MarkDelete : RID → Body → Body.
Variable TablePage_RollbackDelete : RID → Body → Body.
Variable TablePage_ApplyDelete : RID → Body → Body.

(** The fields of [LogRecord] that [DeserializeLogRecord] fills in. *)
Inductive Payload :=
| NoPayload
| DeletePayload (delete_rid_ : RID) (delete_tuple_ : Tuple)
| InsertPayload (insert_rid_ : RID) (insert_tuple_ : Tuple)
| UpdatePayload (update_rid_ : RID) (old_tuple_ new_tuple_ : Tuple)
| NewPagePayload (prev_page_id_ : page_id_t).

Record LogRecord := mkRecord {
  size_ : Z;
  lsn_ : lsn_t;
  txn_id_ : txn_id_t;
  prev_lsn_ : lsn_t;
  log_record_type_ : LogRecordType;
  payload_ : Payload
}.

Definition read_RID (buf : list Z) (pos : Z) : RID :=
  (read_i32 buf pos, read_i32 buf (pos + 4)).

(** [bool DeserializeLogRecord(const char *data, int size, LogRecord &)];
    [data] is the position [data_pos] in the buffer; [None] is the result
    false. *)
Definition DeserializeLogRecord (buf : list Z) (data_pos size : Z)
  : option LogRecord :=
  if decide (size < 4) then None
  else
    let rsize := read_i32 buf data_pos in
    if decide (rsize > size ∨ rsize ≤ 0) then None
    else
      let type := decode_type (read_i32 buf (data_pos + 16)) in
      let pos := data_pos + HEADER_SIZE in
      let payload :=
        match type with
        | MARKDELETE | ROLLBACKDELETE | APPLYDELETE =>
            DeletePayload (read_RID buf pos) (Tuple_DeserializeFrom buf (pos + 8))
        | INSERT =>
            InsertPayload (read_RID buf pos) (Tuple_DeserializeFrom buf (pos + 8))
        | UPDATE =>
            let old := Tuple_DeserializeFrom buf (pos + 8) in
            UpdatePayload (read_RID buf pos) old
              (Tuple_DeserializeFrom buf (pos + 8 + Tuple_GetLength old))
        | NEWPAGE => NewPagePayload (read_i32 buf pos)
        | _ => NoPayload
        end in
      Some (mkRecord rsize (read_i32 buf (data_pos + 4))
                     (read_i32 buf (data_pos + 8))
                     (read_i32 buf (data_pos + 12)) type payload).

(** A page in the buffer pool. *)
Record Page := mkPage {
  page_lsn_ : lsn_t;
  pin_count_ : Z;
  is_dirty_ : bool;
  body_ : Body
}.

Record LogRecovery := mkRecovery {
  offset_ : Z;
  log_buffer_ : list Z;
  active_txn_ : gmap txn_id_t lsn_t;
  lsn_mapping_ : gmap lsn_t Z;
  pool_ : gmap page_id_t Page;
  log_file_ : list Z;
  ENABLE_LOGGING : bool
}.

(** Modelled from the spec: [DiskManager::ReadLog(buf, len, offset)], an
    external collaborator; it fails at or past the end of the log and
    otherwise fills the buffer from [offset], with zeros after the end of
    the log. *)
Definition ReadLog (len offset : Z) (log : list Z) : option (list Z) :=
  if decide (Z.of_nat (length log) ≤ offset) then None
  else Some (take (Z.to_nat len)
                  (drop (Z.to_nat offset) log ++ replicate (Z.to_nat len) 0)).

(** [buffer_pool_manager_->FetchPage(page_id)]: the page is pinned once
    more. *)
Definition FetchPage (page_id : page_id_t) (s : LogRecovery)
  : option (Page * LogRecovery) :=
  p ← pool_ s !! page_id;
  let p' := mkPage (page_lsn_ p) (pin_count_ p + 1) (is_dirty_ p) (body_ p) in
  Some (p', mkRecovery (offset_ s) (log_buffer_ s) (active_txn_ s)
                       (lsn_mapping_ s) (<[page_id := p']> (pool_ s))
                       (log_file_ s) (ENABLE_LOGGING s)).

(** The page operation followed by
    [buffer_pool_manager_->UnpinPage(page_id, true)]. *)
Definition apply_and_unpin (page_id : page_id_t) (op : Body → Body)
    (p : Page) (s : LogRecovery) : LogRecovery :=
  mkRecovery (offset_ s) (log_buffer_ s) (active_txn_ s) (lsn_mapping_ s)
             (<[page_id := mkPage (page_lsn_ p) (pin_count_ p - 1) true
                                  (op (body_ p))]> (pool_ s))
             (log_file_ s) (ENABLE_LOGGING s).

Definition set_active_txn (m : gmap txn_id_t lsn_t) (s : LogRecovery) : LogRecovery :=
  mkRecovery (offset_ s) (log_buffer_ s) m (lsn_mapping_ s) (pool_ s)
             (log_file_ s) (ENABLE_LOGGING s).
Definition set_lsn_mapping (m : gmap lsn_t Z) (s : LogRecovery) : LogRecovery :=
  mkRecovery (offset_ s) (log_buffer_ s) (active_txn_ s) m (pool_ s)
             (log_file_ s) (ENABLE_LOGGING s).
Definition set_logging (b : bool) (s : LogRecovery) : LogRecovery :=
  mkRecovery (offset_ s) (log_buffer_ s) (active_txn_ s) (lsn_mapping_ s)
             (pool_ s) (log_file_ s) b.

(** The first [if]/[else if] chain of the loop body. *)
Definition track_txn (record : LogRecord) (s : LogRecovery) : LogRecovery :=
  match log_record_type_ record with
  | COMMIT | ABORT => set_active_txn (delete (txn_id_ record) (active_txn_ s)) s
  | _ => set_active_txn (<[txn_id_ record := lsn_ record]> (active_txn_ s)) s
  end.

(** What the second [if]/[else if] chain does with a record: [Applied] when
    control reaches the end of the loop body, [Continue] when it leaves the
    body through [continue]. *)
Inductive body_exit := Applied | Continue.

(** One of the five branches that compare the page LSN with the LSN of the
    record. *)
Definition redo_on_page (record : LogRecord) (rid : RID) (op : Body → Body)
    (s : LogRecovery) : option (body_exit * LogRecovery) :=
  '(page, s1) ← FetchPage rid.1 s;
  if decide (page_lsn_ page >= lsn_ record) then Some (Continue, s1)
  else Some (Applied, apply_and_unpin rid.1 op page s1).

Definition redo_record (record : LogRecord) (s : LogRecovery)
  : option (body_exit * LogRecovery) :=
  match log_record_type_ record, payload_ record with
  | NEWPAGE, NewPagePayload pageId =>
      '(page, s1) ← FetchPage pageId s;
      Some (Applied, apply_and_unpin pageId (TablePage_Init pageId) page s1)
  | UPDATE, UpdatePayload rid old new =>
      redo_on_page record rid (TablePage_UpdateTuple new old rid) s
  | INSERT, InsertPayload rid tuple =>
      redo_on_page record rid (TablePage_InsertTuple tuple rid) s
  | MARKDELETE, DeletePayload rid _ =>
      redo_on_page record rid (TablePage_MarkDelete rid) s
  | ROLLBACKDELETE, DeletePayload rid _ =>
      redo_on_page record rid (TablePage_RollbackDelete rid) s
  | APPLYDELETE, DeletePayload rid _ =>
      redo_on_page record rid (TablePage_ApplyDelete rid) s
  | _, _ => Some (Applied, s)
  end.

(** How the inner loop ends: [Redo] returned from inside it, or the
    buffer is used up ([fetchCnt] is handed back to the outer loop). *)
Inductive scan_exit := Returned | BufferDone (fetchCnt : Z).

(** The inner loop [while (size > 0)], with [data] at [data_pos]. *)
Fixpoint scan_buffer (fuel : nat) (data_pos size fetchCnt : Z) (s : LogRecovery)
  : outcome (scan_exit * LogRecovery) :=
  match fuel with
  | O => OutOfFuel
  | S fuel' =>
      if decide (size > 0) then
        match DeserializeLogRecord (log_buffer_ s) data_pos size with
        | None => Done (Returned, set_logging true s)
        | Some record =>
            match redo_record record (track_txn record s) with
            | None => Crash
            | Some (Continue, s1) => scan_buffer fuel' data_pos size fetchCnt s1
            | Some (Applied, s1) =>
                scan_buffer fuel' (data_pos + size_ record) (size - size_ record)
                  (fetchCnt + 1)
                  (set_lsn_mapping
                     (<[lsn_ record := data_pos + fetchCnt * LOG_BUFFER_SIZE]>
                        (lsn_mapping_ s1)) s1)
            end
        end
      else Done (BufferDone fetchCnt, s)
  end.

(** [retReadLog = disk_manager_->ReadLog(log_buffer_, LOG_BUFFER_SIZE, offset_)] *)
Definition read_next (s : LogRecovery) : bool * LogRecovery :=
  match ReadLog LOG_BUFFER_SIZE (offset_ s) (log_file_ s) with
  | None => (false, s)
  | Some buf =>
      (true, mkRecovery (offset_ s) buf (active_txn_ s) (lsn_mapping_ s)
                        (pool_ s) (log_file_ s) (ENABLE_LOGGING s))
  end.

(** The outer loop [while (retReadLog)]. *)
Fixpoint scan_log (fuel : nat) (retReadLog : bool) (fetchCnt : Z) (s : LogRecovery)
  : outcome LogRecovery :=
  match fuel with
  | O => OutOfFuel
  | S fuel' =>
      if retReadLog then
        match scan_buffer fuel' 0 LOG_BUFFER_SIZE fetchCnt s with
        | Done (Returned, s1) => Done s1
        | Done (BufferDone fetchCnt', s1) =>
            let s2 := mkRecovery (offset_ s1 + LOG_BUFFER_SIZE) (log_buffer_ s1)
                                 (active_txn_ s1) (lsn_mapping_ s1) (pool_ s1)
                                 (log_file_ s1) (ENABLE_LOGGING s1) in
            let '(ret, s3) := read_next s2 in
            scan_log fuel' ret fetchCnt' s3
        | Crash => Crash
        | OutOfFuel => OutOfFuel
        end
      else Done (set_logging true s)
  end.

(** [void Redo()] *)
Definition Redo (fuel : nat) (s : LogRecovery) : outcome LogRecovery :=
  let '(ret, s1) := read_next (set_logging false s) in
  scan_log fuel ret 0 s1.

(** *** Undo *)

(** The [if]/[else if] chain of the loop body of [Undo]; [None] when
    [assert(type == UPDATE || type == INSERT || type == MARKDELETE)] fails
    or the page is null. *)
Definition undo_record (record : LogRecord) (s : LogRecovery)
  : option (body_exit * LogRecovery) :=
  match log_record_type_ record, payload_ record with
  | MARKDELETE, DeletePayload rid _ =>
      redo_on_page record rid (TablePage_RollbackDelete rid) s
  | INSERT, InsertPayload rid _ =>
      redo_on_page record rid (TablePage_ApplyDelete rid) s
  | UPDATE, UpdatePayload rid old new =>
      redo_on_page record rid (TablePage_UpdateTuple old new rid) s
  | _, _ => None
  end.

(** The loop [while (true)] of [Undo] for one entry of [active_txn_].
    [lsn_mapping_[lastLsn]] enters the offset 0 for an LSN that has none;
    [Crash] is a failed assertion or a null page. *)
Fixpoint undo_txn (fuel : nat) (lastLsn : lsn_t) (s : LogRecovery)
  : outcome LogRecovery :=
  match fuel with
  | O => OutOfFuel
  | S fuel' =>
      let offset := default 0 (lsn_mapping_ s !! lastLsn) in
      let s0 := set_lsn_mapping (<[lastLsn := offset]> (lsn_mapping_ s)) s in
      match ReadLog LOG_BUFFER_SIZE offset (log_file_ s0) with
      | None => Crash
      | Some buf =>
          let s1 := mkRecovery (offset_ s0) buf (active_txn_ s0) (lsn_mapping_ s0)
                               (pool_ s0) (log_file_ s0) (ENABLE_LOGGING s0) in
          match DeserializeLogRecord buf 0 LOG_BUFFER_SIZE with
          | None => Crash
          | Some record =>
              if decide (log_record_type_ record = BEGIN) then Done s1
              else
                match undo_record record s1 with
                | None => Crash
                | Some (Continue, s2) => undo_txn fuel' lastLsn s2
                | Some (Applied, s2) => undo_txn fuel' (prev_lsn_ record) s2
                end
          end
      end
  end.

(** The loop [for (auto item : active_txn_)]; [items] are the entries of
    [active_txn_] in the order in which the loop visits them. *)
Fixpoint undo_items (fuel : nat) (items : list (txn_id_t * lsn_t)) (s : LogRecovery)
  : outcome LogRecovery :=
  match items with
  | [] => Done s
  | item :: rest =>
      match undo_txn fuel item.2 s with
      | Done s1 => undo_items fuel rest s1
      | Crash => Crash
      | OutOfFuel => OutOfFuel
      end
  end.

(** [void Undo()]; it leaves [ENABLE_LOGGING] false. *)
Definition Undo (fuel : nat) (items : list (txn_id_t * lsn_t)) (s : LogRecovery)
  : outcome LogRecovery :=
  match undo_items fuel items (set_logging false s) with
  | Done s1 => Done (set_logging false s1)
  | Crash => Crash
  | OutOfFuel => OutOfFuel
  end.

(** *** A record whose page is not older than the record *)

(** The record id of a record handled by one of the five branches that
    compare LSNs. *)
Definition compared_rid (record : LogRecord) : option RID :=
  match log_record_type_ record, payload_ record with
  | UPDATE, UpdatePayload rid _ _ => Some rid
  | INSERT, InsertPayload rid _ => Some rid
  | MARKDELETE, DeletePayload rid _ => Some rid
  | ROLLBACKDELETE, DeletePayload rid _ => Some rid
  | APPLYDELETE, DeletePayload rid _ => Some rid
  | _, _ => None
  end.

(** The loop is at a record that it will skip through [continue]. *)
Definition at_skipped_record (data_pos size : Z) (s : LogRecovery) : Prop :=
  size > 0 ∧
  ∃ record rid page,
    DeserializeLogRecord (log_buffer_ s) data_pos size = Some record ∧
    compared_rid record = Some rid ∧
    pool_ s !! rid.1 = Some page ∧
    page_lsn_ page >= lsn_ record.

Lemma redo_on_page_continue record rid op s page :
  pool_ s !! rid.1 = Some page → page_lsn_ page >= lsn_ record →
  ∃ s1, redo_on_page record rid op s = Some (Continue, s1) ∧
        log_buffer_ s1 = log_buffer_ s ∧
        ∃ page1, pool_ s1 !! rid.1 = Some page1 ∧ page_lsn_ page1 = page_lsn_ page.
Proof.
  intros Hpage Hlsn. unfold redo_on_page, FetchPage. rewrite Hpage. simpl.
  rewrite decide_True by done. eexists. split; [reflexivity|]. simpl.
  split; [done|]. eexists. by rewrite lookup_insert_eq.
Qed.

Lemma skipped_record_stays data_pos size s record rid page :
  DeserializeLogRecord (log_buffer_ s) data_pos size = Some record →
  compared_rid record = Some rid →
  pool_ s !! rid.1 = Some page → page_lsn_ page >= lsn_ record →
  ∃ s1, redo_record record (track_txn record s) = Some (Continue, s1) ∧
        log_buffer_ s1 = log_buffer_ s ∧
        ∃ page1, pool_ s1 !! rid.1 = Some page1 ∧ page_lsn_ page1 = page_lsn_ page.
Proof.
  intros Hdes Hrid Hpage Hlsn.
  assert (Hpool : pool_ (track_txn record s) !! rid.1 = Some page).
  { unfold track_txn. by destruct (log_record_type_ record). }
  assert (Hbuf : log_buffer_ (track_txn record s) = log_buffer_ s).
  { unfold track_txn. by destruct (log_record_type_ record). }
  rewrite <- Hbuf. unfold redo_record, compared_rid in *.
  destruct (log_record_type_ record), (payload_ record); simplify_eq;
    by apply redo_on_page_continue.
Qed.

(** The inner loop never leaves a record that it skips: it comes back to
    the same [data] and [size] at every iteration. *)
Lemma scan_buffer_stuck fuel data_pos size fetchCnt s :
  at_skipped_record data_pos size s →
  scan_buffer fuel data_pos size fetchCnt s = OutOfFuel.
Proof.
  revert s. induction fuel as [|fuel IH]; intros s Hat; [done|].
  destruct Hat as (Hsize & record & rid & page & Hdes & Hrid & Hpage & Hlsn).
  simpl. rewrite decide_True by done. rewrite Hdes.
  destruct (skipped_record_stays _ _ _ _ _ _ Hdes Hrid Hpage Hlsn)
    as (s1 & -> & Hbuf & page1 & Hpage1 & Hlsn1).
  apply IH. split; [done|]. exists record, rid, page1.
  rewrite Hbuf. split; [done|]. split; [done|]. split; [done|]. lia.
Qed.

Lemma scan_buffer_applied fuel data_pos size fetchCnt s record s1 :
  size > 0 →
  DeserializeLogRecord (log_buffer_ s) data_pos size = Some record →
  redo_record record (track_txn record s) = Some (Applied, s1) →
  scan_buffer (S fuel) data_pos size fetchCnt s
  = scan_buffer fuel (data_pos + size_ record) (size - size_ record)
      (fetchCnt + 1)
      (set_lsn_mapping
         (<[lsn_ record := data_pos + fetchCnt * LOG_BUFFER_SIZE]>
            (lsn_mapping_ s1)) s1).
Proof.
  intros Hsize Hdes Hredo. simpl.
  rewrite decide_True by done. by rewrite Hdes, Hredo.
Qed.

(** *** When the scan ends *)

(** The scan from [data_pos] on comes, after the records that it applies,
    to a record that it skips through [continue]. *)
Inductive reaches_skipped_record : Z → Z → Z → LogRecovery → Prop :=
| skipped_here data_pos size fetchCnt s :
    at_skipped_record data_pos size s →
    reaches_skipped_record data_pos size fetchCnt s
| skipped_later data_pos size fetchCnt s record s1 :
    size > 0 →
    DeserializeLogRecord (log_buffer_ s) data_pos size = Some record →
    redo_record record (track_txn record s) = Some (Applied, s1) →
    reaches_skipped_record (data_pos + size_ record) (size - size_ record)
      (fetchCnt + 1)
      (set_lsn_mapping
         (<[lsn_ record := data_pos + fetchCnt * LOG_BUFFER_SIZE]>
            (lsn_mapping_ s1)) s1) →
    reaches_skipped_record data_pos size fetchCnt s.

Lemma DeserializeLogRecord_size buf data_pos size record :
  DeserializeLogRecord buf data_pos size = Some record →
  0 < size_ record ≤ size.
Proof.
  unfold DeserializeLogRecord. case_decide; [done|].
  case_decide as Hr; [done|]. intros [= <-]. simpl. lia.
Qed.

Lemma redo_on_page_exit record rid op s e s1 :
  redo_on_page record rid op s = Some (e, s1) →
  offset_ s1 = offset_ s ∧ log_file_ s1 = log_file_ s ∧
  log_buffer_ s1 = log_buffer_ s ∧
  (e = Continue →
   ∃ page, pool_ s !! rid.1 = Some page ∧ page_lsn_ page >= lsn_ record).
Proof.
  unfold redo_on_page, FetchPage.
  destruct (pool_ s !! rid.1) as [page|] eqn:Hpage; [simpl|done].
  case_decide as Hlsn; intros [= <- <-]; simpl.
  - do 3 (split; [done|]). intros _. by exists page.
  - by do 3 (split; [done|]).
Qed.

Lemma redo_record_exit record s e s1 :
  redo_record record s = Some (e, s1) →
  offset_ s1 = offset_ s ∧ log_file_ s1 = log_file_ s ∧
  log_buffer_ s1 = log_buffer_ s ∧
  (e = Continue →
   ∃ rid page, compared_rid record = Some rid ∧
               pool_ s !! rid.1 = Some page ∧ page_lsn_ page >= lsn_ record).
Proof.
  unfold redo_record, compared_rid.
  destruct (log_record_type_ record), (payload_ record);
    try (intros [= <- <-]; by do 3 (split; [done|])).
  all: try (intros Hre; destruct (redo_on_page_exit _ _ _ _ _ _ Hre)
              as (? & ? & ? & Hc);
            do 3 (split; [done|]); intros He; destruct (Hc He) as (page & ? & ?);
            by eexists _, page).
  unfold FetchPage.
  match goal with
  | |- context [pool_ s !! ?pageId] => destruct (pool_ s !! pageId) as [page|]
  end; [simpl|done].
  intros [= <- <-]. by do 3 (split; [done|]).
Qed.

Lemma track_txn_frame record s :
  offset_ (track_txn record s) = offset_ s ∧
  log_file_ (track_txn record s) = log_file_ s ∧
  log_buffer_ (track_txn record s) = log_buffer_ s ∧
  pool_ (track_txn record s) = pool_ s.
Proof. unfold track_txn. by destruct (log_record_type_ record). Qed.

Lemma reaches_skipped_record_stuck data_pos size fetchCnt s :
  reaches_skipped_record data_pos size fetchCnt s →
  ∀ fuel, scan_buffer fuel data_pos size fetchCnt s = OutOfFuel.
Proof.
  induction 1 as [data_pos size fetchCnt s Hat
                 |data_pos size fetchCnt s record s1 Hsize Hdes Hredo _ IH];
    intros fuel.
  - by apply scan_buffer_stuck.
  - destruct fuel as [|fuel]; [done|].
    rewrite (scan_buffer_applied _ _ _ _ _ _ _ Hsize Hdes Hredo). apply IH.
Qed.

Lemma scan_buffer_S fuel data_pos size fetchCnt s :
  scan_buffer (S fuel) data_pos size fetchCnt s
  = if decide (size > 0) then
      match DeserializeLogRecord (log_buffer_ s) data_pos size with
      | None => Done (Returned, set_logging true s)
      | Some record =>
          match redo_record record (track_txn record s) with
          | None => Crash
          | Some (Continue, s1) => scan_buffer fuel data_pos size fetchCnt s1
          | Some (Applied, s1) =>
              scan_buffer fuel (data_pos + size_ record) (size - size_ record)
                (fetchCnt + 1)
                (set_lsn_mapping
                   (<[lsn_ record := data_pos + fetchCnt * LOG_BUFFER_SIZE]>
                      (lsn_mapping_ s1)) s1)
          end
      end
    else Done (BufferDone fetchCnt, s).
Proof. reflexivity. Qed.

Lemma scan_buffer_more_fuel fuel data_pos size fetchCnt s :
  scan_buffer fuel data_pos size fetchCnt s ≠ OutOfFuel →
  scan_buffer (S fuel) data_pos size fetchCnt s
  = scan_buffer fuel data_pos size fetchCnt s.
Proof.
  revert data_pos size fetchCnt s.
  induction fuel as [|fuel IH]; intros data_pos size fetchCnt s Hne; [done|].
  revert Hne. rewrite (scan_buffer_S (S fuel)), (scan_buffer_S fuel).
  destruct (decide (size > 0)); [|done].
  destruct (DeserializeLogRecord (log_buffer_ s) data_pos size) as [record|];
    [|done].
  destruct (redo_record record (track_txn record s)) as [[[] s1]|]; [| |done].
  - intros Hne. by apply IH.
  - intros Hne. by apply IH.
Qed.

Lemma scan_buffer_fuel_le fuel fuel' data_pos size fetchCnt s :
  (fuel ≤ fuel')%nat →
  scan_buffer fuel data_pos size fetchCnt s ≠ OutOfFuel →
  scan_buffer fuel' data_pos size fetchCnt s
  = scan_buffer fuel data_pos size fetchCnt s.
Proof.
  induction 1 as [|fuel' Hle IH]; intros Hne; [done|].
  rewrite scan_buffer_more_fuel; rewrite IH; done.
Qed.

Lemma scan_buffer_bound (n : nat) :
  ∀ data_pos size fetchCnt s, (Z.to_nat size ≤ n)%nat →
    reaches_skipped_record data_pos size fetchCnt s ∨
    ∃ r, r ≠ OutOfFuel ∧
         ∀ fuel, (n < fuel)%nat → scan_buffer fuel data_pos size fetchCnt s = r.
Proof.
  induction n as [|n IH]; intros data_pos size fetchCnt s Hn.
  - right. exists (Done (BufferDone fetchCnt, s)). split; [done|].
    intros [|fuel] Hfuel; [lia|]. simpl. rewrite decide_False by lia. done.
  - destruct (decide (size > 0)) as [Hsize|Hsize].
    2:{ right. exists (Done (BufferDone fetchCnt, s)). split; [done|].
        intros [|fuel] Hfuel; [lia|]. simpl. by rewrite decide_False. }
    destruct (DeserializeLogRecord (log_buffer_ s) data_pos size)
      as [record|] eqn:Hdes.
    2:{ right. exists (Done (Returned, set_logging true s)). split; [done|].
        intros [|fuel] Hfuel; [lia|]. simpl.
        rewrite decide_True by done. by rewrite Hdes. }
    destruct (redo_record record (track_txn record s)) as [[[] s1]|] eqn:Hredo.
    + pose proof (DeserializeLogRecord_size _ _ _ _ Hdes) as Hrs.
      destruct (IH (data_pos + size_ record) (size - size_ record) (fetchCnt + 1)
                   (set_lsn_mapping
                      (<[lsn_ record := data_pos + fetchCnt * LOG_BUFFER_SIZE]>
                         (lsn_mapping_ s1)) s1))
        as [Hreach|(r & Hr & Hrun)]; [lia| |].
      * left. by eapply skipped_later.
      * right. exists r. split; [done|]. intros [|fuel] Hfuel; [lia|].
        rewrite (scan_buffer_applied _ _ _ _ _ _ _ Hsize Hdes Hredo).
        apply Hrun. lia.
    + left. apply skipped_here. split; [done|].
      destruct (redo_record_exit _ _ _ _ Hredo) as (_ & _ & _ & Hc).
      destruct (Hc eq_refl) as (rid & page & Hrid & Hpage & Hlsn).
      destruct (track_txn_frame record s) as (_ & _ & _ & Hpool).
      rewrite Hpool in Hpage. by exists record, rid, page.
    + right. exists Crash. split; [done|].
      intros [|fuel] Hfuel; [lia|]. simpl.
      rewrite decide_True by done. by rewrite Hdes, Hredo.
Qed.

(** The inner loop of [Redo] on a buffer of [size] bytes either comes to a
    record that it skips, and then does not end whatever the number of
    iterations, or it ends within [size] iterations, with the same result
    for every larger number. *)
Theorem scan_buffer_ends_unless_skipped data_pos size fetchCnt s :
  (reaches_skipped_record data_pos size fetchCnt s ∧
   ∀ fuel, scan_buffer fuel data_pos size fetchCnt s = OutOfFuel) ∨
  (¬ reaches_skipped_record data_pos size fetchCnt s ∧
   ∃ r, r ≠ OutOfFuel ∧
        ∀ fuel, (Z.to_nat size < fuel)%nat →
                scan_buffer fuel data_pos size fetchCnt s = r).
Proof.
  destruct (scan_buffer_bound (Z.to_nat size) data_pos size fetchCnt s)
    as [Hreach|(r & Hr & Hrun)]; [done| |].
  - left. split; [done|]. by apply reaches_skipped_record_stuck.
  - right. split; [|by exists r]. intros Hreach. apply Hr.
    rewrite <- (Hrun (S (Z.to_nat size))) by lia.
    by apply reaches_skipped_record_stuck.
Qed.

Lemma scan_buffer_frame fuel data_pos size fetchCnt s e s1 :
  scan_buffer fuel data_pos size fetchCnt s = Done (e, s1) →
  offset_ s1 = offset_ s ∧ log_file_ s1 = log_file_ s.
Proof.
  revert data_pos size fetchCnt s.
  induction fuel as [|fuel IH]; intros data_pos size fetchCnt s; [done|].
  rewrite scan_buffer_S.
  destruct (decide (size > 0)); [|by intros [= <- <-]].
  destruct (DeserializeLogRecord (log_buffer_ s) data_pos size) as [record|];
    [|by intros [= <- <-]].
  destruct (redo_record record (track_txn record s)) as [[[] s2]|] eqn:Hredo;
    [| |done].
  all: destruct (redo_record_exit _ _ _ _ Hredo) as (Ho & Hf & _ & _).
  all: destruct (track_txn_frame record s) as (Ho' & Hf' & _ & _).
  all: intros Hrun; apply IH in Hrun as [Ho1 Hf1]; simpl in Ho1, Hf1.
  all: split; congruence.
Qed.

Lemma read_next_frame s ret s' :
  read_next s = (ret, s') →
  offset_ s' = offset_ s ∧ log_file_ s' = log_file_ s ∧
  (ret = true → offset_ s < Z.of_nat (length (log_file_ s))).
Proof.
  unfold read_next, ReadLog. case_decide; intros [= <- <-]; simpl.
  - done.
  - do 2 (split; [done|]). intros _. lia.
Qed.

Lemma scan_log_S fuel retReadLog fetchCnt s :
  scan_log (S fuel) retReadLog fetchCnt s
  = if retReadLog then
      match scan_buffer fuel 0 LOG_BUFFER_SIZE fetchCnt s with
      | Done (Returned, s1) => Done s1
      | Done (BufferDone fetchCnt', s1) =>
          let s2 := mkRecovery (offset_ s1 + LOG_BUFFER_SIZE) (log_buffer_ s1)
                               (active_txn_ s1) (lsn_mapping_ s1) (pool_ s1)
                               (log_file_ s1) (ENABLE_LOGGING s1) in
          let '(ret, s3) := read_next s2 in
          scan_log fuel ret fetchCnt' s3
      | Crash => Crash
      | OutOfFuel => OutOfFuel
      end
    else Done (set_logging true s).
Proof. reflexivity. Qed.

Lemma scan_log_more_fuel fuel retReadLog fetchCnt s :
  scan_log fuel retReadLog fetchCnt s ≠ OutOfFuel →
  scan_log (S fuel) retReadLog fetchCnt s = scan_log fuel retReadLog fetchCnt s.
Proof.
  revert retReadLog fetchCnt s.
  induction fuel as [|fuel IH]; intros retReadLog fetchCnt s Hne; [done|].
  revert Hne. rewrite (scan_log_S (S fuel)), (scan_log_S fuel).
  destruct retReadLog; [|done].
  destruct (scan_buffer fuel 0 LOG_BUFFER_SIZE fetchCnt s) as [[e s1]| |] eqn:Hin;
    [|by rewrite scan_buffer_more_fuel, Hin by (by rewrite Hin)|done].
  rewrite scan_buffer_more_fuel, Hin by (by rewrite Hin).
  destruct e as [|fetchCnt']; [done|]. simpl.
  destruct (read_next _) as [ret s3]. apply IH.
Qed.

Lemma scan_log_fuel_le fuel fuel' retReadLog fetchCnt s :
  (fuel ≤ fuel')%nat →
  scan_log fuel retReadLog fetchCnt s ≠ OutOfFuel →
  scan_log fuel' retReadLog fetchCnt s = scan_log fuel retReadLog fetchCnt s.
Proof.
  induction 1 as [|fuel' Hle IH]; intros Hne; [done|].
  rewrite scan_log_more_fuel; rewrite IH; done.
Qed.

Lemma scan_log_bound (m : nat) :
  0 < LOG_BUFFER_SIZE →
  ∀ retReadLog fetchCnt s,
    Z.of_nat (length (log_file_ s)) - offset_ s ≤ Z.of_nat m →
    (∀ fuel, scan_log fuel retReadLog fetchCnt s = OutOfFuel) ∨
    ∃ r, r ≠ OutOfFuel ∧
         ∀ fuel, (Z.to_nat LOG_BUFFER_SIZE + m + 2 ≤ fuel)%nat →
                 scan_log fuel retReadLog fetchCnt s = r.
Proof.
  intros Hlbs. induction m as [m IH] using lt_wf_ind.
  intros retReadLog fetchCnt s Hm. destruct retReadLog.
  2:{ right. exists (Done (set_logging true s)). split; [done|].
      intros [|fuel] Hfuel; [lia|done]. }
  destruct (scan_buffer_bound (Z.to_nat LOG_BUFFER_SIZE) 0 LOG_BUFFER_SIZE fetchCnt s)
    as [Hreach|(r & Hr & Hrun)]; [done| |].
  { left. intros [|fuel]; [done|]. rewrite scan_log_S.
    by rewrite (reaches_skipped_record_stuck _ _ _ _ Hreach). }
  assert (Hinner : ∀ fuel, scan_buffer fuel 0 LOG_BUFFER_SIZE fetchCnt s = OutOfFuel ∨
                           scan_buffer fuel 0 LOG_BUFFER_SIZE fetchCnt s = r).
  { intros fuel.
    destruct (scan_buffer fuel 0 LOG_BUFFER_SIZE fetchCnt s) as [x| |] eqn:Hf;
      [right|right|by left].
    - rewrite <- (Hrun (S (fuel + Z.to_nat LOG_BUFFER_SIZE))) by lia.
      rewrite (scan_buffer_fuel_le fuel) by (lia || by rewrite Hf). done.
    - rewrite <- (Hrun (S (fuel + Z.to_nat LOG_BUFFER_SIZE))) by lia.
      rewrite (scan_buffer_fuel_le fuel) by (lia || by rewrite Hf). done. }
  destruct r as [[[|fetchCnt'] s1]| |]; [| | |done].
  - right. exists (Done s1). split; [done|].
    intros [|fuel] Hfuel; [lia|]. rewrite scan_log_S, Hrun by lia. done.
  - destruct (scan_buffer_frame _ _ _ _ _ _ _ (Hrun (S (Z.to_nat LOG_BUFFER_SIZE))
                                                    ltac:(lia)))
      as [Ho Hf].
    set (s2 := mkRecovery (offset_ s1 + LOG_BUFFER_SIZE) (log_buffer_ s1)
                          (active_txn_ s1) (lsn_mapping_ s1) (pool_ s1)
                          (log_file_ s1) (ENABLE_LOGGING s1)).
    assert (Hstep : ∀ ret s3, read_next s2 = (ret, s3) → ∀ fuel,
              scan_buffer fuel 0 LOG_BUFFER_SIZE fetchCnt s
              = Done (BufferDone fetchCnt', s1) →
              scan_log (S fuel) true fetchCnt s = scan_log fuel ret fetchCnt' s3).
    { intros ret s3 Hread fuel Hf'. rewrite scan_log_S, Hf'. fold s2. cbv zeta.
      by rewrite Hread. }
    destruct (read_next s2) as [ret s3] eqn:Hread.
    specialize (Hstep ret s3 eq_refl).
    destruct (read_next_frame _ _ _ Hread) as (Ho3 & Hf3 & Hret).
    destruct ret.
    + destruct (IH (m - 1)%nat) with (retReadLog := true) (fetchCnt := fetchCnt')
                                     (s := s3)
        as [Hstuck|(r & Hr' & Hrun')].
      { specialize (Hret eq_refl). simpl in Hret. rewrite Ho, Hf in Hret. lia. }
      { specialize (Hret eq_refl). rewrite Ho3, Hf3. simpl in Hret |- *.
        rewrite Ho, Hf in *. lia. }
      * left. intros [|fuel]; [done|].
        destruct (Hinner fuel) as [Hf'|Hf'].
        -- by rewrite scan_log_S, Hf'.
        -- rewrite Hstep by done. apply Hstuck.
      * right. exists r. split; [done|].
        assert (1 ≤ m)%nat
          by (specialize (Hret eq_refl); simpl in Hret; rewrite Ho, Hf in Hret; lia).
        intros [|fuel] Hfuel; [lia|]. rewrite Hstep by (apply Hrun; lia).
        apply Hrun'. lia.
    + right. exists (Done (set_logging true s3)). split; [done|].
      intros [|fuel] Hfuel; [lia|]. rewrite Hstep by (apply Hrun; lia).
      destruct fuel; [lia|done].
  - right. exists Crash. split; [done|].
    intros [|fuel] Hfuel; [lia|]. rewrite scan_log_S, Hrun by lia. done.
Qed.

(** [Redo] with a positive [LOG_BUFFER_SIZE], started at an offset that is
    not negative: when it returns (or crashes) at all, it has done so after
    no more iterations than [LOG_BUFFER_SIZE] plus the length of the log
    plus 2, with the same result for every larger number; a run that has
    not ended by then never ends. *)
Theorem Redo_ends_within_bound (fuel0 fuel : nat) (s : LogRecovery) :
  0 < LOG_BUFFER_SIZE →
  0 ≤ offset_ s →
  Redo fuel0 s ≠ OutOfFuel →
  (Z.to_nat LOG_BUFFER_SIZE + length (log_file_ s) + 2 ≤ fuel)%nat →
  Redo fuel s = Redo fuel0 s.
Proof.
  intros Hlbs Hoff Hne Hfuel. unfold Redo in *.
  destruct (read_next (set_logging false s)) as [ret s1] eqn:Hread.
  destruct (read_next_frame _ _ _ Hread) as (Ho & Hf & _). simpl in Ho, Hf.
  destruct (scan_log_bound (length (log_file_ s)) Hlbs ret 0 s1)
    as [Hstuck|(r & Hr & Hrun)]; [rewrite Ho, Hf; lia| |].
  - exfalso. apply Hne, Hstuck.
  - rewrite (Hrun fuel Hfuel).
    rewrite <- (Hrun (fuel0 + fuel)%nat) by lia.
    apply scan_log_fuel_le; [lia|done].
Qed.

(** *** The offsets that Redo records *)

Lemma redo_record_mapping record s e s1 :
  redo_record record s = Some (e, s1) → lsn_mapping_ s1 = lsn_mapping_ s.
Proof.
  unfold redo_record, redo_on_page, FetchPage.
  destruct (log_record_type_ record), (payload_ record);
    try (by intros [= <- <-]).
  all: match goal with
       | |- context [@lookup _ _ (gmap page_id_t Page) _ ?pid ?m] =>
           destruct (m !! pid) as [page|]
       end; [simpl|done].
  all: try case_decide.
  all: by intros [= <- <-].
Qed.

Lemma track_txn_mapping record s :
  lsn_mapping_ (track_txn record s) = lsn_mapping_ s.
Proof. unfold track_txn. by destruct (log_record_type_ record). Qed.

Lemma scan_buffer_offsets fuel :
  0 < LOG_BUFFER_SIZE →
  ∀ data_pos size fetchCnt s e s',
    0 ≤ data_pos → 0 ≤ fetchCnt →
    scan_buffer fuel data_pos size fetchCnt s = Done (e, s') →
    (∀ lsn off, lsn_mapping_ s' !! lsn = Some off →
       lsn_mapping_ s !! lsn = Some off ∨
       off = data_pos + fetchCnt * LOG_BUFFER_SIZE ∨
       data_pos + (fetchCnt + 1) * LOG_BUFFER_SIZE ≤ off) ∧
    (∀ fetchCnt', e = BufferDone fetchCnt' →
       fetchCnt ≤ fetchCnt' ∧ (size > 0 → fetchCnt + 1 ≤ fetchCnt')).
Proof.
  intros Hlbs. induction fuel as [|fuel IH];
    intros data_pos size fetchCnt s e s' Hpos Hcnt; [done|].
  rewrite scan_buffer_S.
  destruct (decide (size > 0)) as [Hsize|Hsize].
  2:{ intros [= <- <-]. split; [by left|]. intros c [= <-]. lia. }
  destruct (DeserializeLogRecord (log_buffer_ s) data_pos size)
    as [record|] eqn:Hdes.
  2:{ intros [= <- <-]. split; [by left|]. done. }
  pose proof (DeserializeLogRecord_size _ _ _ _ Hdes) as Hrs.
  destruct (redo_record record (track_txn record s)) as [[[] s1]|] eqn:Hredo;
    [| |done].
  all: pose proof (redo_record_mapping _ _ _ _ Hredo) as Hmap.
  all: rewrite track_txn_mapping in Hmap.
  - intros Hrun. apply IH in Hrun as [Hoff Hdone]; [|lia|lia].
    split.
    + intros lsn off Hl. destruct (Hoff lsn off Hl) as [Hold|[->|Hge]].
      * simpl in Hold. destruct (decide (lsn = lsn_ record)) as [->|Hne].
        -- rewrite lookup_insert_eq in Hold. injection Hold as <-. by right; left.
        -- rewrite lookup_insert_ne in Hold by done. left. by rewrite <- Hmap.
      * right; right. nia.
      * right; right. nia.
    + intros c Hc. destruct (Hdone c Hc). lia.
  - intros Hrun. apply IH in Hrun as [Hoff Hdone]; [|lia|lia].
    split.
    + intros lsn off Hl. rewrite <- Hmap. by apply Hoff.
    + intros c Hc. destruct (Hdone c Hc). split; [lia|].
      intros _. by apply H0.
Qed.

Lemma scan_log_offsets fuel :
  0 < LOG_BUFFER_SIZE →
  ∀ retReadLog fetchCnt s s',
    0 ≤ fetchCnt →
    scan_log fuel retReadLog fetchCnt s = Done s' →
    ∀ lsn off, lsn_mapping_ s' !! lsn = Some off →
      lsn_mapping_ s !! lsn = Some off ∨
      off = fetchCnt * LOG_BUFFER_SIZE ∨
      (fetchCnt + 1) * LOG_BUFFER_SIZE ≤ off.
Proof.
  intros Hlbs. induction fuel as [|fuel IH];
    intros retReadLog fetchCnt s s' Hcnt; [done|].
  rewrite scan_log_S. destruct retReadLog; [|intros [= <-]; by left].
  destruct (scan_buffer fuel 0 LOG_BUFFER_SIZE fetchCnt s) as [[e s1]| |] eqn:Hin;
    [|done|done].
  destruct (scan_buffer_offsets fuel Hlbs 0 LOG_BUFFER_SIZE fetchCnt s e s1
              ltac:(lia) Hcnt Hin)
    as [Hoff Hdone].
  destruct e as [|fetchCnt'].
  - intros [= <-]. intros lsn off Hl.
    destruct (Hoff lsn off Hl) as [?|[->|?]]; [by left|right; left; lia|right; right; lia].
  - cbv zeta.
    destruct (read_next _) as [ret s3] eqn:Hread.
    destruct (Hdone fetchCnt' eq_refl) as [_ Hmore]. specialize (Hmore ltac:(lia)).
    assert (Hmap3 : lsn_mapping_ s3 = lsn_mapping_ s1).
    { unfold read_next in Hread.
      destruct (ReadLog _ _ _); injection Hread as <- <-; done. }
    intros Hrun lsn off Hl.
    destruct (IH ret fetchCnt' s3 s' ltac:(lia) Hrun lsn off Hl)
      as [Hold|[->|Hge]].
    + rewrite Hmap3 in Hold.
      destruct (Hoff lsn off Hold) as [?|[->|?]];
        [by left|right; left; lia|right; right; lia].
    + right; right. nia.
    + right; right. nia.
Qed.

(** [Redo] with a positive [LOG_BUFFER_SIZE] records the offset 0 or an
    offset of at least [LOG_BUFFER_SIZE] for every LSN whose offset it sets:
    the record at position [p] that is the [k]-th record applied gets
    [p + k * LOG_BUFFER_SIZE], so no record after the first one is recorded
    at its place in the first chunk of the log. *)
Theorem Redo_records_no_offset_inside_first_chunk (fuel : nat) (s s' : LogRecovery) :
  0 < LOG_BUFFER_SIZE →
  Redo fuel s = Done s' →
  ∀ lsn off, lsn_mapping_ s' !! lsn = Some off →
    lsn_mapping_ s !! lsn = Some off ∨ off = 0 ∨ LOG_BUFFER_SIZE ≤ off.
Proof.
  intros Hlbs Hrun lsn off Hl. unfold Redo in Hrun.
  destruct (read_next (set_logging false s)) as [ret s1] eqn:Hread.
  assert (Hmap : lsn_mapping_ s1 = lsn_mapping_ s).
  { unfold read_next in Hread.
    destruct (ReadLog _ _ _); injection Hread as <- <-; done. }
  destruct (scan_log_offsets fuel Hlbs ret 0 s1 s' ltac:(lia) Hrun lsn off Hl)
    as [Hold|[->|Hge]].
  - left. by rewrite <- Hmap.
  - right; left. lia.
  - right; right. lia.
Qed.

(** *** Undo of a record whose page is not older than the record *)

(** The record id of a record that [Undo] undoes. *)
Definition undone_rid (record : LogRecord) : option RID :=
  match log_record_type_ record, payload_ record with
  | MARKDELETE, DeletePayload rid _ => Some rid
  | INSERT, InsertPayload rid _ => Some rid
  | UPDATE, UpdatePayload rid _ _ => Some rid
  | _, _ => None
  end.

(** The record that [Undo] reads for [lastLsn] is one that it skips through
    [continue]. *)
Definition undo_at_skipped_record (lastLsn : lsn_t) (s : LogRecovery) : Prop :=
  ∃ buf record rid page,
    ReadLog LOG_BUFFER_SIZE (default 0 (lsn_mapping_ s !! lastLsn)) (log_file_ s)
      = Some buf ∧
    DeserializeLogRecord buf 0 LOG_BUFFER_SIZE = Some record ∧
    undone_rid record = Some rid ∧
    pool_ s !! rid.1 = Some page ∧
    page_lsn_ page >= lsn_ record.

Lemma undo_txn_stuck fuel lastLsn s :
  undo_at_skipped_record lastLsn s → undo_txn fuel lastLsn s = OutOfFuel.
Proof.
  revert s. induction fuel as [|fuel IH]; intros s Hat; [done|].
  destruct Hat as (buf & record & rid & page & Hread & Hdes & Hrid & Hpage & Hlsn).
  cbn [undo_txn]. cbv zeta.
  change (log_file_ (set_lsn_mapping _ s)) with (log_file_ s).
  rewrite Hread, Hdes.
  assert (Htype : log_record_type_ record ≠ BEGIN).
  { intros Hb. unfold undone_rid in Hrid. rewrite Hb in Hrid. done. }
  rewrite decide_False by done.
  set (s1 := mkRecovery _ _ _ _ _ _ _).
  assert (Hundo : ∃ s2, undo_record record s1 = Some (Continue, s2) ∧
                        log_file_ s2 = log_file_ s ∧
                        lsn_mapping_ s2
                        = <[lastLsn := default 0 (lsn_mapping_ s !! lastLsn)]>
                            (lsn_mapping_ s) ∧
                        ∃ page2, pool_ s2 !! rid.1 = Some page2 ∧
                                 page_lsn_ page2 = page_lsn_ page).
  { unfold undo_record, undone_rid in *.
    destruct (log_record_type_ record), (payload_ record); simplify_eq.
    all: unfold redo_on_page, FetchPage.
    all: change (pool_ s1) with (pool_ s); rewrite Hpage; simpl.
    all: rewrite decide_True by done.
    all: eexists; split; [reflexivity|]; simpl.
    all: do 2 (split; [done|]); eexists; by rewrite lookup_insert_eq. }
  destruct Hundo as (s2 & -> & Hfile & Hmap & page2 & Hpage2 & Hlsn2).
  apply IH. exists buf, record, rid, page2.
  rewrite Hfile, Hmap, lookup_insert_eq. simpl.
  split; [done|]. split; [done|]. split; [done|]. split; [done|]. lia.
Qed.

(** [Undo] does not return when the last record of the transaction that it
    visits first lies on a page whose LSN is not below the LSN of the
    record: [continue] skips [lastLsn = record.GetPrevLSN()], and the loop
    reads the same record again, whatever the number of iterations. *)
Theorem Undo_never_returns_on_skipped_record (fuel : nat) (txn : txn_id_t)
    (lastLsn : lsn_t) (rest : list (txn_id_t * lsn_t)) (s : LogRecovery) :
  undo_at_skipped_record lastLsn s →
  Undo fuel ((txn, lastLsn) :: rest) s = OutOfFuel.
Proof.
  intros Hat. unfold Undo. cbn [undo_items snd].
  rewrite undo_txn_stuck; [done|].
  destruct Hat as (buf & record & rid & page & Hread & Hdes & Hrid & Hpage & Hlsn).
  by exists buf, record, rid, page.
Qed.

End Recovery.
(** *** A log of two records *)

(** The four bytes of a 32-bit little-endian integer. *)
Definition le32 (z : Z) : list Z :=
  let u := z mod 2 ^ 32 in
  [u mod 256; (u / 2 ^ 8) mod 256; (u / 2 ^ 16) mod 256; (u / 2 ^ 24) mod 256].

(** The enum numbered in the order of its declaration. *)
Definition type_of_code (c : Z) : LogRecordType :=
  match c with
  | 1 => INSERT | 2 => MARKDELETE | 3 => APPLYDELETE | 4 => ROLLBACKDELETE
  | 5 => UPDATE | 6 => BEGIN | 7 => COMMIT | 8 => ABORT | 9 => NEWPAGE
  | _ => INVALID
  end.

(** A tuple is its bytes, serialized as a 32-bit length and the bytes.
    [Tuple::DeserializeFrom] copies as many bytes as the length says; the
    list is what it copies where [tuple_within] holds.  Where the bytes that
    the length announces do not end within the buffer (or the length is
    negative) the function reads past the buffer, which the list, cut at
    the end of the buffer, does not show. *)
Definition bytes_tuple (buf : list Z) (pos : Z) : list Z :=
  take (Z.to_nat (read_i32 buf pos)) (drop (Z.to_nat (pos + 4)) buf).
Definition bytes_length (t : list Z) : Z := Z.of_nat (length t).

(** The length at [pos] and the bytes that it announces lie within the
    buffer. *)
Definition tuple_within (buf : list Z) (pos : Z) : Prop :=
  0 ≤ pos ∧ 0 ≤ read_i32 buf pos ∧
  pos + 4 + read_i32 buf pos ≤ Z.of_nat (length buf).

Lemma bytes_tuple_within (buf : list Z) (pos : Z) :
  tuple_within buf pos → bytes_length (bytes_tuple buf pos) = read_i32 buf pos.
Proof.
  intros (Hpos & Hlen & Hend). unfold bytes_length, bytes_tuple.
  rewrite length_take, length_drop. lia.
Qed.

(** A stand-in for the table page, which is an external collaborator: the
    content of a page is the list of its tuples with their record ids. *)
Definition slots : Type := list (RID * list Z).
Definition slots_Init (pid : page_id_t) (b : slots) : slots := [].
Definition slots_Insert (t : list Z) (rid : RID) (b : slots) : slots := (rid, t) :: b.
Definition slots_Delete (rid : RID) (b : slots) : slots :=
  filter (λ e, e.1 ≠ rid) b.
Definition slots_Update (new old : list Z) (rid : RID) (b : slots) : slots :=
  (rid, new) :: slots_Delete rid b.
Definition slots_Keep (rid : RID) (b : slots) : slots := b.

Definition Redo64 : nat → LogRecovery → outcome LogRecovery :=
  Redo 64 type_of_code bytes_tuple bytes_length
       slots_Init slots_Insert slots_Update slots_Keep slots_Keep slots_Delete.

(** Transaction 1 begins (LSN 0) and inserts the tuple [7; 7] at slot 0 of
    page 1 (LSN 1); the log ends there. *)
Definition begin_record : list Z :=
  le32 20 ++ le32 0 ++ le32 1 ++ le32 (-1) ++ le32 6.
Definition insert_record : list Z :=
  le32 34 ++ le32 1 ++ le32 1 ++ le32 0 ++ le32 1
    ++ le32 1 ++ le32 0 ++ le32 2 ++ [7; 7].
Definition two_record_log : list Z := begin_record ++ insert_record.

Definition recovery_with (page1 : Page (Body := slots)) : LogRecovery :=
  mkRecovery 0 [] ∅ ∅ {[ 1 := page1 ]} two_record_log true.

(** Page 1 reached the disk after the insert: it carries LSN 1 and the
    tuple. *)
Definition flushed_page : Page (Body := slots) :=
  mkPage 1 0 false [((1, 0), [7; 7])].
(** Page 1 did not reach the disk after the insert: it is empty, with LSN 0. *)
Definition stale_page : Page (Body := slots) :=
  mkPage 0 0 false [].

(** On the stale page the insert is replayed, the zero bytes after the last
    record end the scan, and [Redo] returns with transaction 1 active. *)
Example Redo_replays_on_stale_page :
  ∃ s, Redo64 4 (recovery_with stale_page) = Done s ∧
       pool_ s !! 1 = Some (mkPage 0 0 true [((1, 0), [7; 7])]) ∧
       active_txn_ s = {[ 1 := 1 ]} ∧
       ENABLE_LOGGING s = true.
Proof. eexists. vm_compute. repeat split; reflexivity. Qed.

(** C1.  On the flushed page [Redo] does not return: after the BEGIN record
    the loop reaches the INSERT record, finds the page LSN 1 not below the
    record LSN 1, and [continue] takes it back to the same record, for
    ever; whatever the fuel, the run ends out of fuel. *)
Theorem Redo_never_returns_on_flushed_page (fuel : nat) :
  Redo64 fuel (recovery_with flushed_page) = OutOfFuel.
Proof.
  unfold Redo64, Redo.
  set (r := read_next 64 (set_logging false (recovery_with flushed_page))).
  assert (Hr : r.1 = true) by (vm_compute; reflexivity).
  destruct r as [ret s1] eqn:Hs1. simpl in Hr. subst ret.
  destruct fuel as [|fuel]; [done|]. simpl.
  assert (Hstuck : scan_buffer 64 type_of_code bytes_tuple bytes_length
             slots_Init slots_Insert slots_Update slots_Keep slots_Keep slots_Delete
             fuel 0 64 0 s1 = OutOfFuel); [|by rewrite Hstuck].
  assert (Hs : s1 = (read_next 64 (set_logging false (recovery_with flushed_page))).2)
    by (unfold r in Hs1; by rewrite Hs1).
  clear Hs1. subst s1.
  destruct fuel as [|fuel]; [done|].
  erewrite scan_buffer_applied;
    [|done|vm_compute; reflexivity|vm_compute; reflexivity].
  apply scan_buffer_stuck. split; [done|].
  eexists _, (1, 0), _.
  split; [vm_compute; reflexivity|].
  split; [reflexivity|].
  split; [vm_compute; reflexivity|].
  vm_compute. discriminate.
Qed.

(** *** Runs on the log of two records *)

Lemma Redo_ends_within_bound_witness :
  Redo64 120 (recovery_with stale_page) = Redo64 4 (recovery_with stale_page).
Proof.
  unfold Redo64.
  apply (Redo_ends_within_bound 64 type_of_code bytes_tuple bytes_length
           slots_Init slots_Insert slots_Update slots_Keep slots_Keep slots_Delete
           4 120 (recovery_with stale_page)).
  - lia.
  - vm_compute. discriminate.
  - vm_compute. discriminate.
  - vm_compute. lia.
Defined.

(** The state in which [Redo] leaves the stale page: the INSERT record,
    which lies at position 20 of the log, is recorded at the offset 84. *)
Definition redone_stale : LogRecovery :=
  mkRecovery 0 (two_record_log ++ replicate 10 0) {[ 1 := 1 ]}
             {[ 0 := 0; 1 := 84 ]}
             {[ 1 := mkPage 0 0 true [((1, 0), [7; 7])] ]} two_record_log true.

Example Redo_records_shifted_offset :
  Redo64 4 (recovery_with stale_page) = Done redone_stale ∧
  read_i32 two_record_log (20 + 4) = 1 ∧
  lsn_mapping_ redone_stale !! 1 = Some (20 + 64).
Proof. vm_compute. repeat split; reflexivity. Qed.

Lemma Redo_records_no_offset_inside_first_chunk_witness :
  Redo64 4 (recovery_with stale_page) = Done redone_stale ∧
  ∀ lsn off, lsn_mapping_ redone_stale !! lsn = Some off →
    lsn_mapping_ (recovery_with stale_page) !! lsn = Some off ∨
    off = 0 ∨ 64 ≤ off.
Proof.
  split; [vm_compute; reflexivity|].
  apply (Redo_records_no_offset_inside_first_chunk 64 type_of_code bytes_tuple
           bytes_length slots_Init slots_Insert slots_Update slots_Keep slots_Keep
           slots_Delete 4 (recovery_with stale_page) redone_stale).
  - lia.
  - vm_compute. reflexivity.
Defined.

Definition Undo64 : nat → list (txn_id_t * lsn_t) → LogRecovery → outcome LogRecovery :=
  Undo 64 type_of_code bytes_tuple bytes_length slots_Update slots_Keep slots_Delete.

(** After [Redo] on the stale page, [Undo] of transaction 1 looks for its
    last record at the offset 84, past the end of the log of 54 bytes, and
    [assert(retRead)] fails. *)
Example Undo_after_Redo_reads_past_the_log :
  Undo64 4 (map_to_list (active_txn_ redone_stale)) redone_stale = Crash.
Proof. vm_compute. reflexivity. Qed.

(** A state in which the offsets of the two records are the right ones and
    page 1 carries the LSN of the INSERT record. *)
Definition loser_on_flushed_page : LogRecovery :=
  mkRecovery 0 [] {[ 1 := 1 ]} {[ 0 := 0; 1 := 20 ]}
             {[ 1 := flushed_page ]} two_record_log true.

Lemma Undo_never_returns_on_skipped_record_witness :
  Undo64 1000 [(1, 1)] loser_on_flushed_page = OutOfFuel.
Proof.
  unfold Undo64.
  apply (Undo_never_returns_on_skipped_record 64 type_of_code bytes_tuple
           bytes_length slots_Update slots_Keep slots_Delete
           1000 1 1 [] loser_on_flushed_page).
  eexists _, _, (1, 0), flushed_page.
  split; [vm_compute; reflexivity|].
  split; [vm_compute; reflexivity|].
  split; [reflexivity|].
  split; [vm_compute; reflexivity|].
  vm_compute. discriminate.
Defined.

End LogRecovery.

(* ===================================================================== *)
(** ** logging/log_manager.cpp *)
(* ===================================================================== *)

Module LogManager.

Import LogRecovery.

(** The bytes [bytes] lie in the buffer from [pos] on. *)
Definition holds_at (buf : list Z) (pos : Z) (bytes : list Z) : Prop :=
  take (length bytes) (drop (Z.to_nat pos) buf) = bytes.

(** [memcpy(buf + pos, bytes, n)]; [None] when the bytes do not lie within
    the buffer. *)
Definition memcpy (buf : list Z) (pos : Z) (bytes : list Z) : option (list Z) :=
  if decide (0 ≤ pos ∧ pos + Z.of_nat (length bytes) ≤ Z.of_nat (length buf)) then
    Some (take (Z.to_nat pos) buf ++ bytes
            ++ drop (Z.to_nat pos + length bytes) buf)
  else None.

Definition rid_bytes (rid : RID) : list Z := le32 rid.1 ++ le32 rid.2.

Section Append.
Context {Tuple : Type}.

(** [LOG_BUFFER_SIZE] of common/config.h. *)
Variable LOG_BUFFER_SIZE : Z.
(** The numbering of [LogRecordType] in logging/log_record.h. *)
Variable encode_type : LogRecordType → Z.
(** The bytes that [Tuple::SerializeTo] writes, and [Tuple::GetLength]. *)
Variable Tuple_SerializeTo : Tuple → list Z.
Variable Tuple_GetLength : Tuple → Z.

(** Modelled from the spec: logging/log_record.h is not among the sources.
    The first [HEADER_SIZE] bytes of a [LogRecord] are its fields [size_],
    [lsn_], [txn_id_], [prev_lsn_] and [log_record_type_], of 32 bits each
    and in this order, which is the layout that [DeserializeLogRecord]
    reads; an [RID] is its page id followed by its slot number. *)
Definition header_bytes (record : LogRecord (Tuple := Tuple)) : list Z :=
  le32 (size_ record) ++ le32 (lsn_ record) ++ le32 (txn_id_ record)
    ++ le32 (prev_lsn_ record) ++ le32 (encode_type (log_record_type_ record)).

(** The members of [LogManager] that [AppendLogRecord] uses. *)
Record LogManager := mkLogManager {
  next_lsn_ : lsn_t;
  lm_log_buffer_ : list Z;
  log_buffer_size_ : Z
}.

(** The [if]/[else if] chain of [AppendLogRecord] that writes the fields of
    the record after its header, from [pos] on; [None] also for a record
    whose fields are not those of its type. *)
Definition append_payload (record : LogRecord (Tuple := Tuple)) (buf : list Z)
    (pos : Z) : option (list Z) :=
  match log_record_type_ record, payload_ record with
  | INSERT, InsertPayload rid tuple =>
      buf1 ← memcpy buf pos (rid_bytes rid);
      memcpy buf1 (pos + 8) (Tuple_SerializeTo tuple)
  | (APPLYDELETE | MARKDELETE | ROLLBACKDELETE), DeletePayload rid tuple =>
      buf1 ← memcpy buf pos (rid_bytes rid);
      memcpy buf1 (pos + 8) (Tuple_SerializeTo tuple)
  | UPDATE, UpdatePayload rid old new =>
      buf1 ← memcpy buf pos (rid_bytes rid);
      buf2 ← memcpy buf1 (pos + 8) (Tuple_SerializeTo old);
      memcpy buf2 (pos + 8 + (Tuple_GetLength old + 4)) (Tuple_SerializeTo new)
  | NEWPAGE, NewPagePayload prev_page_id => memcpy buf pos (le32 prev_page_id)
  | (INVALID | BEGIN | COMMIT | ABORT), NoPayload => Some buf
  | _, _ => None
  end.

(** [lsn_t AppendLogRecord(LogRecord &log_record)]: the LSN, the record with
    its LSN set, and the log manager.  [None] where the record does not fit
    into the rest of the buffer (the call of [Flush] and the flush thread
    are not represented) and where a write leaves the buffer.  LSNs are
    integers without the wrap-around of 32 bits. *)
Definition AppendLogRecord (log_record : LogRecord (Tuple := Tuple)) (lm : LogManager)
  : option (lsn_t * LogRecord (Tuple := Tuple) * LogManager) :=
  let record :=
    mkRecord (size_ log_record) (next_lsn_ lm) (txn_id_ log_record)
             (prev_lsn_ log_record) (log_record_type_ log_record)
             (payload_ log_record) in
  if decide (size_ record + log_buffer_size_ lm > LOG_BUFFER_SIZE) then None
  else
    let pos := log_buffer_size_ lm in
    buf1 ← memcpy (lm_log_buffer_ lm) pos (header_bytes record);
    buf2 ← append_payload record buf1 (pos + HEADER_SIZE);
    Some (lsn_ record, record,
          mkLogManager (next_lsn_ lm + 1) buf2 (log_buffer_size_ lm + size_ record)).

(** *** Bytes in a buffer *)

Lemma holds_at_lookup (buf : list Z) (pos : Z) (bytes : list Z) :
  holds_at buf pos bytes ↔
  ∀ i, (i < length bytes)%nat → buf !! (Z.to_nat pos + i)%nat = bytes !! i.
Proof.
  unfold holds_at. split.
  - intros Heq i Hi.
    transitivity (take (length bytes) (drop (Z.to_nat pos) buf) !! i);
      [|by rewrite Heq].
    by rewrite lookup_take_lt, lookup_drop by done.
  - intros Hall. apply list_eq. intros i.
    destruct (decide (i < length bytes)%nat) as [Hi|Hi].
    + by rewrite lookup_take_lt, lookup_drop, Hall by done.
    + rewrite lookup_take_ge by lia. symmetry. apply lookup_ge_None. lia.
Qed.

Lemma memcpy_lookup (buf : list Z) (pos : Z) (bytes buf' : list Z) (j : nat) :
  memcpy buf pos bytes = Some buf' →
  buf' !! j = if decide (Z.to_nat pos ≤ j < Z.to_nat pos + length bytes)%nat
              then bytes !! (j - Z.to_nat pos)%nat else buf !! j.
Proof.
  unfold memcpy. case_decide as Hfit; [|done]. intros [= <-].
  assert (Hlen : length (take (Z.to_nat pos) buf) = Z.to_nat pos)
    by (rewrite length_take; lia).
  destruct (decide (j < Z.to_nat pos)%nat) as [Hlt|Hge].
  - rewrite lookup_app_l by lia. rewrite lookup_take_lt by done.
    by rewrite decide_False by lia.
  - rewrite lookup_app_r by lia. rewrite Hlen.
    destruct (decide (j < Z.to_nat pos + length bytes)%nat) as [Hin|Hout].
    + rewrite lookup_app_l by lia. by rewrite decide_True by lia.
    + rewrite lookup_app_r by lia. rewrite lookup_drop.
      rewrite decide_False by lia. f_equal. lia.
Qed.

Lemma memcpy_at (buf : list Z) (pos : Z) (bytes buf' : list Z) :
  memcpy buf pos bytes = Some buf' →
  holds_at buf' pos bytes ∧ length buf' = length buf ∧ 0 ≤ pos ∧
  pos + Z.of_nat (length bytes) ≤ Z.of_nat (length buf).
Proof.
  intros Hcpy. split; [|split].
  - apply holds_at_lookup. intros i Hi.
    rewrite (memcpy_lookup _ _ _ _ _ Hcpy), decide_True by lia. f_equal. lia.
  - revert Hcpy. unfold memcpy. case_decide; [|done]. intros [= <-].
    rewrite !length_app, length_take, length_drop. lia.
  - revert Hcpy. unfold memcpy. case_decide; [|done]. intros _. lia.
Qed.

Lemma memcpy_other (buf : list Z) (pos : Z) (bytes buf' : list Z)
    (q : Z) (bs : list Z) :
  memcpy buf pos bytes = Some buf' →
  holds_at buf q bs → 0 ≤ q → 0 ≤ pos →
  q + Z.of_nat (length bs) ≤ pos ∨ pos + Z.of_nat (length bytes) ≤ q →
  holds_at buf' q bs.
Proof.
  intros Hcpy Hq Hq0 Hpos Hapart. apply holds_at_lookup. intros i Hi.
  rewrite (memcpy_lookup _ _ _ _ _ Hcpy), decide_False by lia.
  by apply holds_at_lookup.
Qed.

Lemma holds_at_app (buf : list Z) (pos : Z) (a b : list Z) :
  0 ≤ pos → holds_at buf pos (a ++ b) →
  holds_at buf pos a ∧ holds_at buf (pos + Z.of_nat (length a)) b.
Proof.
  intros Hpos Hab. rewrite !holds_at_lookup in *. split.
  - intros i Hi. rewrite Hab by (rewrite length_app; lia).
    by rewrite lookup_app_l.
  - intros i Hi.
    replace (Z.to_nat (pos + Z.of_nat (length a)) + i)%nat
      with (Z.to_nat pos + (length a + i))%nat by lia.
    rewrite Hab by (rewrite length_app; lia).
    rewrite lookup_app_r by lia. f_equal. lia.
Qed.

Lemma le32_length (z : Z) : length (le32 z) = 4%nat.
Proof. done. Qed.

(** A 32-bit integer that was written is read back. *)
Lemma read_i32_at (buf : list Z) (pos z : Z) :
  0 ≤ pos → - 2 ^ 31 ≤ z < 2 ^ 31 →
  holds_at buf pos (le32 z) → read_i32 buf pos = z.
Proof.
  intros Hpos Hz Hat. rewrite holds_at_lookup in Hat.
  assert (Hb : ∀ i : Z, 0 ≤ i < 4 →
            nth (Z.to_nat (pos + i)) buf 0 = nth (Z.to_nat i) (le32 z) 0).
  { intros i Hi. rewrite !nth_lookup.
    replace (Z.to_nat (pos + i)) with (Z.to_nat pos + Z.to_nat i)%nat by lia.
    rewrite Hat; [done|]. rewrite le32_length. lia. }
  unfold read_i32. cbv zeta.
  rewrite (Hb 0), (Hb 1), (Hb 2), (Hb 3) by lia.
  change (Z.to_nat 0) with 0%nat. change (Z.to_nat 1) with 1%nat.
  change (Z.to_nat 2) with 2%nat. change (Z.to_nat 3) with 3%nat.
  unfold le32. cbn [nth].
  set (u := z mod 2 ^ 32).
  assert (Hu : 0 ≤ u < 2 ^ 32) by (apply Z.mod_pos_bound; lia).
  assert (Hsum : u mod 256 + (u / 2 ^ 8) mod 256 * 2 ^ 8
                 + (u / 2 ^ 16) mod 256 * 2 ^ 16 + (u / 2 ^ 24) mod 256 * 2 ^ 24 = u).
  { change (2 ^ 8) with 256. change (2 ^ 16) with 65536.
    change (2 ^ 24) with 16777216. change (2 ^ 32) with 4294967296 in Hu.
    clearbody u. Z.div_mod_to_equations. lia. }
  rewrite Hsum.
  assert (Hcase : (z = u ∧ 0 ≤ z) ∨ (z = u - 2 ^ 32 ∧ z < 0)).
  { unfold u. change (2 ^ 32) with 4294967296. change (2 ^ 31) with 2147483648 in Hz.
    Z.div_mod_to_equations. lia. }
  destruct (Z.ltb_spec u (2 ^ 31)); lia.
Qed.

(** *** Reading back what was appended *)

(** The reader: [LogRecovery::DeserializeLogRecord] with the inverse
    numbering of the record types and [Tuple::DeserializeFrom]. *)
Variable decode_type : Z → LogRecordType.
Variable Tuple_DeserializeFrom : list Z → Z → Tuple.

Definition fits_int32 (z : Z) : Prop := - 2 ^ 31 ≤ z < 2 ^ 31.

Definition payload_fits_int32 (payload : Payload (Tuple := Tuple)) : Prop :=
  match payload with
  | NoPayload => True
  | DeletePayload rid _ | InsertPayload rid _ | UpdatePayload rid _ _ =>
      fits_int32 rid.1 ∧ fits_int32 rid.2
  | NewPagePayload prev_page_id => fits_int32 prev_page_id
  end.

Definition payload_tuples (payload : Payload (Tuple := Tuple)) : list Tuple :=
  match payload with
  | NoPayload | NewPagePayload _ => []
  | DeletePayload _ tuple | InsertPayload _ tuple => [tuple]
  | UpdatePayload _ old new => [old; new]
  end.

(** [Tuple::DeserializeFrom] reads back what [Tuple::SerializeTo] wrote. *)
Definition tuple_read_back (tuple : Tuple) : Prop :=
  ∀ buf pos, 0 ≤ pos → holds_at buf pos (Tuple_SerializeTo tuple) →
             Tuple_DeserializeFrom buf pos = tuple.

Lemma read_RID_at (buf : list Z) (pos : Z) (rid : RID) :
  0 ≤ pos → fits_int32 rid.1 → fits_int32 rid.2 →
  holds_at buf pos (rid_bytes rid) → read_RID buf pos = rid.
Proof.
  intros Hpos H1 H2 Hat. unfold rid_bytes in Hat.
  apply holds_at_app in Hat as [Ha Hb]; [|done]. rewrite le32_length in Hb.
  replace (pos + Z.of_nat 4) with (pos + 4) in Hb by lia.
  unfold read_RID. rewrite (read_i32_at _ _ rid.1), (read_i32_at _ _ rid.2);
    [by destruct rid|lia|done|done|done|done|done].
Qed.

Lemma header_read (buf : list Z) (pos : Z) (record : LogRecord (Tuple := Tuple)) :
  0 ≤ pos →
  fits_int32 (size_ record) → fits_int32 (lsn_ record) →
  fits_int32 (txn_id_ record) → fits_int32 (prev_lsn_ record) →
  fits_int32 (encode_type (log_record_type_ record)) →
  holds_at buf pos (header_bytes record) →
  read_i32 buf pos = size_ record ∧
  read_i32 buf (pos + 4) = lsn_ record ∧
  read_i32 buf (pos + 8) = txn_id_ record ∧
  read_i32 buf (pos + 12) = prev_lsn_ record ∧
  read_i32 buf (pos + 16) = encode_type (log_record_type_ record).
Proof.
  intros Hpos Hs Hl Ht Hp He Hat. unfold header_bytes in Hat.
  apply holds_at_app in Hat as [H0 Hat]; [|done]. rewrite le32_length in Hat.
  apply holds_at_app in Hat as [H4 Hat]; [|lia]. rewrite le32_length in Hat.
  apply holds_at_app in Hat as [H8 Hat]; [|lia]. rewrite le32_length in Hat.
  apply holds_at_app in Hat as [H12 H16]; [|lia]. rewrite le32_length in H16.
  replace (pos + Z.of_nat 4 + Z.of_nat 4 + Z.of_nat 4 + Z.of_nat 4)
    with (pos + 16) in H16 by lia.
  replace (pos + Z.of_nat 4 + Z.of_nat 4 + Z.of_nat 4) with (pos + 12) in H12 by lia.
  replace (pos + Z.of_nat 4 + Z.of_nat 4) with (pos + 8) in H8 by lia.
  replace (pos + Z.of_nat 4) with (pos + 4) in H4 by lia.
  repeat split; apply read_i32_at; (done || lia).
Qed.

Lemma append_payload_frame (record : LogRecord (Tuple := Tuple)) (buf buf2 : list Z)
    (pos q : Z) (bs : list Z) :
  (∀ tuple, 0 ≤ Tuple_GetLength tuple) →
  append_payload record buf pos = Some buf2 →
  0 ≤ q → q + Z.of_nat (length bs) ≤ pos →
  holds_at buf q bs → holds_at buf2 q bs.
Proof.
  intros Hlen Happ Hq Hbefore Hat. unfold append_payload in Happ.
  destruct (log_record_type_ record), (payload_ record); simplify_eq; try done.
  all: repeat match type of Happ with
       | (memcpy ?b ?p ?bytes ≫= _) = Some _ =>
           let b1 := fresh "buf1" in
           let Hc := fresh "Hcpy" in
           destruct (memcpy b p bytes) as [b1|] eqn:Hc; [simpl in Happ|done];
           apply (memcpy_other _ _ _ _ q bs Hc) in Hat; [|done|lia|lia]
       end.
  all: try (apply (memcpy_other _ _ _ _ q bs Happ) in Hat; [done|done|lia|lia]).
  all: match type of Happ with
       | memcpy _ (_ + (Tuple_GetLength ?old + 4)) _ = _ =>
           pose proof (Hlen old);
           apply (memcpy_other _ _ _ _ q bs Happ) in Hat; [done|done|lia|lia]
       end.
Qed.

(** What [AppendLogRecord] writes for a record that is no UPDATE record,
    [DeserializeLogRecord] reads back from the place of the record: the
    fields of the record with the LSN that was assigned.  The numbering of
    the record types is invertible and of 32 bits, [Tuple::DeserializeFrom]
    reads back what [Tuple::SerializeTo] wrote for the tuple of the record,
    and the integer fields of the record are of 32 bits. *)
Theorem AppendLogRecord_read_back (log_record record : LogRecord (Tuple := Tuple))
    (lm lm' : LogManager) (lsn : lsn_t) :
  (∀ type, decode_type (encode_type type) = type) →
  (∀ type, fits_int32 (encode_type type)) →
  (∀ tuple, tuple ∈ payload_tuples (payload_ log_record) → tuple_read_back tuple) →
  (∀ tuple, 0 ≤ Tuple_GetLength tuple) →
  log_record_type_ log_record ≠ UPDATE →
  0 < size_ log_record →
  fits_int32 (size_ log_record) → fits_int32 (txn_id_ log_record) →
  fits_int32 (prev_lsn_ log_record) → fits_int32 (next_lsn_ lm) →
  payload_fits_int32 (payload_ log_record) →
  0 ≤ log_buffer_size_ lm →
  Z.of_nat (length (lm_log_buffer_ lm)) = LOG_BUFFER_SIZE →
  AppendLogRecord log_record lm = Some (lsn, record, lm') →
  lsn = next_lsn_ lm ∧
  next_lsn_ lm' = next_lsn_ lm + 1 ∧
  log_buffer_size_ lm' = log_buffer_size_ lm + size_ log_record ∧
  record = mkRecord (size_ log_record) lsn (txn_id_ log_record)
                    (prev_lsn_ log_record) (log_record_type_ log_record)
                    (payload_ log_record) ∧
  DeserializeLogRecord decode_type Tuple_DeserializeFrom Tuple_GetLength
    (lm_log_buffer_ lm') (log_buffer_size_ lm)
    (LOG_BUFFER_SIZE - log_buffer_size_ lm)
  = Some record.
Proof.
  intros Hdec Henc Htuple Hlen Htype Hsize Hfs Hft Hfp Hfl Hfpay Hpos Hbuf Happ.
  unfold AppendLogRecord in Happ. cbv zeta in Happ.
  case_decide as Hflush; [done|]. simpl in Hflush.
  destruct (memcpy _ _ _) as [buf1|] eqn:Hcpy1; [simpl in Happ|done].
  destruct (append_payload _ buf1 _) as [buf2|] eqn:Hpay; [simpl in Happ|done].
  injection Happ as <- <- <-. simpl.
  do 4 (split; [done|]).
  set (record := mkRecord _ _ _ _ _ _) in *.
  set (pos := log_buffer_size_ lm) in *.
  destruct (memcpy_at _ _ _ _ Hcpy1) as (Hhdr1 & Hlen1 & _ & Hfit).
  assert (Hhdr : holds_at buf2 pos (header_bytes record)).
  { apply (append_payload_frame record buf1 buf2 (pos + HEADER_SIZE)); try done.
    all: unfold header_bytes; rewrite !length_app, !le32_length;
      unfold HEADER_SIZE; lia. }
  destruct (header_read buf2 pos record) as (Hr0 & Hr4 & Hr8 & Hr12 & Hr16);
    try done.
  unfold DeserializeLogRecord.
  assert (Hhl : length (header_bytes record) = 20%nat).
  { unfold header_bytes. by rewrite !length_app, !le32_length. }
  rewrite Hhl in Hfit.
  rewrite decide_False by lia. rewrite Hr0. simpl.
  rewrite decide_False by lia.
  rewrite Hr4, Hr8, Hr12, Hr16, Hdec. simpl.
  unfold append_payload in Hpay. simpl in Hpay, Hfpay.
  assert (Hp20 : 0 ≤ pos + HEADER_SIZE) by (unfold HEADER_SIZE; lia).
  destruct (log_record_type_ log_record) eqn:Ht, (payload_ log_record) eqn:Hp;
    simplify_eq; try done.
  all: unfold record; rewrite ?Ht, ?Hp; do 2 f_equal.
  all: simpl in Htuple.
  all: try (specialize (Htuple _ ltac:(apply list_elem_of_here)));
       unfold tuple_read_back in Htuple.
  all: try (destruct (memcpy buf1 _ (rid_bytes _)) as [buf1'|] eqn:Hcpy2;
            [simpl in Hpay|done];
            destruct (memcpy_at _ _ _ _ Hcpy2) as (Hrid & _ & _ & _);
            destruct (memcpy_at _ _ _ _ Hpay) as (Htup & _ & _ & _);
            apply (memcpy_other _ _ _ _ _ _ Hpay) in Hrid;
              [|done|lia|unfold rid_bytes; rewrite length_app, !le32_length; lia];
            destruct Hfpay;
            rewrite (read_RID_at buf2 _ _ Hp20) by done;
            rewrite (Htuple buf2 (pos + HEADER_SIZE + 8) ltac:(lia) Htup);
            done).
  destruct (memcpy_at _ _ _ _ Hpay) as (Hpid & _ & _ & _).
  by rewrite (read_i32_at buf2 _ _ Hp20 Hfpay Hpid).
Qed.

(** The positions in an UPDATE record: [AppendLogRecord] puts the new tuple
    [GetLength() + sizeof(int32_t)] bytes after the start of the old tuple,
    and [DeserializeLogRecord] hands [Tuple::DeserializeFrom] the position
    [GetLength()] bytes after it, four bytes before the new tuple.  (The
    serialized old tuple is not longer than [GetLength() + 4] bytes, so the
    new tuple does not overwrite it.) *)
Lemma update_record_positions
    (log_record record : LogRecord (Tuple := Tuple)) (lm lm' : LogManager)
    (lsn : lsn_t) (rid : RID) (old new : Tuple) :
  (∀ type, decode_type (encode_type type) = type) →
  (∀ type, fits_int32 (encode_type type)) →
  tuple_read_back old →
  (∀ tuple, 0 ≤ Tuple_GetLength tuple) →
  Z.of_nat (length (Tuple_SerializeTo old)) ≤ Tuple_GetLength old + 4 →
  log_record_type_ log_record = UPDATE →
  payload_ log_record = UpdatePayload rid old new →
  0 < size_ log_record →
  fits_int32 (size_ log_record) → fits_int32 (txn_id_ log_record) →
  fits_int32 (prev_lsn_ log_record) → fits_int32 (next_lsn_ lm) →
  fits_int32 rid.1 → fits_int32 rid.2 →
  0 ≤ log_buffer_size_ lm →
  Z.of_nat (length (lm_log_buffer_ lm)) = LOG_BUFFER_SIZE →
  AppendLogRecord log_record lm = Some (lsn, record, lm') →
  holds_at (lm_log_buffer_ lm') (log_buffer_size_ lm + HEADER_SIZE + 8)
           (Tuple_SerializeTo old) ∧
  holds_at (lm_log_buffer_ lm')
           (log_buffer_size_ lm + HEADER_SIZE + 8 + Tuple_GetLength old + 4)
           (Tuple_SerializeTo new) ∧
  DeserializeLogRecord decode_type Tuple_DeserializeFrom Tuple_GetLength
    (lm_log_buffer_ lm') (log_buffer_size_ lm)
    (LOG_BUFFER_SIZE - log_buffer_size_ lm)
  = Some (mkRecord (size_ log_record) (next_lsn_ lm) (txn_id_ log_record)
            (prev_lsn_ log_record) UPDATE
            (UpdatePayload rid old
               (Tuple_DeserializeFrom (lm_log_buffer_ lm')
                  (log_buffer_size_ lm + HEADER_SIZE + 8 + Tuple_GetLength old)))).
Proof.
  intros Hdec Henc Htuple Hlen Hser Ht Hp Hsize Hfs Hft Hfp Hfl Hr1 Hr2 Hpos Hbuf Happ.
  unfold AppendLogRecord in Happ. cbv zeta in Happ.
  case_decide as Hflush; [done|]. simpl in Hflush.
  destruct (memcpy _ _ _) as [buf1|] eqn:Hcpy1; [simpl in Happ|done].
  destruct (append_payload _ buf1 _) as [buf2|] eqn:Hpay; [simpl in Happ|done].
  injection Happ as <- <- <-. simpl.
  set (record := mkRecord _ _ _ _ _ _) in *.
  set (pos := log_buffer_size_ lm) in *.
  destruct (memcpy_at _ _ _ _ Hcpy1) as (Hhdr1 & Hlen1 & _ & Hfit).
  assert (Hhdr : holds_at buf2 pos (header_bytes record)).
  { apply (append_payload_frame record buf1 buf2 (pos + HEADER_SIZE)); try done.
    all: unfold header_bytes; rewrite !length_app, !le32_length;
      unfold HEADER_SIZE; lia. }
  destruct (header_read buf2 pos record) as (Hr0 & Hr4 & Hr8 & Hr12 & Hr16);
    try done.
  assert (Hhl : length (header_bytes record) = 20%nat).
  { unfold header_bytes. by rewrite !length_app, !le32_length. }
  rewrite Hhl in Hfit.
  assert (Hp20 : 0 ≤ pos + HEADER_SIZE) by (unfold HEADER_SIZE; lia).
  pose proof (Hlen old) as Hold.
  unfold append_payload in Hpay. simpl in Hpay. rewrite Ht, Hp in Hpay.
  destruct (memcpy buf1 _ (rid_bytes rid)) as [buf1a|] eqn:Hcpy2;
    [simpl in Hpay|done].
  destruct (memcpy buf1a _ (Tuple_SerializeTo old)) as [buf1b|] eqn:Hcpy3;
    [simpl in Hpay|done].
  destruct (memcpy_at _ _ _ _ Hcpy2) as (Hrid & _ & _ & _).
  destruct (memcpy_at _ _ _ _ Hcpy3) as (Holdat & _ & _ & _).
  destruct (memcpy_at _ _ _ _ Hpay) as (Hnewat & _ & _ & _).
  apply (memcpy_other _ _ _ _ _ _ Hcpy3) in Hrid;
    [|done|lia|unfold rid_bytes; rewrite length_app, !le32_length; lia].
  apply (memcpy_other _ _ _ _ _ _ Hpay) in Hrid;
    [|done|lia|unfold rid_bytes; rewrite length_app, !le32_length; lia].
  apply (memcpy_other _ _ _ _ _ _ Hpay) in Holdat; [|lia|lia|lia].
  split; [done|]. split.
  { by replace (pos + HEADER_SIZE + 8 + Tuple_GetLength old + 4)
      with (pos + HEADER_SIZE + 8 + (Tuple_GetLength old + 4)) by lia. }
  unfold DeserializeLogRecord.
  rewrite decide_False by lia. rewrite Hr0. simpl.
  rewrite decide_False by lia.
  rewrite Hr4, Hr8, Hr12, Hr16, Hdec. simpl. rewrite Ht.
  rewrite (read_RID_at buf2 _ _ Hp20) by done.
  rewrite (Htuple buf2 (pos + HEADER_SIZE + 8) ltac:(lia) Holdat). done.
Qed.

End Append.

(** *** Records of integer tuples *)

(** The inverse of [type_of_code]. *)
Definition code_of_type (type : LogRecordType) : Z :=
  match type with
  | INVALID => 0 | INSERT => 1 | MARKDELETE => 2 | APPLYDELETE => 3
  | ROLLBACKDELETE => 4 | UPDATE => 5 | BEGIN => 6 | COMMIT => 7 | ABORT => 8
  | NEWPAGE => 9
  end.

(** The serialization that [bytes_tuple] reads: the length and the bytes. *)
Definition tuple_bytes (t : list Z) : list Z := le32 (bytes_length t) ++ t.

Lemma bytes_tuple_read_back (t : list Z) :
  bytes_length t < 2 ^ 31 →
  tuple_read_back tuple_bytes bytes_tuple t.
Proof.
  intros Hlen buf pos Hpos Hat. unfold tuple_bytes in Hat.
  apply holds_at_app in Hat as [Hl Ht]; [|done]. rewrite le32_length in Ht.
  unfold bytes_tuple. rewrite (read_i32_at buf pos (bytes_length t)); [| | |done].
  - unfold bytes_length. rewrite Nat2Z.id.
    replace (pos + 4) with (pos + Z.of_nat 4) by lia. exact Ht.
  - done.
  - unfold bytes_length in *. lia.
Qed.

Lemma code_of_type_fits (type : LogRecordType) : fits_int32 (code_of_type type).
Proof. unfold fits_int32. destruct type; simpl; lia. Qed.

Lemma type_of_code_of_type (type : LogRecordType) :
  type_of_code (code_of_type type) = type.
Proof. by destruct type. Qed.

Lemma holds_at_within (buf : list Z) (pos : Z) (bytes : list Z) :
  0 ≤ pos → bytes ≠ [] → holds_at buf pos bytes →
  pos + Z.of_nat (length bytes) ≤ Z.of_nat (length buf).
Proof.
  intros Hpos Hne Hat. unfold holds_at in Hat.
  apply (f_equal length) in Hat. rewrite length_take, length_drop in Hat.
  assert (length bytes ≠ 0)%nat by (by destruct bytes). lia.
Qed.

(** An UPDATE record of byte tuples is not read back.  [AppendLogRecord]
    puts the new tuple [GetLength() + sizeof(int32_t)] bytes after the start
    of the old tuple; [DeserializeLogRecord] reads header, record id and old
    tuple as they were written, and reads the new tuple [GetLength()] bytes
    after the start of the old tuple, four bytes early: the length that it
    finds there is the last four bytes in front of the new tuple, and the
    bytes that it copies begin with the length field of the new tuple.  The
    call returns where this length and the bytes that it announces lie
    within the log buffer ([tuple_within]); the read of the old tuple does. *)
Theorem AppendLogRecord_update_read_early (LOG_BUFFER_SIZE : Z)
    (log_record record : LogRecord (Tuple := list Z)) (lm lm' : LogManager)
    (lsn : lsn_t) (rid : RID) (old new : list Z) :
  bytes_length old < 2 ^ 31 →
  log_record_type_ log_record = UPDATE →
  payload_ log_record = UpdatePayload rid old new →
  0 < size_ log_record →
  fits_int32 (size_ log_record) → fits_int32 (txn_id_ log_record) →
  fits_int32 (prev_lsn_ log_record) → fits_int32 (next_lsn_ lm) →
  fits_int32 rid.1 → fits_int32 rid.2 →
  0 ≤ log_buffer_size_ lm →
  Z.of_nat (length (lm_log_buffer_ lm)) = LOG_BUFFER_SIZE →
  AppendLogRecord LOG_BUFFER_SIZE code_of_type tuple_bytes bytes_length
                  log_record lm = Some (lsn, record, lm') →
  tuple_within (lm_log_buffer_ lm')
               (log_buffer_size_ lm + HEADER_SIZE + 8 + bytes_length old) →
  tuple_within (lm_log_buffer_ lm') (log_buffer_size_ lm + HEADER_SIZE + 8) ∧
  holds_at (lm_log_buffer_ lm')
           (log_buffer_size_ lm + HEADER_SIZE + 8 + bytes_length old + 4)
           (tuple_bytes new) ∧
  DeserializeLogRecord type_of_code bytes_tuple bytes_length
    (lm_log_buffer_ lm') (log_buffer_size_ lm)
    (LOG_BUFFER_SIZE - log_buffer_size_ lm)
  = Some (mkRecord (size_ log_record) (next_lsn_ lm) (txn_id_ log_record)
            (prev_lsn_ log_record) UPDATE
            (UpdatePayload rid old
               (bytes_tuple (lm_log_buffer_ lm')
                  (log_buffer_size_ lm + HEADER_SIZE + 8 + bytes_length old)))) ∧
  (read_i32 (lm_log_buffer_ lm')
            (log_buffer_size_ lm + HEADER_SIZE + 8 + bytes_length old)
     ≤ bytes_length new + 4 →
   bytes_tuple (lm_log_buffer_ lm')
               (log_buffer_size_ lm + HEADER_SIZE + 8 + bytes_length old)
   = take (Z.to_nat (read_i32 (lm_log_buffer_ lm')
                       (log_buffer_size_ lm + HEADER_SIZE + 8 + bytes_length old)))
          (tuple_bytes new)).
Proof.
  intros Hold Ht Hp Hsize Hfs Hft Hfp Hfl Hr1 Hr2 Hpos Hbuf Happ Hearly.
  assert (Hlen : ∀ tuple : list Z, 0 ≤ bytes_length tuple)
    by (intros; unfold bytes_length; lia).
  destruct (update_record_positions LOG_BUFFER_SIZE code_of_type tuple_bytes
              bytes_length type_of_code bytes_tuple log_record record lm lm'
              lsn rid old new type_of_code_of_type code_of_type_fits
              (bytes_tuple_read_back old Hold) Hlen)
    as (Holdat & Hnewat & Hread); try done.
  { unfold tuple_bytes, bytes_length. rewrite length_app, le32_length. lia. }
  pose proof (Hlen old) as Hold0.
  assert (Hp28 : 0 ≤ log_buffer_size_ lm + HEADER_SIZE + 8)
    by (unfold HEADER_SIZE; lia).
  split; [|split; [done|split; [done|]]].
  - assert (Hne : tuple_bytes old ≠ []) by (unfold tuple_bytes, le32; done).
    pose proof (holds_at_within _ _ _ Hp28 Hne Holdat) as Hend.
    unfold tuple_bytes in Holdat, Hend.
    apply holds_at_app in Holdat as [Hl _]; [|done].
    assert (Hri : read_i32 (lm_log_buffer_ lm')
                           (log_buffer_size_ lm + HEADER_SIZE + 8)
                  = bytes_length old).
    { apply read_i32_at; [done|unfold fits_int32; lia|done]. }
    unfold tuple_within. rewrite Hri.
    rewrite length_app, le32_length in Hend. unfold bytes_length in *. lia.
  - intros Hshort. destruct Hearly as (_ & Hnn & _).
    unfold bytes_tuple. unfold holds_at in Hnewat.
    rewrite <- Hnewat at 1. rewrite take_take. f_equal.
    unfold tuple_bytes, bytes_length in *.
    rewrite length_app, le32_length in *. lia.
Qed.

(** A log manager with an empty buffer of 64 bytes, and the INSERT record of
    [two_record_log] before it has an LSN. *)
Definition fresh_log_manager : LogManager :=
  mkLogManager 1 (replicate 64 0) 0.
Definition insert_7_7 : LogRecord (Tuple := list Z) :=
  mkRecord 34 (-1) 1 0 INSERT (InsertPayload (1, 0) [7; 7]).

Lemma AppendLogRecord_read_back_witness :
  1 = next_lsn_ fresh_log_manager ∧
  next_lsn_ (mkLogManager 2 (insert_record ++ replicate 30 0) 34)
    = next_lsn_ fresh_log_manager + 1 ∧
  log_buffer_size_ (mkLogManager 2 (insert_record ++ replicate 30 0) 34)
    = log_buffer_size_ fresh_log_manager + size_ insert_7_7 ∧
  mkRecord 34 1 1 0 INSERT (InsertPayload (1, 0) [7; 7])
    = mkRecord (size_ insert_7_7) 1 (txn_id_ insert_7_7) (prev_lsn_ insert_7_7)
               (log_record_type_ insert_7_7) (payload_ insert_7_7) ∧
  DeserializeLogRecord type_of_code bytes_tuple bytes_length
    (lm_log_buffer_ (mkLogManager 2 (insert_record ++ replicate 30 0) 34))
    (log_buffer_size_ fresh_log_manager)
    (64 - log_buffer_size_ fresh_log_manager)
  = Some (mkRecord 34 1 1 0 INSERT (InsertPayload (1, 0) [7; 7])).
Proof.
  apply (AppendLogRecord_read_back 64 code_of_type tuple_bytes bytes_length
           type_of_code bytes_tuple insert_7_7
           (mkRecord 34 1 1 0 INSERT (InsertPayload (1, 0) [7; 7]))
           fresh_log_manager
           (mkLogManager 2 (insert_record ++ replicate 30 0) 34) 1).
  - apply type_of_code_of_type.
  - apply code_of_type_fits.
  - intros tuple Hin. simpl in Hin. apply list_elem_of_singleton in Hin as ->.
    apply bytes_tuple_read_back. vm_compute. reflexivity.
  - intros tuple. unfold bytes_length. lia.
  - discriminate.
  - vm_compute. reflexivity.
  - vm_compute. split; [discriminate|reflexivity].
  - vm_compute. split; [discriminate|reflexivity].
  - vm_compute. split; [discriminate|reflexivity].
  - vm_compute. split; [discriminate|reflexivity].
  - vm_compute. repeat split; (discriminate || reflexivity).
  - vm_compute. discriminate.
  - vm_compute. reflexivity.
  - vm_compute. reflexivity.
Defined.

(** An UPDATE record that replaces the tuple [7; 7; 1; 0; 0; 0] by the
    tuple [9], and the buffer after it was appended. *)
Definition update_to_9 : LogRecord (Tuple := list Z) :=
  mkRecord 43 (-1) 1 0 UPDATE (UpdatePayload (1, 0) [7; 7; 1; 0; 0; 0] [9]).
Definition update_bytes : list Z :=
  le32 43 ++ le32 1 ++ le32 1 ++ le32 0 ++ le32 5
    ++ le32 1 ++ le32 0 ++ le32 6 ++ [7; 7; 1; 0; 0; 0] ++ le32 1 ++ [9].
Definition updated_log_manager : LogManager :=
  mkLogManager 2 (update_bytes ++ replicate 21 0) 43.

Lemma AppendLogRecord_update_read_early_witness :
  tuple_within (lm_log_buffer_ updated_log_manager)
               (log_buffer_size_ fresh_log_manager + HEADER_SIZE + 8) ∧
  holds_at (lm_log_buffer_ updated_log_manager)
           (log_buffer_size_ fresh_log_manager + HEADER_SIZE + 8
              + bytes_length [7; 7; 1; 0; 0; 0] + 4)
           (tuple_bytes [9]) ∧
  DeserializeLogRecord type_of_code bytes_tuple bytes_length
    (lm_log_buffer_ updated_log_manager)
    (log_buffer_size_ fresh_log_manager)
    (64 - log_buffer_size_ fresh_log_manager)
  = Some (mkRecord (size_ update_to_9) (next_lsn_ fresh_log_manager)
            (txn_id_ update_to_9) (prev_lsn_ update_to_9) UPDATE
            (UpdatePayload (1, 0) [7; 7; 1; 0; 0; 0]
               (bytes_tuple (lm_log_buffer_ updated_log_manager)
                  (log_buffer_size_ fresh_log_manager + HEADER_SIZE + 8
                     + bytes_length [7; 7; 1; 0; 0; 0])))) ∧
  (read_i32 (lm_log_buffer_ updated_log_manager)
            (log_buffer_size_ fresh_log_manager + HEADER_SIZE + 8
               + bytes_length [7; 7; 1; 0; 0; 0])
     ≤ bytes_length [9] + 4 →
   bytes_tuple (lm_log_buffer_ updated_log_manager)
               (log_buffer_size_ fresh_log_manager + HEADER_SIZE + 8
                  + bytes_length [7; 7; 1; 0; 0; 0])
   = take (Z.to_nat (read_i32 (lm_log_buffer_ updated_log_manager)
                       (log_buffer_size_ fresh_log_manager + HEADER_SIZE + 8
                          + bytes_length [7; 7; 1; 0; 0; 0])))
          (tuple_bytes [9])).
Proof.
  apply (AppendLogRecord_update_read_early 64 update_to_9
           (mkRecord 43 1 1 0 UPDATE (UpdatePayload (1, 0) [7; 7; 1; 0; 0; 0] [9]))
           fresh_log_manager updated_log_manager 1 (1, 0) [7; 7; 1; 0; 0; 0] [9]).
  - vm_compute. reflexivity.
  - reflexivity.
  - reflexivity.
  - vm_compute. reflexivity.
  - vm_compute. split; [discriminate|reflexivity].
  - vm_compute. split; [discriminate|reflexivity].
  - vm_compute. split; [discriminate|reflexivity].
  - vm_compute. split; [discriminate|reflexivity].
  - vm_compute. split; [discriminate|reflexivity].
  - vm_compute. split; [discriminate|reflexivity].
  - vm_compute. discriminate.
  - vm_compute. reflexivity.
  - vm_compute. reflexivity.
  - vm_compute. repeat split; discriminate.
Defined.

(** The new tuple of the UPDATE record is [9].  The length read in its
    place is 1, the number in the last four bytes of the old tuple, and the
    tuple read back is [1], the first byte of the length field of the new
    tuple. *)
Example update_record_new_tuple_lost :
  AppendLogRecord 64 code_of_type tuple_bytes bytes_length update_to_9
                  fresh_log_manager
  = Some (1, mkRecord 43 1 1 0 UPDATE (UpdatePayload (1, 0) [7; 7; 1; 0; 0; 0] [9]),
          updated_log_manager) ∧
  read_i32 (lm_log_buffer_ updated_log_manager) 34 = 1 ∧
  DeserializeLogRecord type_of_code bytes_tuple bytes_length
    (lm_log_buffer_ updated_log_manager) 0 64
  = Some (mkRecord 43 1 1 0 UPDATE (UpdatePayload (1, 0) [7; 7; 1; 0; 0; 0] [1])).
Proof. vm_compute. repeat split; reflexivity. Qed.

End LogManager.
